(** * ip-lookupv2: the ICMP ping server (ping-server/main.ts)

    A shallow embedding of the scan engine of [ping-server/main.ts]:
    address expansion ([parseIPRange]), the probe ([pingHost]) and the two
    request handlers ([handleStreamingScan], [handleJsonScan]), together
    with the JavaScript primitives they rest on.

    Conventions.
    - A JavaScript string is a [string]; each [ascii] stands for the code
      unit of the same number (0..255).
    - A 32-bit integer is a [Z] with its wrap-around written out
      ([wrap32], [ToUint32]); a Number that may be NaN after [parseInt]
      is an [option Z].
    - A computation that may throw is an [outcome]; loops whose number of
      rounds depends on the input carry fuel and answer [OutOfFuel] when
      it is used up.
    - An array is a [list]; its length is bounded by [2^32 - 1] as the
      language has it ([push]), the size of the heap is not modelled.
    - The network and the clock are an [Environment]: the answer of the
      operating system to each [ping] command, and the time read. *)

From Stdlib Require Import ZArith List String Ascii Bool Lia.
Import ListNotations.
Open Scope Z_scope.

(* ================================================================= *)
(** ** JavaScript primitives *)
(* ================================================================= *)

Module JS.

(** Exceptions of the language that the modelled code can meet. *)
Inductive js_error : Type :=
| TypeError
| RangeError
| HostError.   (* an error raised by the runtime: spawn failure and the like *)

(** Result of running a piece of code. *)
Inductive outcome (A : Type) : Type :=
| Normal (a : A)
| Throw (e : js_error)
| OutOfFuel.

Arguments Normal {A} a.
Arguments Throw {A} e.
Arguments OutOfFuel {A}.

Definition bind {A B : Type} (m : outcome A) (k : A -> outcome B) : outcome B :=
  match m with
  | Normal a => k a
  | Throw e => Throw e
  | OutOfFuel => OutOfFuel
  end.

(** [try { body } catch (error) { handler }]. *)
Definition try_catch {A : Type} (body : outcome A) (handler : js_error -> outcome A)
  : outcome A :=
  match body with
  | Throw e => handler e
  | other => other
  end.

(** A member access on [undefined] throws a TypeError. *)
Definition defined {A : Type} (v : option A) : outcome A :=
  match v with
  | Some a => Normal a
  | None => Throw TypeError
  end.

Definition throws {A : Type} (m : outcome A) : Prop := exists e, m = Throw e.

(* ----------------------------------------------------------------- *)
(** *** Strings *)

(** WhiteSpace and LineTerminator code units below 256: TAB, LF, VT, FF,
    CR, SP and NBSP. *)
Definition StrWhiteSpaceChar (c : ascii) : bool :=
  let n := N_of_ascii c in
  ((9 <=? n) && (n <=? 13) || (n =? 32) || (n =? 160))%N.

Fixpoint trimStart (s : string) : string :=
  match s with
  | EmptyString => EmptyString
  | String c s' => if StrWhiteSpaceChar c then trimStart s' else s
  end.

Fixpoint trimEnd (s : string) : string :=
  match s with
  | EmptyString => EmptyString
  | String c s' =>
      match trimEnd s' with
      | EmptyString => if StrWhiteSpaceChar c then EmptyString else String c EmptyString
      | t => String c t
      end
  end.

(** [String.prototype.trim]. *)
Definition trim (s : string) : string := trimEnd (trimStart s).

(** [s.includes(sep)] for a separator of one code unit. *)
Fixpoint includes (sep : ascii) (s : string) : bool :=
  match s with
  | EmptyString => false
  | String c s' => Ascii.eqb c sep || includes sep s'
  end.

(** [s.split(sep)] for a separator of one code unit; the result always
    has at least one piece. *)
Fixpoint split (sep : ascii) (s : string) : list string :=
  match s with
  | EmptyString => [EmptyString]
  | String c s' =>
      if Ascii.eqb c sep then EmptyString :: split sep s'
      else match split sep s' with
           | p :: ps => String c p :: ps
           | [] => [String c EmptyString]
           end
  end.

(** [arr.join(sep)] on an array of strings. *)
Definition join (sep : string) (arr : list string) : string := String.concat sep arr.

(** [arr.push(x)]: the length of an array stays below [2^32]; the push
    that would reach it throws a RangeError. *)
Definition push {A : Type} (arr : list A) (x : A) : outcome (list A) :=
  if Z.of_nat (List.length arr) <? 2 ^ 32 - 1 then Normal (arr ++ [x])
  else Throw RangeError.

(* ----------------------------------------------------------------- *)
(** *** Numbers *)

(** A Number value: NaN, an infinity, or the finite double [m * 2^e] (the
    sign of zero is not kept; nothing here observes it). *)
Inductive number : Type :=
| NaN
| Infinity (negative : bool)
| Finite (m e : Z).

(** Integer part of a finite double, rounding toward zero. *)
Definition truncate (m e : Z) : Z :=
  if 0 <=? e then m * 2 ^ e else Z.quot m (2 ^ (- e)).

Definition ToUint32 (z : Z) : Z := z mod 2 ^ 32.

Definition wrap32 (z : Z) : Z :=
  let r := z mod 2 ^ 32 in
  if r <? 2 ^ 31 then r else r - 2 ^ 32.

(** [ToInt32] of a value read from an array, [None] being [undefined]. *)
Definition ToInt32 (v : option number) : Z :=
  match v with
  | Some (Finite m e) => wrap32 (truncate m e)
  | _ => 0
  end.

(** [a << n], [a >>> n], [a & b], [a | b], [~a] on integral Numbers:
    the operands are taken modulo [2^32], and so is the result. *)
Definition shl (a n : Z) : Z := wrap32 (Z.shiftl (wrap32 a) (Z.land n 31)).
Definition ushr (a n : Z) : Z := Z.shiftr (ToUint32 a) (Z.land n 31).
Definition band (a b : Z) : Z := wrap32 (Z.land (wrap32 a) (wrap32 b)).
Definition bor (a b : Z) : Z := wrap32 (Z.lor (wrap32 a) (wrap32 b)).
Definition bnot (a : Z) : Z := wrap32 (Z.lnot (wrap32 a)).

(** The double nearest to the positive rational [n / d], ties to even
    (binary64: 53 bits of precision, exponents -1022..1023). *)
Definition nearest_double (n d : Z) : number :=
  if n =? 0 then Finite 0 0
  else
    let e0 := Z.log2 n - Z.log2 d in
    let below := if 0 <=? e0 then n <? d * 2 ^ e0 else n * 2 ^ (- e0) <? d in
    let e := if below then e0 - 1 else e0 in
    let q := Z.max e (-1022) - 52 in
    let num := if 0 <=? q then n else n * 2 ^ (- q) in
    let den := if 0 <=? q then d * 2 ^ q else d in
    let m := num / den in
    let r := num mod den in
    let m' := if 2 * r <? den then m
              else if (2 * r =? den) && Z.even m then m else m + 1 in
    if (1024 <=? e) || ((q =? 971) && (2 ^ 53 <=? m')) then Infinity false
    else Finite m' q.

Definition negate (x : number) : number :=
  match x with
  | NaN => NaN
  | Infinity s => Infinity (negb s)
  | Finite m e => Finite (- m) e
  end.

(** Value of a code unit as a digit in [radix], if it is one. *)
Definition digit_of (radix : Z) (c : ascii) : option Z :=
  let n := Z.of_N (N_of_ascii c) in
  let v := if (48 <=? n) && (n <=? 57) then n - 48
           else if (97 <=? n) && (n <=? 122) then n - 87
           else if (65 <=? n) && (n <=? 90) then n - 55
           else 36 in
  if v <? radix then Some v else None.

Definition is_digit (radix : Z) (c : ascii) : bool :=
  match digit_of radix c with Some _ => true | None => false end.

(** The longest prefix of digits, and what follows it. *)
Fixpoint span_digits (radix : Z) (s : string) : string * string :=
  match s with
  | EmptyString => (EmptyString, EmptyString)
  | String c s' =>
      if is_digit radix c then
        let (d, r) := span_digits radix s' in (String c d, r)
      else (EmptyString, s)
  end.

(** Mathematical value of a string of digits, read after [acc]. *)
Fixpoint digits_value (radix : Z) (acc : Z) (s : string) : Z :=
  match s with
  | EmptyString => acc
  | String c s' =>
      digits_value radix
        (acc * radix + match digit_of radix c with Some v => v | None => 0 end) s'
  end.

Definition strip_sign (s : string) : bool * string :=
  match s with
  | String "-" s' => (true, s')
  | String "+" s' => (false, s')
  | _ => (false, s)
  end.

(** [0x], [0o] and [0b] literals: the integer they denote. *)
Definition NonDecimalIntegerLiteral (s : string) : option Z :=
  match s with
  | String "0" (String p ds) =>
      let radix :=
        if (Ascii.eqb p "x" || Ascii.eqb p "X")%bool then 16
        else if (Ascii.eqb p "o" || Ascii.eqb p "O")%bool then 8
        else if (Ascii.eqb p "b" || Ascii.eqb p "B")%bool then 2
        else 0 in
      match span_digits radix ds with
      | (String _ _ as d, EmptyString) =>
          if radix =? 0 then None else Some (digits_value radix 0 d)
      | _ => None
      end
  | _ => None
  end.

(** Exponent part of a decimal literal ([None]: ill-formed). *)
Definition ExponentPart (s : string) : option Z :=
  match s with
  | EmptyString => Some 0
  | String c s' =>
      if (Ascii.eqb c "e" || Ascii.eqb c "E")%bool then
        let (neg, ds) := strip_sign s' in
        match span_digits 10 ds with
        | (String _ _ as d, EmptyString) =>
            let v := digits_value 10 0 d in Some (if neg then - v else v)
        | _ => None
        end
      else None
  end.

(** An unsigned decimal literal as [(m, k)], meaning [m * 10^k]. *)
Definition StrUnsignedDecimalLiteral (s : string) : option (Z * Z) :=
  let (ip, r1) := span_digits 10 s in
  let (fp, r2) :=
    match r1 with
    | String "." r => span_digits 10 r
    | _ => (EmptyString, r1)
    end in
  match (ip ++ fp)%string with
  | EmptyString => None
  | ds =>
      match ExponentPart r2 with
      | Some ex => Some (digits_value 10 0 ds, ex - Z.of_nat (String.length fp))
      | None => None
      end
  end.

(** [Number(s)] on a string (StringToNumber). *)
Definition Number (s : string) : number :=
  match trim s with
  | EmptyString => Finite 0 0
  | t =>
      match NonDecimalIntegerLiteral t with
      | Some z => nearest_double z 1
      | None =>
          let (neg, u) := strip_sign t in
          if String.eqb u "Infinity" then Infinity neg
          else
            match StrUnsignedDecimalLiteral u with
            | Some (m, k) =>
                let x := if 0 <=? k then nearest_double (m * 10 ^ k) 1
                         else nearest_double m (10 ^ (- k)) in
                if neg then negate x else x
            | None => NaN
            end
      end
  end.

(** [parseInt(s, radix)], [radix = 0] standing for an absent radix.
    [None] is NaN; [Some z] is the mathematical integer read. The Number
    that JavaScript holds is the double nearest to [z]: it compares with a
    small integer as [z] does, and is [z] itself below [2^53]. *)
Definition parseInt (s : string) (radix : Z) : option Z :=
  let (neg, u) := strip_sign (trimStart s) in
  let r := wrap32 radix in
  if (r =? 0) || ((2 <=? r) && (r <=? 36)) then
    let hex :=
      match u with
      | String "0" (String p _) => (Ascii.eqb p "x" || Ascii.eqb p "X")%bool
      | _ => false
      end in
    let strip := ((r =? 0) || (r =? 16)) && hex in
    let R := if strip then 16 else if r =? 0 then 10 else r in
    let body := if strip then String.substring 2 (String.length u - 2) u else u in
    match fst (span_digits R body) with
    | EmptyString => None
    | ds => let v := digits_value R 0 ds in Some (if neg then - v else v)
    end
  else None.

Definition digit_char (d : Z) : ascii := ascii_of_N (48 + Z.to_N d).

Fixpoint decimal_digits (fuel : nat) (n : Z) (acc : string) : string :=
  match fuel with
  | O => acc
  | S fuel' =>
      let acc' := String (digit_char (n mod 10)) acc in
      if n / 10 =? 0 then acc' else decimal_digits fuel' (n / 10) acc'
  end.

(** [String(n)] for an integral Number [n] (of magnitude below [10^21]). *)
Definition decimal (n : Z) : string :=
  let digits := decimal_digits (S (Z.to_nat (Z.log2 (Z.abs n)))) (Z.abs n) EmptyString in
  if n <? 0 then String "-" digits else digits.

(** [ToString] of a value that is a string or [undefined] ([None]). *)
Definition ToString (v : option string) : string :=
  match v with
  | Some s => s
  | None => "undefined"
  end.

(** [String(x)] for the result of [parseInt]. *)
Definition String_of (x : option Z) : string :=
  match x with
  | Some z => decimal z
  | None => "NaN"
  end.

(** [arr.slice(start, end)] with integral or NaN ([None]) bounds. *)
Definition relative_index (len : Z) (k : option Z) : Z :=
  match k with
  | None => 0
  | Some z => if z <? 0 then Z.max (len + z) 0 else Z.min z len
  end.

Definition slice {A : Type} (arr : list A) (start stop : option Z) : list A :=
  let len := Z.of_nat (List.length arr) in
  let k := relative_index len start in
  let final := relative_index len stop in
  firstn (Z.to_nat (final - k)) (skipn (Z.to_nat k) arr).

(** [arr.sort(compareFn)]: the sort is stable; a NaN from [compareFn]
    counts as [+0]. For a consistent comparator the sorted array is
    unique, and insertion from the right computes it. *)
Definition keeps_order {A : Type} (compareFn : A -> A -> option Z) (a b : A) : bool :=
  match compareFn a b with
  | Some v => v <=? 0
  | None => true
  end.

Fixpoint insert_sorted {A : Type} (compareFn : A -> A -> option Z) (x : A) (l : list A)
  : list A :=
  match l with
  | [] => [x]
  | y :: l' =>
      if keeps_order compareFn x y then x :: y :: l'
      else y :: insert_sorted compareFn x l'
  end.

Fixpoint sort {A : Type} (compareFn : A -> A -> option Z) (arr : list A) : list A :=
  match arr with
  | [] => []
  | x :: arr' => insert_sorted compareFn x (sort compareFn arr')
  end.

(** [Promise.all]: the results in the order of the promises; the first
    failure wins. *)
Fixpoint Promise_all {A : Type} (ps : list (outcome A)) : outcome (list A) :=
  match ps with
  | [] => Normal []
  | p :: ps' => bind p (fun a => bind (Promise_all ps') (fun l => Normal (a :: l)))
  end.

(** A [for (const x of arr)] loop that threads a state. *)
Fixpoint for_of {A S : Type} (arr : list A) (body : S -> A -> outcome S) (s : S)
  : outcome S :=
  match arr with
  | [] => Normal s
  | x :: arr' => bind (body s x) (for_of arr' body)
  end.

(** Operators on [parseInt] results, [None] being NaN. *)
Definition add (a b : option Z) : option Z :=
  match a, b with
  | Some x, Some y => Some (x + y)
  | _, _ => None
  end.

Definition sub (a b : option Z) : option Z :=
  match a, b with
  | Some x, Some y => Some (x - y)
  | _, _ => None
  end.

Definition lt (a b : option Z) : bool :=
  match a, b with
  | Some x, Some y => x <? y
  | _, _ => false
  end.

End JS.

Notation "x <- m ;; k" := (JS.bind m (fun x => k))
  (at level 61, m at next level, right associativity).

(* ================================================================= *)
(** ** The ping server *)
(* ================================================================= *)

Module PingServer.
Import JS.

Inductive Status : Type := active | inactive.

Inductive Method : Type := icmp.

Record PingResult : Type := {
  ip : string;
  status : Status;
  responseTime : option Z;     (* absent when [None] *)
  method : Method
}.

Record ScanProgress : Type := {
  current : Z;
  total : Z;
  currentIp : string;
  progress_results : list PingResult
}.

(** The summary of a scan: the [complete] event and the JSON response. *)
Record Summary : Type := {
  success : bool;
  target : string;
  scan_method : Method;
  totalHosts : Z;
  activeHosts : Z;
  scanDuration : Z;
  results : list PingResult
}.

Inductive ScanEvent : Type :=
| progress (p : ScanProgress)
| result (r : PingResult)
| complete (s : Summary).

(** What the operating system makes of one [ping] command. *)
Inductive ping_run : Type :=
| SpawnFails                            (* [command.spawn()] throws *)
| StatusFails                           (* [process.status] rejects *)
| Exits (ok : bool) (elapsed : Z).      (* exit status, and the time it took *)

(** The world outside the server: the answer to each [ping] command by
    its arguments, and the clock as read once [k] probes are over. *)
Record Environment : Type := {
  ping : list string -> ping_run;
  clock : nat -> Z
}.

Definition spawn (env : Environment) (args : list string) : outcome ping_run :=
  match ping env args with
  | SpawnFails => Throw HostError
  | process => Normal process
  end.

Definition process_status (process : ping_run) : outcome (bool * Z) :=
  match process with
  | Exits ok elapsed => Normal (ok, elapsed)
  | _ => Throw HostError
  end.

(** [pingHost(ip, timeout)]. *)
Definition pingHost (env : Environment) (ip : string) (timeout : option Z)
  : outcome PingResult :=
  try_catch
    (process <- spawn env ["-c"; "1"; "-W"; String_of timeout; ip]%string ;;
     st <- process_status process ;;
     let (ok, responseTime) := st in
     if ok then
       Normal {| ip := ip; status := active;
                 responseTime := Some responseTime; method := icmp |}
     else
       Normal {| ip := ip; status := inactive;
                 responseTime := None; method := icmp |})
    (fun error =>
       Normal {| ip := ip; status := inactive;
                 responseTime := None; method := icmp |}).

(** [(p[0] << 24) | (p[1] << 16) | (p[2] << 8) | p[3]], written three
    times in [parseIPRange]. *)
Definition packOctets (parts : list number) : Z :=
  bor (bor (bor (shl (ToInt32 (nth_error parts 0)) 24)
                (shl (ToInt32 (nth_error parts 1)) 16))
           (shl (ToInt32 (nth_error parts 2)) 8))
      (ToInt32 (nth_error parts 3)).

(** [[(i >>> 24) & 255, (i >>> 16) & 255, (i >>> 8) & 255, i & 255].join(".")],
    written twice in [parseIPRange]. *)
Definition numToIp (i : Z) : string :=
  join "." (map decimal
    [band (ushr i 24) 255; band (ushr i 16) 255; band (ushr i 8) 255; band i 255]).

(** [for (let i = ...; continue(i); i++) ips.push(body(i))]. *)
Fixpoint push_loop (fuel : nat) (continue : Z -> bool) (body : Z -> string)
  (i : Z) (ips : list string) : outcome (list string) :=
  match fuel with
  | O => OutOfFuel
  | S fuel' =>
      if continue i then
        ips' <- push ips (body i) ;;
        push_loop fuel' continue body (i + 1) ips'
      else Normal ips
  end.

(** [parseIPRange(input)]. The fuel handed to each loop is one more than
    the number of rounds it can make. *)
Definition parseIPRange (input : string) : outcome (list string) :=
  let ips : list string := [] in
  if includes "-" input then
    let pieces := map trim (split "-" input) in
    startIp <- defined (nth_error pieces 0) ;;
    endIp <- defined (nth_error pieces 1) ;;
    let startParts := map Number (split "." startIp) in
    let endParts := map Number (split "." endIp) in
    let startNum := packOctets startParts in
    let endNum := packOctets endParts in
    push_loop (S (Z.to_nat (endNum - startNum + 1))) (fun i => i <=? endNum)
      numToIp startNum ips
  else if includes "/" input then
    let pieces := split "/" input in
    let baseIp := nth_error pieces 0 in
    let cidrBits := nth_error pieces 1 in
    match parseInt (ToString cidrBits) 0 with
    | Some bits =>
        if (24 <=? bits) && (bits <=? 32) then
          base <- defined baseIp ;;
          let parts := map Number (split "." base) in
          let baseNum := packOctets parts in
          let hostBits := 32 - bits in
          let numHosts := 2 ^ hostBits in
          let networkAddress := band baseNum (shl (bnot 0) hostBits) in
          push_loop (S (Z.to_nat (numHosts - 2))) (fun i => i <? numHosts - 1)
            (fun i => numToIp (networkAddress + i)) 1 ips
        else Normal ips
    | None => Normal ips
    end
  else push ips (trim input).

(* ----------------------------------------------------------------- *)
(** *** Streaming scan *)

(** What the handler does, in the order it does it. *)
Inductive action : Type :=
| Enqueue (e : ScanEvent)                      (* [controller.enqueue] *)
| ProbeStart (ip : string) (timeout : option Z)  (* [pingHost] is called *)
| ProbeEnd (ip : string)                       (* its promise is settled *)
| Close.                                       (* [controller.close] *)

Record scan_state : Type := {
  st_results : list PingResult;
  st_trace : list action
}.

(** Body of [for (const ip of batch)]. *)
Definition stream_probe (env : Environment) (total : Z) (timeout : option Z)
  (st : scan_state) (ip : string) : outcome scan_state :=
  let progressData :=
    {| current := Z.of_nat (List.length (st_results st)) + 1;
       total := total; currentIp := ip; progress_results := [] |} in
  let trace := st_trace st ++ [Enqueue (progress progressData); ProbeStart ip timeout] in
  r <- pingHost env ip timeout ;;
  Normal {| st_results := st_results st ++ [r];
            st_trace := trace ++ [ProbeEnd ip; Enqueue (result r)] |}.

(** [for (let i = 0; i < ips.length; i += batchSize)]. When the fuel is
    used up the loop is still running: the answer is the state reached,
    flagged [false]. *)
Fixpoint stream_loop (fuel : nat) (env : Environment) (ips : list string)
  (timeout batchSize : option Z) (i : option Z) (st : scan_state)
  : outcome (bool * scan_state) :=
  match fuel with
  | O => Normal (false, st)
  | S fuel' =>
      if lt i (Some (Z.of_nat (List.length ips))) then
        let batch := slice ips i (add i batchSize) in
        st' <- for_of batch (stream_probe env (Z.of_nat (List.length ips)) timeout) st ;;
        stream_loop fuel' env ips timeout batchSize (add i batchSize) st'
      else Normal (true, st)
  end.

Definition activeCount (results : list PingResult) : Z :=
  Z.of_nat (List.length
    (filter (fun r => match status r with active => true | inactive => false end)
            results)).

Record StreamRun : Type := {
  actions : list action;
  closed : bool
}.

(** [start(controller)] of the stream. *)
Definition start (fuel : nat) (env : Environment) (target : string)
  (ips : list string) (timeout batchSize : option Z) : outcome StreamRun :=
  loop <- stream_loop fuel env ips timeout batchSize (Some 0)
            {| st_results := []; st_trace := [] |} ;;
  let (finished, st) := loop in
  if finished then
    let results := st_results st in
    let summary :=
      {| success := true; target := target; scan_method := icmp;
         totalHosts := Z.of_nat (List.length results);
         activeHosts := activeCount results;
         scanDuration := clock env (List.length results) - clock env 0;
         results := results |} in
    Normal {| actions := st_trace st ++ [Enqueue (complete summary); Close];
              closed := true |}
  else Normal {| actions := st_trace st; closed := false |}.

Inductive Response : Type :=
| ErrorResponse (code : Z) (error : string)
| EventStream (run : StreamRun)
| JsonResponse (body : Summary).

(** The query of [GET /scan/stream]; [None] is a parameter not given. *)
Record StreamRequest : Type := {
  q_target : option string;
  q_timeout : option string;
  q_batchSize : option string
}.

(** [v || d] on a query parameter. *)
Definition or_else (v : option string) (d : string) : string :=
  match v with
  | Some (String _ _ as s) => s
  | _ => d
  end.

(** [handleStreamingScan(request)]. *)
Definition handleStreamingScan (fuel : nat) (env : Environment)
  (request : StreamRequest) : outcome Response :=
  let timeout := parseInt (or_else (q_timeout request) "2") 0 in
  let batchSize := parseInt (or_else (q_batchSize request) "10") 0 in
  match q_target request with
  | Some (String _ _ as target) =>
      ips <- parseIPRange target ;;
      run <- start fuel env target ips timeout batchSize ;;
      Normal (EventStream run)
  | _ => Normal (ErrorResponse 400 "Target required")
  end.

(* ----------------------------------------------------------------- *)
(** *** JSON scan *)

(** The body of [POST /scan] with integral options; [None] is a member
    not given. *)
Record JsonBody : Type := {
  b_target : option string;
  b_timeout : option Z;
  b_batchSize : option Z
}.

Definition default (v : option Z) (d : Z) : Z :=
  match v with
  | Some z => z
  | None => d
  end.

Fixpoint json_loop (fuel : nat) (env : Environment) (ips : list string)
  (timeout batchSize : Z) (i : Z) (results : list PingResult)
  : outcome (list PingResult) :=
  match fuel with
  | O => OutOfFuel
  | S fuel' =>
      if i <? Z.of_nat (List.length ips) then
        let batch := slice ips (Some i) (Some (i + batchSize)) in
        batchResults <- Promise_all (map (fun ip => pingHost env ip (Some timeout)) batch) ;;
        json_loop fuel' env ips timeout batchSize (i + batchSize)
          (results ++ batchResults)
      else Normal results
  end.

(** [parseInt(r.ip.split(".")[3], 10)]. *)
Definition lastOctet (r : PingResult) : option Z :=
  parseInt (ToString (nth_error (split "." (ip r)) 3)) 10.

Definition compareFn (a b : PingResult) : option Z :=
  sub (lastOctet a) (lastOctet b).

(** [handleJsonScan(request)]. *)
Definition handleJsonScan (fuel : nat) (env : Environment) (body : JsonBody)
  : outcome Response :=
  let timeout := default (b_timeout body) 2 in
  let batchSize := default (b_batchSize body) 10 in
  match b_target body with
  | Some (String _ _ as target) =>
      ips <- parseIPRange target ;;
      results <- json_loop fuel env ips timeout batchSize 0 [] ;;
      Normal (JsonResponse
        {| success := true; target := target; scan_method := icmp;
           totalHosts := Z.of_nat (List.length results);
           activeHosts := activeCount results;
           scanDuration := clock env (List.length results) - clock env 0;
           results := sort compareFn results |})
  | _ => Normal (ErrorResponse 400 "Target required")
  end.

End PingServer.

(* ================================================================= *)
(** ** Vocabulary of the specification *)
(* ================================================================= *)

Module Spec.
Import JS PingServer.

(** A well-formed address is four octets, written in decimal and joined
    by dots; its value is the 32-bit number they spell. *)
Definition octet (z : Z) : Prop := 0 <= z <= 255.

Definition dotted (a b c d : Z) : string := join "." (map decimal [a; b; c; d]).

Definition addr (a b c d : Z) : Z := a * 2 ^ 24 + b * 2 ^ 16 + c * 2 ^ 8 + d.

(** The unsigned 32-bit value that the server itself reads from an
    address. *)
Definition ipValue (s : string) : Z :=
  ToUint32 (packOctets (map Number (split "." s))).

(** [i, i+1, ..., i+n-1]. *)
Fixpoint zrange (i : Z) (n : nat) : list Z :=
  match n with
  | O => []
  | S n' => i :: zrange (i + 1) n'
  end.

(** Position [i] before position [j] means a smaller value. *)
Definition ascending (l : list Z) : Prop :=
  forall (i j : nat) (x y : Z),
    (i < j)%nat -> nth_error l i = Some x -> nth_error l j = Some y -> x < y.

Fixpoint forall_chars (p : ascii -> bool) (s : string) : bool :=
  match s with
  | EmptyString => true
  | String c s' => p c && forall_chars p s'
  end.

Definition addr_char (c : ascii) : bool := is_digit 10 c || Ascii.eqb c ".".

(** The result of a probe, as a function of the world. *)
Definition probe (env : Environment) (timeout : option Z) (ip : string) : PingResult :=
  match ping env ["-c"; "1"; "-W"; String_of timeout; ip]%string with
  | Exits true elapsed =>
      {| ip := ip; status := active; responseTime := Some elapsed; method := icmp |}
  | _ => {| ip := ip; status := inactive; responseTime := None; method := icmp |}
  end.

(** The actions of a scan that takes one address at a time: announce it,
    probe it, wait for the probe, report it. [k] results came before. *)
Definition per_ip (env : Environment) (total : Z) (timeout : option Z)
  (k : nat) (ip : string) : list action :=
  [ Enqueue (progress {| current := Z.of_nat k + 1; total := total;
                         currentIp := ip; progress_results := [] |});
    ProbeStart ip timeout;
    ProbeEnd ip;
    Enqueue (result (probe env timeout ip)) ].

Fixpoint sequential (env : Environment) (total : Z) (timeout : option Z)
  (k : nat) (ips : list string) : list action :=
  match ips with
  | [] => []
  | ip :: ips' => per_ip env total timeout k ip ++ sequential env total timeout (S k) ips'
  end.

(** The events that reach the consumer. *)
Fixpoint events (tr : list action) : list ScanEvent :=
  match tr with
  | [] => []
  | Enqueue e :: tr' => e :: events tr'
  | _ :: tr' => events tr'
  end.

Fixpoint result_events (evs : list ScanEvent) : list PingResult :=
  match evs with
  | [] => []
  | result r :: evs' => r :: result_events evs'
  | _ :: evs' => result_events evs'
  end.

Fixpoint complete_events (evs : list ScanEvent) : list Summary :=
  match evs with
  | [] => []
  | complete s :: evs' => s :: complete_events evs'
  | _ :: evs' => complete_events evs'
  end.

(** Probes started and not yet over. *)
Fixpoint outstanding (tr : list action) : Z :=
  match tr with
  | [] => 0
  | ProbeStart _ _ :: tr' => outstanding tr' + 1
  | ProbeEnd _ :: tr' => outstanding tr' - 1
  | _ :: tr' => outstanding tr'
  end.


(** The state of a scan after the addresses [l] have been taken one at
    a time from the state [st]. *)
Definition extend (env : Environment) (total : Z) (timeout : option Z)
  (st : scan_state) (l : list string) : scan_state :=
  {| st_results := st_results st ++ map (probe env timeout) l;
     st_trace := st_trace st
                 ++ sequential env total timeout (List.length (st_results st)) l |}.

(** The comparison that the JSON handler sorts with, on the addresses. *)
Definition compareIp (a b : string) : option Z :=
  sub (parseInt (ToString (nth_error (split "." a) 3)) 10)
      (parseInt (ToString (nth_error (split "." b) 3)) 10).

Definition summary_of (env : Environment) (target : string) (rs : list PingResult)
  : Summary :=
  {| success := true; target := target; scan_method := icmp;
     totalHosts := Z.of_nat (List.length rs);
     activeHosts := activeCount rs;
     scanDuration := clock env (List.length rs) - clock env 0;
     results := rs |}.

(** A world in which no host answers and the clock stands still. *)
Definition quiet : Environment :=
  {| ping := fun _ => Exits false 0; clock := fun _ => 0 |}.

End Spec.

(* ================================================================= *)
(** ** Vocabulary of the further properties *)
(* ================================================================= *)

From Stdlib Require Import Sorting.Sorted Sorting.Permutation.

Module Further.
Import JS PingServer Spec.

(** The last octet of an address, as a number. *)
Definition lastOctetOf (s : string) : Z := ipValue s mod 256.

Definition well_formed (s : string) : Prop :=
  exists a b c d, octet a /\ octet b /\ octet c /\ octet d /\ s = dotted a b c d.

Definition is_active (r : PingResult) : bool :=
  match status r with
  | active => true
  | inactive => false
  end.

Fixpoint progress_events (evs : list ScanEvent) : list ScanProgress :=
  match evs with
  | [] => []
  | progress p :: evs' => p :: progress_events evs'
  | _ :: evs' => progress_events evs'
  end.

(** The announcements expected for the addresses [ips], [k] of the
    [total] having been announced before. *)
Fixpoint announcements (total : Z) (k : nat) (ips : list string) : list ScanProgress :=
  match ips with
  | [] => []
  | ip :: ips' =>
      {| current := Z.of_nat k + 1; total := total; currentIp := ip;
         progress_results := [] |} :: announcements total (S k) ips'
  end.

(** The first window of a scan whose batch size [b] is not positive:
    [ips.slice(0, b)] holds all the addresses but the last [- b], and
    none when [b] is 0. *)
Definition first_window (ips : list string) (b : Z) : nat :=
  if b <? 0 then Z.to_nat (Z.max (Z.of_nat (List.length ips) + b) 0) else O.

(** An ASCII letter. *)
Definition letter (c : ascii) : bool :=
  let n := N_of_ascii c in
  ((65 <=? n) && (n <=? 90) || (97 <=? n) && (n <=? 122))%N.

(** The order of a list by a numeric key. *)
Definition by_key {A : Type} (key : A -> Z) (x y : A) : Prop := key x <= key y.

End Further.

(* ================================================================= *)
(** ** The scanner page *)
(* ================================================================= *)

Module Scanner.
Import JS PingServer.

(** The test that [validateIP] makes on each part:
    [num = parseInt(part); !isNaN(num) && num >= 0 && num <= 255]. *)
Definition valid_part (part : string) : bool :=
  match parseInt part 0 with
  | Some num => (0 <=? num) && (num <=? 255)
  | None => false
  end.

(** [validateIP(ip)]. *)
Definition validateIP (ip : string) : bool :=
  let parts := split "." ip in
  if negb (List.length parts =? 4)%nat then false
  else forallb valid_part parts.

(** [!v] on a string that may be [undefined]. *)
Definition falsy (v : option string) : bool :=
  match v with
  | Some (String _ _) => false
  | _ => true
  end.

(** [validateCIDR(cidrInput)]. *)
Definition validateCIDR (cidrInput : string) : bool :=
  let pieces := split "/" cidrInput in
  let ip := nth_error pieces 0 in
  let bits := nth_error pieces 1 in
  if falsy ip || falsy bits then false
  else
    let bitsNum := parseInt (ToString bits) 0 in
    validateIP (ToString ip)
    && match bitsNum with
       | Some n => (24 <=? n) && (n <=? 32)
       | None => false
       end.

Inductive InputMode : Type := cidr_mode | range_mode.

(** How [startScan] begins: with one of its three complaints, or with
    the scan of a target. *)
Inductive Started : Type :=
| InvalidCIDR
| InvalidIP
| EmptyTarget
| Scan (target : string).

(** The checks of [startScan], up to the call of the scan. *)
Definition startScan (inputMode : InputMode) (cidr startIp endIp : string) : Started :=
  let target :=
    match inputMode with
    | cidr_mode => cidr
    | range_mode => (startIp ++ "-" ++ endIp)%string
    end in
  let complaint :=
    match inputMode with
    | cidr_mode => if negb (validateCIDR cidr) then Some InvalidCIDR else None
    | range_mode =>
        if negb (validateIP startIp) || negb (validateIP endIp) then Some InvalidIP
        else None
    end in
  match complaint with
  | Some c => c
  | None =>
      match trim target with
      | EmptyString => EmptyTarget
      | _ => Scan target
      end
  end.

(** The request that [startSelfHostedScan] sends for a target: the
    target is the only parameter of the query. *)
Definition scan_request (target : string) : StreamRequest :=
  {| q_target := Some target; q_timeout := None; q_batchSize := None |}.

End Scanner.

(* ================================================================= *)
(** ** The hostname suggestions *)
(* ================================================================= *)

Module HostnameSuggestions.
Import JS.

Record HostnameSuggestion : Type := {
  hostname : string;
  ip : option string;          (* absent when [None] *)
  lastUsed : Z
}.

(** What [localStorage] holds under the key of the suggestions: nothing,
    a text that [JSON.parse] rejects, or the array that [saveHostname]
    wrote there. *)
Inductive stored : Type :=
| NoItem
| Garbled
| Item (l : list HostnameSuggestion).

(** [getStoredHostnames()]. *)
Definition getStoredHostnames (st : stored) : list HostnameSuggestion :=
  match st with
  | Item l => l
  | NoItem => []
  | Garbled => []              (* the [catch] *)
  end.

(** [s.toLowerCase()] on code units below 256: A-Z, and the capital
    letters of Latin-1 (U+00C0 to U+00DE but the sign U+00D7). *)
Definition lower (c : ascii) : ascii :=
  let n := N_of_ascii c in
  if ((65 <=? n) && (n <=? 90) || (192 <=? n) && (n <=? 222) && negb (n =? 215))%N
  then ascii_of_N (n + 32) else c.

Fixpoint toLowerCase (s : string) : string :=
  match s with
  | EmptyString => EmptyString
  | String c s' => String (lower c) (toLowerCase s')
  end.

(** [arr.findIndex(p)], [None] standing for [-1]. *)
Fixpoint findIndex {A : Type} (p : A -> bool) (arr : list A) : option nat :=
  match arr with
  | [] => None
  | x :: arr' =>
      if p x then Some O
      else match findIndex p arr' with
           | Some i => Some (S i)
           | None => None
           end
  end.

(** The array after an assignment to members of [arr[i]]. *)
Fixpoint assign {A : Type} (i : nat) (f : A -> A) (arr : list A) : list A :=
  match arr, i with
  | [], _ => []
  | x :: arr', O => f x :: arr'
  | x :: arr', S i' => x :: assign i' f arr'
  end.

(** [v] is a string that is not empty. *)
Definition truthy (v : option string) : bool :=
  match v with
  | Some (String _ _) => true
  | _ => false
  end.

(** [(a, b) => b.lastUsed - a.lastUsed]. *)
Definition mostRecentFirst (a b : HostnameSuggestion) : option Z :=
  Some (lastUsed b - lastUsed a).

(** [saveHostname(hostname, ip)] when the clock reads [now]: what the
    storage holds afterwards. *)
Definition saveHostname (now : Z) (st : stored) (name : string) (given : option string)
  : stored :=
  match trim name with
  | EmptyString => st
  | _ =>
      let hostnames := getStoredHostnames st in
      let existing :=
        findIndex (fun h => String.eqb (toLowerCase (hostname h)) (toLowerCase name))
                  hostnames in
      let hostnames' :=
        match existing with
        | Some i =>
            assign i (fun h => {| hostname := hostname h;
                                  ip := if truthy given then given else ip h;
                                  lastUsed := now |}) hostnames
        | None =>
            hostnames ++ [{| hostname := trim name; ip := given; lastUsed := now |}]
        end in
      Item (slice (sort mostRecentFirst hostnames') (Some 0) (Some 100))
  end.

Inductive Key : Type := Enter | Escape | ArrowDown | ArrowUp | Tab | OtherKey.

(** What a key press asks of the component around the input. *)
Inductive call : Type :=
| onChange (value : string)
| onSave
| onCancel
| setShowSuggestions (shown : bool)
| preventDefault.

(** [arr[i]] for an integral index. *)
Definition at_index {A : Type} (arr : list A) (i : Z) : option A :=
  if i <? 0 then None else nth_error arr (Z.to_nat i).

(** [handleKeyDown(e)] of [HostnameInput]: the calls it makes, and the
    selected index it leaves. *)
Definition handleKeyDown (suggestions : list HostnameSuggestion) (selectedIndex : Z)
  (key : Key) : outcome (list call * Z) :=
  let length := Z.of_nat (List.length suggestions) in
  match key with
  | Enter =>
      match (if 0 <=? selectedIndex then at_index suggestions selectedIndex else None) with
      | Some _ =>
          s <- defined (at_index suggestions selectedIndex) ;;
          Normal ([onChange (hostname s); setShowSuggestions false], selectedIndex)
      | None => Normal ([onSave], selectedIndex)
      end
  | Escape => Normal ([setShowSuggestions false; onCancel], selectedIndex)
  | ArrowDown => Normal ([preventDefault], Z.min (selectedIndex + 1) (length - 1))
  | ArrowUp => Normal ([preventDefault], Z.max (selectedIndex - 1) (-1))
  | Tab =>
      if 0 <? length then
        if 0 <=? selectedIndex then
          s <- defined (at_index suggestions selectedIndex) ;;
          Normal ([preventDefault; onChange (hostname s); setShowSuggestions false],
                  selectedIndex)
        else if length =? 1 then
          s <- defined (at_index suggestions 0) ;;
          Normal ([preventDefault; onChange (hostname s); setShowSuggestions false],
                  selectedIndex)
        else Normal ([preventDefault; setShowSuggestions false], selectedIndex)
      else Normal ([], selectedIndex)
  | OtherKey => Normal ([], selectedIndex)
  end.

End HostnameSuggestions.

(* ================================================================= *)
(** ** The server on a machine with limits *)
(* ================================================================= *)

(** Two things that the definitions above leave out are put back here:
    the machine affords only so many rounds of a loop (the array [ips]
    grows by one element in each round, and the heap is not unbounded),
    and the consumer of an event stream may leave before the scan is
    over, after which [controller.enqueue] and [controller.close]
    throw. *)

Module Runtime.
Import JS PingServer Spec Further.

(* ----------------------------------------------------------------- *)
(** *** Address expansion in a bounded number of rounds *)



(* ----------------------------------------------------------------- *)
(** *** How far a streaming scan has come *)



(* ----------------------------------------------------------------- *)
(** *** A consumer that may leave *)

(** The consumer of the stream: [Some m] takes the first [m] calls made
    on the controller ([enqueue] or [close]) and is gone at the next,
    which throws a TypeError, the stream having been cancelled; [None]
    stays to the end. *)
Definition consumer : Type := option nat.

(** The calls made on the controller so far. *)
Fixpoint calls (tr : list action) : nat :=
  match tr with
  | [] => O
  | Enqueue _ :: tr' => S (calls tr')
  | Close :: tr' => S (calls tr')
  | _ :: tr' => calls tr'
  end.

Definition listening (c : consumer) (st : scan_state) : bool :=
  match c with
  | None => true
  | Some m => (calls (st_trace st) <? m)%nat
  end.

(** Code that runs on the state of the scan and may throw: the state
    reached is kept when it does. *)
Definition traced (A : Type) : Type := scan_state -> scan_state * outcome A.

Definition ret {A : Type} (a : A) : traced A := fun st => (st, Normal a).

Definition and_then {A B : Type} (m : traced A) (k : A -> traced B) : traced B :=
  fun st =>
    match m st with
    | (st', Normal a) => k a st'
    | (st', Throw e) => (st', Throw e)
    | (st', OutOfFuel) => (st', OutOfFuel)
    end.

Definition log (a : action) : traced unit :=
  fun st => ({| st_results := st_results st; st_trace := st_trace st ++ [a] |}, Normal tt).

(** [controller.enqueue(e)] and [controller.close()]. *)
Definition enqueue (c : consumer) (e : ScanEvent) : traced unit :=
  fun st => if listening c st then log (Enqueue e) st else (st, Throw TypeError).

Definition close (c : consumer) : traced unit :=
  fun st => if listening c st then log Close st else (st, Throw TypeError).

(** [await p]. *)
Definition await {A : Type} (p : outcome A) : traced A := fun st => (st, p).

(** [results.length], [results.push(r)] and [results]. *)
Definition results_length : traced nat :=
  fun st => (st, Normal (List.length (st_results st))).

Definition results_push (r : PingResult) : traced unit :=
  fun st => ({| st_results := st_results st ++ [r]; st_trace := st_trace st |}, Normal tt).

Definition the_results : traced (list PingResult) :=
  fun st => (st, Normal (st_results st)).

(** Body of [for (const ip of batch)], for the consumer [c]. *)
Definition stream_probe_to (c : consumer) (env : Environment) (total : Z)
  (timeout : option Z) (ip : string) : traced unit :=
  and_then results_length (fun length =>
  and_then (enqueue c (progress {| current := Z.of_nat length + 1; total := total;
                                    currentIp := ip; progress_results := [] |})) (fun _ =>
  and_then (log (ProbeStart ip timeout)) (fun _ =>
  and_then (await (pingHost env ip timeout)) (fun r =>
  and_then (log (ProbeEnd ip)) (fun _ =>
  and_then (results_push r) (fun _ =>
  enqueue c (result r))))))).

Fixpoint for_each {A : Type} (arr : list A) (body : A -> traced unit) : traced unit :=
  match arr with
  | [] => ret tt
  | x :: arr' => and_then (body x) (fun _ => for_each arr' body)
  end.

(** [for (let i = 0; i < ips.length; i += batchSize)], for the consumer
    [c]: [true] when the loop is over, [false] when the fuel is. *)
Fixpoint stream_loop_to (c : consumer) (fuel : nat) (env : Environment)
  (ips : list string) (timeout batchSize : option Z) (i : option Z) : traced bool :=
  match fuel with
  | O => ret false
  | S fuel' =>
      if lt i (Some (Z.of_nat (List.length ips))) then
        let batch := slice ips i (add i batchSize) in
        and_then (for_each batch (stream_probe_to c env (Z.of_nat (List.length ips)) timeout))
          (fun _ => stream_loop_to c fuel' env ips timeout batchSize (add i batchSize))
      else ret true
  end.

(** [start(controller)], for the consumer [c]: [true] when the stream
    has been closed. *)
Definition start_to (c : consumer) (fuel : nat) (env : Environment) (target : string)
  (ips : list string) (timeout batchSize : option Z) : traced bool :=
  and_then (stream_loop_to c fuel env ips timeout batchSize (Some 0)) (fun finished =>
  if finished then
    and_then the_results (fun results =>
    let summary :=
      {| success := true; target := target; scan_method := icmp;
         totalHosts := Z.of_nat (List.length results);
         activeHosts := activeCount results;
         scanDuration := clock env (List.length results) - clock env 0;
         results := results |} in
    and_then (enqueue c (complete summary)) (fun _ =>
    and_then (close c) (fun _ => ret true)))
  else ret false).

(** How the promise of [start] ends: fulfilled ([None]) or rejected. *)
Definition rejection {A : Type} (o : outcome A) : option js_error :=
  match o with
  | Throw e => Some e
  | _ => None
  end.

(** [handleStreamingScan(request)], for the consumer [c]: the response
    that the caller gets, and how the promise of [start] ends. The
    response is returned before [start] has done anything; nothing that
    [start] throws reaches the caller. *)
Definition handleStreamingScan_to (c : consumer) (fuel : nat) (env : Environment)
  (request : StreamRequest) : outcome (Response * option js_error) :=
  let timeout := parseInt (or_else (q_timeout request) "2") 0 in
  let batchSize := parseInt (or_else (q_batchSize request) "10") 0 in
  match q_target request with
  | Some (String _ _ as target) =>
      ips <- parseIPRange target ;;
      let (st, o) := start_to c fuel env target ips timeout batchSize
                       {| st_results := []; st_trace := [] |} in
      Normal (EventStream {| actions := st_trace st;
                             closed := match o with Normal true => true | _ => false end |},
              rejection o)
  | _ => Normal (ErrorResponse 400 "Target required", None)
  end.

(** The state of a scan whose consumer left while the address [ip] was
    probed: the address was announced, the probe went to its end and its
    result was pushed, and the result was not sent. *)
Definition interrupted (env : Environment) (total : Z) (timeout : option Z)
  (st : scan_state) (ip : string) : scan_state :=
  {| st_results := st_results st ++ [probe env timeout ip];
     st_trace := st_trace st
                 ++ [ Enqueue (progress {| current := Z.of_nat (List.length (st_results st)) + 1;
                                           total := total; currentIp := ip;
                                           progress_results := [] |});
                      ProbeStart ip timeout;
                      ProbeEnd ip ] |}.

(** The state of a scan over the addresses [l] whose consumer left after
    the results of the first [j]: before the next address was announced
    ([mid = false]), or while it was probed ([mid = true]). *)
Definition halted (env : Environment) (total : Z) (timeout : option Z)
  (st : scan_state) (l : list string) (j : nat) (mid : bool) : scan_state :=
  let st' := extend env total timeout st (firstn j l) in
  if mid then
    match nth_error l j with
    | Some ip => interrupted env total timeout st' ip
    | None => st'
    end
  else st'.

End Runtime.
(* ================================================================= *)
(** ** Facts about the primitives *)
(* ================================================================= *)

(** Turns the boolean comparisons among the hypotheses into
    propositions, for [lia]. *)
Ltac reflect_comparisons :=
  repeat match goal with
         | H : (_ <? _) = true |- _ => apply Z.ltb_lt in H
         | H : (_ <? _) = false |- _ => apply Z.ltb_ge in H
         | H : (_ <=? _) = true |- _ => apply Z.leb_le in H
         | H : (_ <=? _) = false |- _ => apply Z.leb_gt in H
         end.

Module JSFacts.
Import JS Spec.

(** *** Strings *)

Lemma forall_chars_app (p : ascii -> bool) (s t : string) :
  forall_chars p (s ++ t) = forall_chars p s && forall_chars p t.
Proof.
  induction s as [|c s IH]; simpl; [reflexivity|].
  now rewrite IH, andb_assoc.
Qed.

Lemma forall_chars_weaken (p q : ascii -> bool) (s : string) :
  (forall c, p c = true -> q c = true) ->
  forall_chars p s = true -> forall_chars q s = true.
Proof.
  intros Hpq. induction s as [|c s IH]; simpl; [reflexivity|].
  intros H. apply andb_true_iff in H as [Hc Hs].
  now rewrite (Hpq _ Hc), IH.
Qed.

Lemma includes_app (sep : ascii) (s t : string) :
  includes sep (s ++ t) = includes sep s || includes sep t.
Proof.
  induction s as [|c s IH]; simpl; [reflexivity|].
  now rewrite IH, orb_assoc.
Qed.

Lemma includes_absent (p : ascii -> bool) (sep : ascii) (s : string) :
  p sep = false -> forall_chars p s = true -> includes sep s = false.
Proof.
  intros Hsep. induction s as [|c s IH]; simpl; [reflexivity|].
  intros H. apply andb_true_iff in H as [Hc Hs].
  rewrite (IH Hs), orb_false_r.
  apply Ascii.eqb_neq. intros ->. congruence.
Qed.

Lemma split_nonempty (sep : ascii) (s : string) : split sep s <> [].
Proof.
  destruct s as [|c s]; simpl; [discriminate|].
  destruct (Ascii.eqb c sep); [discriminate|].
  destruct (split sep s); discriminate.
Qed.

Lemma split_absent (sep : ascii) (s : string) :
  includes sep s = false -> split sep s = [s].
Proof.
  induction s as [|c s IH]; simpl; [reflexivity|].
  intros H. apply orb_false_iff in H as [Hc Hs].
  now rewrite Hc, (IH Hs).
Qed.

Lemma split_app (sep : ascii) (s t : string) :
  includes sep s = false ->
  split sep (s ++ String sep t) = s :: split sep t.
Proof.
  induction s as [|c s IH]; simpl.
  - intros _. now rewrite Ascii.eqb_refl.
  - intros H. apply orb_false_iff in H as [Hc Hs].
    now rewrite Hc, (IH Hs).
Qed.

(** A string that holds the separator splits into two pieces at least. *)
Lemma split_includes (sep : ascii) (s : string) :
  includes sep s = true ->
  exists p q rest, split sep s = p :: q :: rest.
Proof.
  induction s as [|c s IH]; simpl; [discriminate|].
  destruct (Ascii.eqb c sep) eqn:Hc; simpl.
  - intros _. destruct (split sep s) as [|q rest] eqn:Hs.
    + now destruct (split_nonempty sep s).
    + now exists EmptyString, q, rest.
  - intros H. destruct (IH H) as (p & q & rest & ->).
    now exists (String c p), q, rest.
Qed.

Lemma trimStart_id (s : string) :
  forall_chars (fun c => negb (StrWhiteSpaceChar c)) s = true -> trimStart s = s.
Proof.
  destruct s as [|c s]; simpl; [reflexivity|].
  intros H. apply andb_true_iff in H as [Hc _].
  now apply negb_true_iff in Hc as ->.
Qed.

Lemma trimEnd_id (s : string) :
  forall_chars (fun c => negb (StrWhiteSpaceChar c)) s = true -> trimEnd s = s.
Proof.
  induction s as [|c s IH]; simpl; [reflexivity|].
  intros H. apply andb_true_iff in H as [Hc Hs].
  rewrite (IH Hs). apply negb_true_iff in Hc. rewrite Hc.
  now destruct s.
Qed.

Lemma trim_id (s : string) :
  forall_chars (fun c => negb (StrWhiteSpaceChar c)) s = true -> trim s = s.
Proof.
  intros H. unfold trim. now rewrite (trimStart_id s H), trimEnd_id.
Qed.

Lemma digit_not_space (c : ascii) :
  addr_char c = true -> negb (StrWhiteSpaceChar c) = true.
Proof.
  destruct c as [[] [] [] [] [] [] [] []]; vm_compute; congruence.
Qed.

Lemma span_digits_all (radix : Z) (s : string) :
  forall_chars (is_digit radix) s = true -> span_digits radix s = (s, EmptyString).
Proof.
  induction s as [|c s IH]; simpl; [reflexivity|].
  intros H. apply andb_true_iff in H as [Hc Hs].
  now rewrite Hc, (IH Hs).
Qed.

(** *** Decimal numerals *)

Lemma digit_char_spec (d : Z) :
  0 <= d <= 9 -> digit_of 10 (digit_char d) = Some d.
Proof.
  intros H.
  assert (C : d = 0 \/ d = 1 \/ d = 2 \/ d = 3 \/ d = 4 \/
              d = 5 \/ d = 6 \/ d = 7 \/ d = 8 \/ d = 9) by lia.
  repeat (destruct C as [-> | C]; [reflexivity|]). now subst.
Qed.

Lemma digit_char_is_digit (n : Z) : is_digit 10 (digit_char (n mod 10)) = true.
Proof.
  unfold is_digit. rewrite digit_char_spec; [reflexivity|].
  pose proof (Z.mod_pos_bound n 10). lia.
Qed.

Lemma decimal_digits_chars (fuel : nat) : forall (n : Z) (acc : string),
  forall_chars (is_digit 10) acc = true ->
  forall_chars (is_digit 10) (decimal_digits fuel n acc) = true.
Proof.
  induction fuel as [|fuel IH]; intros n acc Hacc; simpl; [assumption|].
  assert (H : forall_chars (is_digit 10) (String (digit_char (n mod 10)) acc) = true).
  { simpl. now rewrite digit_char_is_digit. }
  destruct (n / 10 =? 0); [assumption|]. now apply IH.
Qed.

Lemma decimal_digits_nonempty (fuel : nat) (n : Z) (acc : string) :
  decimal_digits (S fuel) n acc <> EmptyString.
Proof.
  revert n acc. induction fuel as [|fuel IH]; intros n acc.
  - simpl. destruct (n / 10 =? 0); discriminate.
  - change (decimal_digits (S (S fuel)) n acc)
      with (let acc' := String (digit_char (n mod 10)) acc in
            if n / 10 =? 0 then acc' else decimal_digits (S fuel) (n / 10) acc').
    simpl. destruct (n / 10 =? 0); [discriminate|]. apply IH.
Qed.

Lemma decimal_digits_value (fuel : nat) : forall (n : Z) (acc : string),
  0 <= n < 2 ^ Z.of_nat fuel -> (0 < fuel)%nat ->
  digits_value 10 0 (decimal_digits fuel n acc) = digits_value 10 n acc.
Proof.
  induction fuel as [|fuel IH]; intros n acc Hn Hf; [lia|].
  simpl decimal_digits.
  assert (Hd : 0 <= n mod 10 <= 9) by (pose proof (Z.mod_pos_bound n 10); lia).
  destruct (n / 10 =? 0) eqn:Hq.
  - apply Z.eqb_eq in Hq. simpl. rewrite (digit_char_spec _ Hd).
    f_equal. pose proof (Z.div_mod n 10). lia.
  - apply Z.eqb_neq in Hq.
    assert (Hn10 : 10 <= n).
    { destruct (Z_lt_le_dec n 10) as [Hlt|]; [|assumption].
      rewrite Z.div_small in Hq; lia. }
    rewrite Nat2Z.inj_succ, Z.pow_succ_r in Hn by lia.
    assert (Hfuel : (0 < fuel)%nat).
    { destruct fuel; [simpl in Hn; lia | lia]. }
    rewrite IH; [| |assumption].
    + simpl. rewrite (digit_char_spec _ Hd). f_equal.
      pose proof (Z.div_mod n 10). lia.
    + split; [apply Z.div_pos; lia|].
      apply Z.div_lt_upper_bound; lia.
Qed.

Lemma decimal_nonneg (n : Z) :
  0 <= n ->
  decimal n = decimal_digits (S (Z.to_nat (Z.log2 n))) n EmptyString.
Proof.
  intros H. unfold decimal. rewrite Z.abs_eq by assumption.
  destruct (n <? 0) eqn:E; [apply Z.ltb_lt in E; lia | reflexivity].
Qed.

Lemma decimal_chars (n : Z) :
  0 <= n -> forall_chars (is_digit 10) (decimal n) = true.
Proof.
  intros H. rewrite decimal_nonneg by assumption.
  now apply decimal_digits_chars.
Qed.

Lemma decimal_nonempty (n : Z) : 0 <= n -> decimal n <> EmptyString.
Proof.
  intros H. rewrite decimal_nonneg by assumption. apply decimal_digits_nonempty.
Qed.

Lemma decimal_value (n : Z) : 0 <= n -> digits_value 10 0 (decimal n) = n.
Proof.
  intros H. rewrite decimal_nonneg by assumption.
  rewrite decimal_digits_value; [reflexivity| |lia].
  split; [assumption|].
  rewrite Nat2Z.inj_succ, Z2Nat.id by apply Z.log2_nonneg.
  destruct (Z.eq_dec n 0) as [->|]; [reflexivity|].
  apply Z.log2_spec. lia.
Qed.

(** A numeral begins with a digit: no sign to strip, no [0x] prefix. *)
Lemma strip_sign_digits (s : string) :
  forall_chars (is_digit 10) s = true -> strip_sign s = (false, s).
Proof.
  destruct s as [|c s]; [reflexivity|]. simpl forall_chars.
  intros H. apply andb_true_iff in H as [Hc _].
  destruct c as [[] [] [] [] [] [] [] []]; try reflexivity; vm_compute in Hc; discriminate.
Qed.

Lemma no_hex_prefix (s : string) :
  forall_chars (is_digit 10) s = true ->
  match s with
  | String "0" (String p _) => (Ascii.eqb p "x" || Ascii.eqb p "X")%bool
  | _ => false
  end = false.
Proof.
  destruct s as [|c [|p s]]; [reflexivity| |].
  - destruct c as [[] [] [] [] [] [] [] []]; reflexivity.
  - simpl forall_chars. intros H.
    apply andb_true_iff in H as [_ H]. apply andb_true_iff in H as [Hp _].
    destruct c as [[] [] [] [] [] [] [] []]; try reflexivity.
    destruct p as [[] [] [] [] [] [] [] []]; try reflexivity; vm_compute in Hp; discriminate.
Qed.

Lemma digits_not_space (s : string) :
  forall_chars (is_digit 10) s = true ->
  forall_chars (fun c => negb (StrWhiteSpaceChar c)) s = true.
Proof.
  apply forall_chars_weaken. intros c Hc. apply digit_not_space.
  unfold addr_char. now rewrite Hc.
Qed.

(** [parseInt] reads back what [String] writes. *)
Lemma parseInt_decimal (n : Z) : 0 <= n -> parseInt (decimal n) 0 = Some n.
Proof.
  intros H. pose proof (decimal_chars n H) as Hc.
  pose proof (decimal_nonempty n H) as Hne.
  unfold parseInt.
  rewrite (trimStart_id _ (digits_not_space _ Hc)), (strip_sign_digits _ Hc).
  change (wrap32 0) with 0. simpl ((0 =? 0) || _)%bool. cbv iota.
  rewrite (no_hex_prefix _ Hc). simpl.
  rewrite (span_digits_all _ _ Hc). simpl.
  pose proof (decimal_value n H) as Hv.
  destruct (decimal n) as [|c s]; [congruence|].
  simpl in Hv. now rewrite Hv.
Qed.

End JSFacts.
(** *** 32-bit arithmetic *)

Module Int32Facts.
Import JS PingServer Spec JSFacts.

Lemma wrap32_range (z : Z) : - 2 ^ 31 <= wrap32 z < 2 ^ 31.
Proof.
  unfold wrap32. pose proof (Z.mod_pos_bound z (2 ^ 32)).
  destruct (z mod 2 ^ 32 <? 2 ^ 31) eqn:E;
    [apply Z.ltb_lt in E | apply Z.ltb_ge in E]; lia.
Qed.

Lemma wrap32_mod (z : Z) : wrap32 z mod 2 ^ 32 = z mod 2 ^ 32.
Proof.
  unfold wrap32. destruct (z mod 2 ^ 32 <? 2 ^ 31).
  - apply Z.mod_mod. lia.
  - replace (z mod 2 ^ 32 - 2 ^ 32) with (z mod 2 ^ 32 + (-1) * 2 ^ 32) by ring.
    rewrite Z.mod_add by lia. apply Z.mod_mod. lia.
Qed.

Lemma wrap32_small (z : Z) : - 2 ^ 31 <= z < 2 ^ 31 -> wrap32 z = z.
Proof.
  intros H. unfold wrap32.
  destruct (Z_lt_le_dec z 0) as [Hneg|Hpos].
  - replace (z mod 2 ^ 32) with (z + 2 ^ 32).
    + destruct (z + 2 ^ 32 <? 2 ^ 31) eqn:E;
        [apply Z.ltb_lt in E | apply Z.ltb_ge in E]; lia.
    + apply Z.mod_unique with (q := -1); lia.
  - rewrite Z.mod_small by lia.
    destruct (z <? 2 ^ 31) eqn:E; [reflexivity | apply Z.ltb_ge in E; lia].
Qed.

Lemma wrap32_congr (a b : Z) : a mod 2 ^ 32 = b mod 2 ^ 32 -> wrap32 a = wrap32 b.
Proof. intros H. unfold wrap32. now rewrite H. Qed.

Lemma wrap32_idem (z : Z) : wrap32 (wrap32 z) = wrap32 z.
Proof. apply wrap32_small, wrap32_range. Qed.

Lemma lor_mod (x y : Z) :
  Z.lor x y mod 2 ^ 32 = Z.lor (x mod 2 ^ 32) (y mod 2 ^ 32).
Proof.
  rewrite <- !Z.land_ones by lia. apply Z.land_lor_distr_l.
Qed.

Lemma bor_spec (x y : Z) :
  bor x y = wrap32 (Z.lor (x mod 2 ^ 32) (y mod 2 ^ 32)).
Proof.
  unfold bor. apply wrap32_congr.
  rewrite lor_mod, !wrap32_mod, <- lor_mod. symmetry. apply Z.mod_mod. lia.
Qed.

Lemma bor_range (x y : Z) : - 2 ^ 31 <= bor x y < 2 ^ 31.
Proof. apply wrap32_range. Qed.

(** Bits that do not overlap add up. *)
Lemma lor_disjoint (hi lo k : Z) :
  0 <= k -> 0 <= lo < 2 ^ k -> Z.lor (hi * 2 ^ k) lo = hi * 2 ^ k + lo.
Proof.
  intros Hk Hlo.
  assert (Hland : Z.land (hi * 2 ^ k) lo = 0).
  { apply Z.bits_inj'. intros n Hn.
    rewrite Z.land_spec, Z.bits_0.
    destruct (Z_lt_le_dec n k) as [Hlt|Hge].
    - rewrite Z.mul_pow2_bits_low by assumption. reflexivity.
    - replace lo with (lo mod 2 ^ k) by (apply Z.mod_small; assumption).
      rewrite Z.mod_pow2_bits_high by lia. apply andb_false_r. }
  pose proof (Z.add_lor_land (hi * 2 ^ k) lo) as H.
  rewrite Hland in H. lia.
Qed.

Lemma shl_octet (a n : Z) :
  octet a -> 0 <= n <= 24 -> shl a n mod 2 ^ 32 = a * 2 ^ n.
Proof.
  intros Ha Hn. unfold shl, octet in *.
  rewrite wrap32_mod, (wrap32_small a) by lia.
  replace (Z.land n 31) with n.
  - rewrite Z.shiftl_mul_pow2 by lia. apply Z.mod_small.
    assert (2 ^ n <= 2 ^ 24) by (apply Z.pow_le_mono_r; lia).
    assert (0 < 2 ^ n) by (apply Z.pow_pos_nonneg; lia). nia.
  - change 31 with (Z.ones 5). rewrite Z.land_ones by lia.
    symmetry. apply Z.mod_small. simpl. lia.
Qed.

(** The packing of four octets is the address they spell, read as a
    signed 32-bit number. *)
Lemma pack_octets (a b c d : Z) :
  octet a -> octet b -> octet c -> octet d ->
  bor (bor (bor (shl a 24) (shl b 16)) (shl c 8)) d = wrap32 (addr a b c d).
Proof.
  intros Ha Hb Hc Hd.
  rewrite (bor_spec _ d), (bor_spec _ (shl c 8)), (bor_spec (shl a 24)).
  rewrite !wrap32_mod, !shl_octet by (assumption || lia).
  unfold octet in *.
  rewrite (lor_disjoint a (b * 2 ^ 16) 24) by lia.
  rewrite (Z.mod_small (a * 2 ^ 24 + b * 2 ^ 16)) by lia.
  replace (a * 2 ^ 24 + b * 2 ^ 16) with ((a * 2 ^ 8 + b) * 2 ^ 16) by ring.
  rewrite (lor_disjoint _ (c * 2 ^ 8) 16) by lia.
  rewrite (Z.mod_small ((a * 2 ^ 8 + b) * 2 ^ 16 + c * 2 ^ 8)) by lia.
  replace ((a * 2 ^ 8 + b) * 2 ^ 16 + c * 2 ^ 8)
    with ((a * 2 ^ 16 + b * 2 ^ 8 + c) * 2 ^ 8) by ring.
  rewrite (Z.mod_small d) by lia.
  rewrite (lor_disjoint _ d 8) by lia.
  f_equal. unfold addr. ring.
Qed.

Lemma octet_enum (p : Z -> bool) :
  forallb p (map Z.of_nat (seq 0 256)) = true ->
  forall n, octet n -> p n = true.
Proof.
  intros H n Hn. rewrite forallb_forall in H. apply H.
  apply in_map_iff. exists (Z.to_nat n). unfold octet in Hn.
  split; [lia | apply in_seq; lia].
Qed.

(** [Number] reads an octet back from its numeral. *)
Lemma Number_octet (n : Z) :
  octet n -> ToInt32 (Some (Number (decimal n))) = n.
Proof.
  intros Hn. apply Z.eqb_eq.
  apply (octet_enum (fun n => ToInt32 (Some (Number (decimal n))) =? n));
    [vm_compute; reflexivity | assumption].
Qed.

Lemma dotted_app (a b c d : Z) :
  dotted a b c d
  = (decimal a ++ String "." (decimal b ++ String "." (decimal c ++ String "." (decimal d))))%string.
Proof. reflexivity. Qed.

Lemma decimal_no_sep (sep : ascii) (n : Z) :
  0 <= n -> is_digit 10 sep = false -> includes sep (decimal n) = false.
Proof.
  intros Hn Hsep. apply (includes_absent (is_digit 10)); [assumption|].
  now apply decimal_chars.
Qed.

Lemma split_dotted (a b c d : Z) :
  octet a -> octet b -> octet c -> octet d ->
  split "." (dotted a b c d) = [decimal a; decimal b; decimal c; decimal d].
Proof.
  unfold octet. intros Ha Hb Hc Hd. rewrite dotted_app.
  rewrite !split_app by (apply decimal_no_sep; [lia | reflexivity]).
  rewrite split_absent by (apply decimal_no_sep; [lia | reflexivity]).
  reflexivity.
Qed.

Lemma dotted_chars (a b c d : Z) :
  octet a -> octet b -> octet c -> octet d ->
  forall_chars addr_char (dotted a b c d) = true.
Proof.
  unfold octet. intros Ha Hb Hc Hd. rewrite dotted_app.
  assert (D : forall n, 0 <= n -> forall_chars addr_char (decimal n) = true).
  { intros n Hn. apply (forall_chars_weaken (is_digit 10)); [|now apply decimal_chars].
    intros ch Hch. unfold addr_char. now rewrite Hch. }
  repeat (rewrite forall_chars_app; simpl forall_chars).
  rewrite !D by lia. reflexivity.
Qed.

Lemma dotted_no_sep (sep : ascii) (a b c d : Z) :
  octet a -> octet b -> octet c -> octet d ->
  addr_char sep = false -> includes sep (dotted a b c d) = false.
Proof.
  intros Ha Hb Hc Hd Hsep. apply (includes_absent addr_char); [assumption|].
  now apply dotted_chars.
Qed.

Lemma trim_dotted (a b c d : Z) :
  octet a -> octet b -> octet c -> octet d ->
  trim (dotted a b c d) = dotted a b c d.
Proof.
  intros Ha Hb Hc Hd. apply trim_id.
  apply (forall_chars_weaken addr_char); [apply digit_not_space|].
  now apply dotted_chars.
Qed.

(** The server reads a well-formed address as its value, wrapped to a
    signed 32-bit number. *)
Lemma pack_dotted (a b c d : Z) :
  octet a -> octet b -> octet c -> octet d ->
  packOctets (map Number (split "." (dotted a b c d))) = wrap32 (addr a b c d).
Proof.
  intros Ha Hb Hc Hd. rewrite split_dotted by assumption.
  unfold packOctets. simpl nth_error. simpl map.
  cbn [nth_error]. rewrite !Number_octet by assumption.
  now apply pack_octets.
Qed.

Lemma addr_range (a b c d : Z) :
  octet a -> octet b -> octet c -> octet d -> 0 <= addr a b c d < 2 ^ 32.
Proof. unfold octet, addr. lia. Qed.

Lemma ipValue_dotted (a b c d : Z) :
  octet a -> octet b -> octet c -> octet d ->
  ipValue (dotted a b c d) = addr a b c d.
Proof.
  intros Ha Hb Hc Hd. unfold ipValue, ToUint32.
  rewrite pack_dotted, wrap32_mod by assumption.
  apply Z.mod_small. now apply addr_range.
Qed.

(** The four octets of a 32-bit value. *)
Lemma numToIp_dotted (i : Z) :
  let u := i mod 2 ^ 32 in
  numToIp i = dotted (u / 2 ^ 24) (u / 2 ^ 16 mod 256) (u / 2 ^ 8 mod 256) (u mod 256).
Proof.
  intros u. assert (Hu : 0 <= u < 2 ^ 32) by (apply Z.mod_pos_bound; lia).
  assert (B : forall x, 0 <= x < 2 ^ 31 -> band x 255 = x mod 256).
  { intros x Hx. unfold band. rewrite (wrap32_small x) by lia.
    change (wrap32 255) with (Z.ones 8). rewrite Z.land_ones by lia.
    change (2 ^ 8) with 256. apply wrap32_small.
    pose proof (Z.mod_pos_bound x 256). lia. }
  assert (S : forall n, 0 < n < 32 -> 0 <= u / 2 ^ n < 2 ^ 31).
  { intros n Hn. split; [apply Z.div_pos; [lia | apply Z.pow_pos_nonneg; lia]|].
    apply Z.div_lt_upper_bound; [apply Z.pow_pos_nonneg; lia|].
    assert (2 ^ 1 <= 2 ^ n) by (apply Z.pow_le_mono_r; lia). simpl in *. nia. }
  unfold numToIp, dotted. do 2 f_equal.
  assert (U : forall n, 0 < n < 32 -> Z.land n 31 = n).
  { intros n Hn. change 31 with (Z.ones 5). rewrite Z.land_ones by lia.
    apply Z.mod_small. simpl. lia. }
  unfold ushr, ToUint32. fold u.
  rewrite !U, !Z.shiftr_div_pow2 by lia.
  rewrite !B by (apply S; lia).
  assert (B4 : band i 255 = u mod 256).
  { unfold band. change (wrap32 255) with (Z.ones 8). rewrite Z.land_ones by lia.
    change (2 ^ 8) with 256.
    assert (E : wrap32 i mod 256 = u mod 256).
    { unfold wrap32. fold u. destruct (u <? 2 ^ 31); [reflexivity|].
      replace (u - 2 ^ 32) with (u + (- 2 ^ 24) * 256) by ring.
      apply Z.mod_add. lia. }
    rewrite E. apply wrap32_small. pose proof (Z.mod_pos_bound u 256). lia. }
  rewrite B4, (Z.mod_small (u / 2 ^ 24) 256); [reflexivity|].
  split; [apply Z.div_pos; lia|].
  apply Z.div_lt_upper_bound; lia.
Qed.

Lemma octets_of_value (u : Z) :
  0 <= u < 2 ^ 32 ->
  octet (u / 2 ^ 24) /\ octet (u / 2 ^ 16 mod 256) /\
  octet (u / 2 ^ 8 mod 256) /\ octet (u mod 256) /\
  addr (u / 2 ^ 24) (u / 2 ^ 16 mod 256) (u / 2 ^ 8 mod 256) (u mod 256) = u.
Proof.
  intros Hu. unfold octet, addr.
  change (2 ^ 24) with (256 * 256 * 256). change (2 ^ 16) with (256 * 256).
  change (2 ^ 8) with 256.
  rewrite <- !Z.div_div by lia.
  Z.div_mod_to_equations. lia.
Qed.

(** Every address the server writes reads back as the value it was
    written from. *)
Lemma ipValue_numToIp (i : Z) : ipValue (numToIp i) = i mod 2 ^ 32.
Proof.
  pose proof (Z.mod_pos_bound i (2 ^ 32)) as Hu.
  destruct (octets_of_value (i mod 2 ^ 32)) as (H1 & H2 & H3 & H4 & E); [lia|].
  rewrite numToIp_dotted. cbv zeta.
  rewrite ipValue_dotted by assumption. exact E.
Qed.

End Int32Facts.
(* ================================================================= *)
(** ** Address expansion *)
(* ================================================================= *)

Module ExpandFacts.
Import JS PingServer Spec JSFacts Int32Facts.

Lemma zrange_length (n : nat) : forall i, List.length (zrange i n) = n.
Proof. induction n as [|n IH]; intros i; simpl; [reflexivity | now rewrite IH]. Qed.

Lemma zrange_nth (n : nat) : forall (i : Z) (k : nat),
  (k < n)%nat -> nth_error (zrange i n) k = Some (i + Z.of_nat k).
Proof.
  induction n as [|n IH]; intros i k Hk; [lia|].
  destruct k as [|k]; simpl.
  - f_equal. lia.
  - rewrite IH by lia. f_equal. lia.
Qed.

Lemma zrange_In (n : nat) : forall (i x : Z),
  In x (zrange i n) <-> i <= x < i + Z.of_nat n.
Proof.
  induction n as [|n IH]; intros i x; simpl; [lia|].
  rewrite IH. lia.
Qed.

Lemma zrange_ascending (i : Z) (n : nat) : ascending (zrange i n).
Proof.
  intros j k x y Hjk Hj Hk.
  assert (Hkn : (k < n)%nat).
  { rewrite <- (zrange_length n i). apply nth_error_Some. congruence. }
  rewrite zrange_nth in Hj, Hk by lia.
  injection Hj as <-. injection Hk as <-. lia.
Qed.

(** The counting loop: it appends the body at [i, i+1, ..., hi-1], unless
    the array would outgrow its bound. *)
Lemma push_loop_spec (continue : Z -> bool) (body : Z -> string) (hi : Z) :
  (forall j, continue j = (j <? hi)) ->
  forall (fuel : nat) (i : Z) (ips : list string),
  (Z.to_nat (hi - i) < fuel)%nat ->
  Z.of_nat (List.length ips) <= 2 ^ 32 - 1 ->
  push_loop fuel continue body i ips
  = if Z.of_nat (List.length ips) + Z.max 0 (hi - i) <=? 2 ^ 32 - 1
    then Normal (ips ++ map body (zrange i (Z.to_nat (hi - i))))
    else Throw RangeError.
Proof.
  intros Hc. induction fuel as [|fuel IH]; intros i ips Hfuel Hlen; [lia|].
  simpl. rewrite Hc. destruct (i <? hi) eqn:Hi.
  - apply Z.ltb_lt in Hi. unfold push.
    destruct (Z.of_nat (List.length ips) <? 2 ^ 32 - 1) eqn:Hroom.
    + apply Z.ltb_lt in Hroom. simpl bind.
      rewrite IH; [| lia | rewrite length_app; simpl; lia].
      rewrite length_app. simpl List.length.
      replace (Z.of_nat (List.length ips + 1) + Z.max 0 (hi - (i + 1)))
        with (Z.of_nat (List.length ips) + Z.max 0 (hi - i)) by lia.
      destruct (_ <=? _); [|reflexivity].
      replace (Z.to_nat (hi - i)) with (S (Z.to_nat (hi - (i + 1)))) by lia.
      simpl. now rewrite <- app_assoc.
    + apply Z.ltb_ge in Hroom. simpl bind.
      destruct (_ <=? _) eqn:E; [apply Z.leb_le in E; lia | reflexivity].
  - apply Z.ltb_ge in Hi.
    replace (Z.to_nat (hi - i)) with O by lia. simpl. rewrite app_nil_r.
    destruct (_ <=? _) eqn:E; [reflexivity | apply Z.leb_gt in E; lia].
Qed.

Lemma packOctets_range (parts : list number) :
  - 2 ^ 31 <= packOctets parts < 2 ^ 31.
Proof. apply bor_range. Qed.

Lemma leb_as_ltb (hi : Z) : forall j, (j <=? hi) = (j <? hi + 1).
Proof.
  intros j. destruct (j <=? hi) eqn:A, (j <? hi + 1) eqn:B;
    try reflexivity; reflect_comparisons; lia.
Qed.

(** The range branch, from the two numbers the endpoints are read as. *)
Lemma range_loop_spec (startNum endNum : Z) :
  - 2 ^ 31 <= startNum < 2 ^ 31 -> - 2 ^ 31 <= endNum < 2 ^ 31 ->
  push_loop (S (Z.to_nat (endNum - startNum + 1))) (fun i => i <=? endNum)
    numToIp startNum []
  = if endNum - startNum + 1 <? 2 ^ 32
    then Normal (map numToIp (zrange startNum (Z.to_nat (endNum - startNum + 1))))
    else Throw RangeError.
Proof.
  intros Hs He.
  rewrite (push_loop_spec _ _ (endNum + 1) (leb_as_ltb endNum)); [|lia|simpl; lia].
  simpl List.length. simpl app.
  replace (endNum + 1 - startNum) with (endNum - startNum + 1) by ring.
  destruct (endNum - startNum + 1 <? 2 ^ 32) eqn:A;
    destruct (_ <=? _) eqn:B; try reflexivity; reflect_comparisons; lia.
Qed.

(** The prefix branch: [numHosts - 2] addresses after the network's. *)
Lemma prefix_loop_spec (networkAddress numHosts : Z) :
  1 <= numHosts <= 256 ->
  push_loop (S (Z.to_nat (numHosts - 2))) (fun i => i <? numHosts - 1)
    (fun i => numToIp (networkAddress + i)) 1 []
  = Normal (map (fun i => numToIp (networkAddress + i))
                (zrange 1 (Z.to_nat (numHosts - 2)))).
Proof.
  intros Hn.
  rewrite (push_loop_spec _ _ (numHosts - 1)); [|reflexivity|lia|simpl; lia].
  simpl List.length. simpl app.
  replace (numHosts - 1 - 1) with (numHosts - 2) by ring.
  destruct (_ <=? _) eqn:B; [reflexivity | apply Z.leb_gt in B; lia].
Qed.

(** What [parseIPRange] does with an input that holds a dash. *)
Lemma parseIPRange_dash (input startIp endIp : string) (rest : list string) :
  includes "-" input = true ->
  map trim (split "-" input) = startIp :: endIp :: rest ->
  let startNum := packOctets (map Number (split "." startIp)) in
  let endNum := packOctets (map Number (split "." endIp)) in
  parseIPRange input
  = if endNum - startNum + 1 <? 2 ^ 32
    then Normal (map numToIp (zrange startNum (Z.to_nat (endNum - startNum + 1))))
    else Throw RangeError.
Proof.
  intros Hdash Hsplit startNum endNum. unfold parseIPRange.
  rewrite Hdash, Hsplit. cbn [nth_error defined bind].
  apply range_loop_spec; apply packOctets_range.
Qed.

(** What it does with an input that holds a slash and no dash. *)
Lemma parseIPRange_slash (input baseIp cidrBits : string) (rest : list string) :
  includes "-" input = false ->
  includes "/" input = true ->
  split "/" input = baseIp :: cidrBits :: rest ->
  parseIPRange input
  = match parseInt cidrBits 0 with
    | Some bits =>
        if (24 <=? bits) && (bits <=? 32) then
          let networkAddress :=
            band (packOctets (map Number (split "." baseIp)))
                 (shl (bnot 0) (32 - bits)) in
          Normal (map (fun i => numToIp (networkAddress + i))
                      (zrange 1 (Z.to_nat (2 ^ (32 - bits) - 2))))
        else Normal []
    | None => Normal []
    end.
Proof.
  intros Hdash Hslash Hsplit. unfold parseIPRange.
  rewrite Hdash, Hslash, Hsplit. cbn [nth_error ToString].
  destruct (parseInt cidrBits 0) as [bits|]; [|reflexivity].
  destruct ((24 <=? bits) && (bits <=? 32)) eqn:Hb; [|reflexivity].
  cbn [defined bind].
  apply andb_true_iff in Hb as [H1 H2].
  apply Z.leb_le in H1. apply Z.leb_le in H2.
  cbv zeta. apply prefix_loop_spec.
  assert (2 ^ 0 <= 2 ^ (32 - bits)) by (apply Z.pow_le_mono_r; lia).
  assert (2 ^ (32 - bits) <= 2 ^ 8) by (apply Z.pow_le_mono_r; lia).
  simpl in *. lia.
Qed.

(** And with an input that holds neither. *)
Lemma parseIPRange_plain (input : string) :
  includes "-" input = false ->
  includes "/" input = false ->
  parseIPRange input = Normal [trim input].
Proof.
  intros Hdash Hslash. unfold parseIPRange. now rewrite Hdash, Hslash.
Qed.

Lemma split_trimmed (sep : ascii) (input : string) :
  includes sep input = true ->
  exists startIp endIp rest,
    map trim (split sep input) = startIp :: endIp :: rest.
Proof.
  intros H. destruct (split_includes sep input H) as (p & q & rest & ->).
  now exists (trim p), (trim q), (map trim rest).
Qed.

(** A well-formed range. *)
Lemma parseIPRange_dotted_range (a b c d e f g h : Z) :
  octet a -> octet b -> octet c -> octet d ->
  octet e -> octet f -> octet g -> octet h ->
  let startNum := wrap32 (addr a b c d) in
  let endNum := wrap32 (addr e f g h) in
  parseIPRange (dotted a b c d ++ "-" ++ dotted e f g h)
  = if endNum - startNum + 1 <? 2 ^ 32
    then Normal (map numToIp (zrange startNum (Z.to_nat (endNum - startNum + 1))))
    else Throw RangeError.
Proof.
  intros Ha Hb Hc Hd He Hf Hg Hh startNum endNum.
  assert (Hsplit : split "-" (dotted a b c d ++ "-" ++ dotted e f g h)
                   = [dotted a b c d; dotted e f g h]).
  { simpl append. rewrite split_app by now apply dotted_no_sep.
    rewrite split_absent by now apply dotted_no_sep. reflexivity. }
  rewrite (parseIPRange_dash _ (dotted a b c d) (dotted e f g h) []).
  - rewrite !pack_dotted by assumption. reflexivity.
  - rewrite includes_app. simpl. apply orb_true_r.
  - rewrite Hsplit. simpl. now rewrite !trim_dotted.
Qed.

End ExpandFacts.
(* ================================================================= *)
(** ** Probing and scanning *)
(* ================================================================= *)

Module ScanFacts.
Import JS PingServer Spec.

Section Scan.
Variable env : Environment.
Variable timeout : option Z.

(** [pingHost] always returns, with the result that [probe] describes. *)
Lemma pingHost_spec (ip : string) :
  pingHost env ip timeout = Normal (probe env timeout ip).
Proof.
  unfold pingHost, probe, spawn, process_status.
  destruct (ping env _) as [| |[] elapsed]; reflexivity.
Qed.

Lemma probe_ip (ip : string) : PingServer.ip (probe env timeout ip) = ip.
Proof. unfold probe. destruct (ping env _) as [| |[] elapsed]; reflexivity. Qed.

Lemma map_probe_ip (l : list string) :
  map PingServer.ip (map (probe env timeout) l) = l.
Proof.
  induction l as [|x l IH]; simpl; [reflexivity|]. now rewrite probe_ip, IH.
Qed.

Lemma firstn_extend {A : Type} (p m : nat) (l : list A) :
  firstn p l ++ firstn m (skipn p l) = firstn (p + m) l.
Proof.
  rewrite firstn_skipn_comm.
  rewrite <- (firstn_skipn p (firstn (p + m) l)) at 2.
  rewrite firstn_firstn. now replace (Nat.min p (p + m)) with p by lia.
Qed.

Variable total : Z.

Lemma extend_nil (st : scan_state) : extend env total timeout st [] = st.
Proof. destruct st. unfold extend. simpl. now rewrite !app_nil_r. Qed.

Lemma sequential_app (l1 l2 : list string) : forall k : nat,
  sequential env total timeout k (l1 ++ l2)
  = sequential env total timeout k l1
    ++ sequential env total timeout (k + List.length l1) l2.
Proof.
  induction l1 as [|x l1 IH]; intros k; simpl.
  - now rewrite Nat.add_0_r.
  - rewrite IH. now replace (k + S (List.length l1))%nat with (S k + List.length l1)%nat by lia.
Qed.

Lemma extend_app (st : scan_state) (l1 l2 : list string) :
  extend env total timeout (extend env total timeout st l1) l2
  = extend env total timeout st (l1 ++ l2).
Proof.
  unfold extend. simpl. f_equal.
  - now rewrite map_app, app_assoc.
  - now rewrite sequential_app, length_app, length_map, app_assoc.
Qed.

(** One window: its addresses are taken one at a time. *)
Lemma for_of_stream (l : list string) : forall st : scan_state,
  for_of l (stream_probe env total timeout) st
  = Normal (extend env total timeout st l).
Proof.
  induction l as [|x l IH]; intros st; simpl.
  - now rewrite extend_nil.
  - unfold stream_probe at 1. rewrite pingHost_spec. simpl bind.
    rewrite IH. f_equal. unfold extend. simpl. f_equal.
    + now rewrite <- app_assoc.
    + rewrite <- !app_assoc. simpl. do 5 f_equal.
      rewrite length_app. simpl. now rewrite Nat.add_1_r.
Qed.

End Scan.

(** *** The streaming loop *)

Section StreamLoop.
Variable env : Environment.
Variable timeout : option Z.
Variable ips : list string.


Lemma slice_forward (i b : Z) :
  0 <= i < (Z.of_nat (List.length ips)) -> 0 < b ->
  slice ips (Some i) (Some (i + b))
  = firstn (Z.to_nat (Z.min (i + b) (Z.of_nat (List.length ips))) - Z.to_nat i) (skipn (Z.to_nat i) ips).
Proof.
  intros Hi Hb. unfold slice, relative_index.
  destruct (i <? 0) eqn:E1; [apply Z.ltb_lt in E1; lia|].
  destruct (i + b <? 0) eqn:E2; [apply Z.ltb_lt in E2; lia|].
  rewrite (Z.min_l i (Z.of_nat (List.length ips))) by lia. f_equal. lia.
Qed.

(** A positive batch size walks through the addresses window by window. *)
Lemma stream_loop_forward (b : Z) (st0 : scan_state) :
  0 < b ->
  forall (fuel : nat) (i : Z),
  0 <= i ->
  exists (fin : bool) (k : nat),
    (k <= List.length ips)%nat /\
    stream_loop fuel env ips timeout (Some b) (Some i)
      ((extend env (Z.of_nat (List.length ips)) timeout) st0 (firstn (Z.to_nat (Z.min i (Z.of_nat (List.length ips)))) ips))
    = Normal (fin, (extend env (Z.of_nat (List.length ips)) timeout) st0 (firstn k ips)) /\
    (fin = true -> k = List.length ips) /\
    ((Z.to_nat ((Z.of_nat (List.length ips)) - i) < fuel)%nat -> fin = true).
Proof.
  intros Hb. induction fuel as [|fuel IH]; intros i Hi.
  - exists false, (Z.to_nat (Z.min i (Z.of_nat (List.length ips)))). simpl.
    repeat split; [lia | discriminate | lia].
  - simpl stream_loop. unfold lt.
    destruct (i <? (Z.of_nat (List.length ips))) eqn:E.
    + apply Z.ltb_lt in E.
      cbn [add]. rewrite slice_forward by lia.
      rewrite for_of_stream. cbn [bind]. rewrite extend_app.
      rewrite (Z.min_l i (Z.of_nat (List.length ips))) by lia. rewrite firstn_extend.
      replace (Z.to_nat i + (Z.to_nat (Z.min (i + b) (Z.of_nat (List.length ips))) - Z.to_nat i))%nat
        with (Z.to_nat (Z.min (i + b) (Z.of_nat (List.length ips)))) by lia.
      destruct (IH (i + b)) as (fin & k & Hk & Hrun & Hfin & Hfuel); [lia|].
      exists fin, k. repeat split; try assumption.
      intros Hf. apply Hfuel. lia.
    + apply Z.ltb_ge in E. exists true, (List.length ips).
      rewrite (Z.min_r i (Z.of_nat (List.length ips))) by lia. rewrite Nat2Z.id.
      repeat split; reflexivity || lia.
Qed.

(** Once the index has gone below zero, or stays at zero, every window
    is empty. *)
Lemma stream_loop_idle (b : Z) :
  b <= 0 ->
  forall (fuel : nat) (i : Z) (st : scan_state),
  i <= 0 -> i < 0 \/ b = 0 ->
  exists fin : bool,
    stream_loop fuel env ips timeout (Some b) (Some i) st = Normal (fin, st).
Proof.
  intros Hb. induction fuel as [|fuel IH]; intros i st Hi Hcase.
  - now exists false.
  - simpl stream_loop. unfold lt.
    destruct (i <? (Z.of_nat (List.length ips))) eqn:E; [|now exists true].
    cbn [add].
    assert (Hslice : slice ips (Some i) (Some (i + b)) = []).
    { unfold slice, relative_index.
      destruct (i <? 0) eqn:E1, (i + b <? 0) eqn:E2;
        try apply Z.ltb_lt in E1; try apply Z.ltb_ge in E1;
        try apply Z.ltb_lt in E2; try apply Z.ltb_ge in E2;
        try lia.
      - replace (Z.to_nat (Z.max ((Z.of_nat (List.length ips)) + (i + b)) 0 - Z.max ((Z.of_nat (List.length ips)) + i) 0)) with O by lia.
        reflexivity.
      - replace (Z.to_nat (Z.min (i + b) (Z.of_nat (List.length ips)) - Z.min i (Z.of_nat (List.length ips)))) with O by lia.
        reflexivity. }
    rewrite Hslice. cbn [for_of bind]. apply IH; lia.
Qed.

(** Whatever the batch size and however long the loop has run, the
    addresses handled so far are a prefix of [ips], each taken in turn. *)
Lemma stream_loop_shape (batchSize : option Z) (fuel : nat) (st0 : scan_state) :
  exists (fin : bool) (k : nat),
    (k <= List.length ips)%nat /\
    stream_loop fuel env ips timeout batchSize (Some 0) st0
    = Normal (fin, (extend env (Z.of_nat (List.length ips)) timeout) st0 (firstn k ips)) /\
    (forall b, batchSize = Some b -> 0 < b ->
       (fin = true -> k = List.length ips) /\
       ((List.length ips < fuel)%nat -> fin = true)).
Proof.
  assert (Hnil : (extend env (Z.of_nat (List.length ips)) timeout) st0 (firstn 0 ips) = st0) by apply extend_nil.
  destruct batchSize as [b|].
  - destruct (Z_lt_le_dec 0 b) as [Hpos|Hneg].
    + destruct (stream_loop_forward b st0 Hpos fuel 0) as (fin & k & Hk & Hrun & Hfin & Hfuel);
        [lia|].
      rewrite Z.min_l in Hrun by lia.
      change (Z.to_nat 0) with O in Hrun. rewrite Hnil in Hrun.
      exists fin, k. split; [assumption|]. split; [assumption|].
      intros b' _ _. split; [assumption|].
      intros Hf. apply Hfuel. lia.
    + assert (Hno : forall (fin : bool) (k : nat) (b' : Z), Some b = Some b' -> 0 < b' ->
                (fin = true -> k = List.length ips) /\
                ((List.length ips < fuel)%nat -> fin = true)).
      { intros fin k b' Hb' Hp. inversion Hb'; subst. lia. }
      destruct fuel as [|fuel].
      * exists false, O. rewrite Hnil. split; [lia|]. split; [reflexivity|]. apply Hno.
      * simpl stream_loop. unfold lt.
        destruct (0 <? (Z.of_nat (List.length ips))) eqn:E.
        -- apply Z.ltb_lt in E. change (add (Some 0) (Some b)) with (Some b).
           set (k := if b <? 0 then Z.to_nat (Z.max ((Z.of_nat (List.length ips)) + b) 0) else O).
           assert (Hslice : slice ips (Some 0) (Some b) = firstn k ips).
           { unfold slice, relative_index, k.
             change (0 <? 0) with false. cbv iota.
             rewrite (Z.min_l 0 (Z.of_nat (List.length ips))) by lia. change (Z.to_nat 0) with O. rewrite skipn_0.
             destruct (b <? 0) eqn:E3;
               [apply Z.ltb_lt in E3 | apply Z.ltb_ge in E3].
             - f_equal. lia.
             - replace (Z.to_nat (Z.min b (Z.of_nat (List.length ips)) - 0)) with O by lia. reflexivity. }
           rewrite Hslice, for_of_stream. cbn [bind].
           destruct (stream_loop_idle b Hneg fuel b ((extend env (Z.of_nat (List.length ips)) timeout) st0 (firstn k ips)))
             as (fin & Hrun); [lia | lia |].
           exists fin, k. rewrite Hrun.
           split; [|split; [reflexivity | apply Hno]].
           unfold k. destruct (b <? 0); lia.
        -- exists true, O. rewrite Hnil.
           split; [lia|]. split; [reflexivity | apply Hno].
  - assert (Hno : forall (fin : bool) (k : nat) (b' : Z), @None Z = Some b' -> 0 < b' ->
              (fin = true -> k = List.length ips) /\
              ((List.length ips < fuel)%nat -> fin = true)).
    { intros fin k b' Hb'. discriminate. }
    destruct fuel as [|fuel].
    + exists false, O. rewrite Hnil. split; [lia|]. split; [reflexivity | apply Hno].
    + simpl stream_loop. unfold lt.
      destruct (0 <? (Z.of_nat (List.length ips))) eqn:E.
      * change (add (Some 0) None) with (@None Z).
        assert (Hslice : slice ips (Some 0) None = []).
        { unfold slice, relative_index. change (0 <? 0) with false. cbv iota.
          rewrite Z.min_l by lia. reflexivity. }
        rewrite Hslice. cbn [for_of bind].
        exists (match fuel with O => false | S _ => true end), O.
        rewrite Hnil. split; [lia|]. split; [|apply Hno].
        destruct fuel; reflexivity.
      * exists true, O. rewrite Hnil.
        split; [lia|]. split; [reflexivity | apply Hno].
Qed.

End StreamLoop.

(** *** The JSON loop *)

Section JsonLoop.
Variable env : Environment.
Variable timeout : Z.
Variable ips : list string.

Lemma Promise_all_pingHost (batch : list string) :
  Promise_all (map (fun ip => pingHost env ip (Some timeout)) batch)
  = Normal (map (probe env (Some timeout)) batch).
Proof.
  induction batch as [|x batch IH]; simpl; [reflexivity|].
  now rewrite pingHost_spec, IH.
Qed.

(** With a positive batch size the loop probes every address, and the
    results keep the order of the addresses. *)
Lemma json_loop_spec (b : Z) :
  0 < b ->
  forall (fuel : nat) (i : Z) (results : list PingResult),
  0 <= i ->
  (Z.to_nat (Z.of_nat (List.length ips) - i) < fuel)%nat ->
  json_loop fuel env ips timeout b i results
  = Normal (results ++ map (probe env (Some timeout)) (skipn (Z.to_nat i) ips)).
Proof.
  intros Hb. induction fuel as [|fuel IH]; intros i results Hi Hfuel; [lia|].
  simpl json_loop. destruct (i <? Z.of_nat (List.length ips)) eqn:E.
  - apply Z.ltb_lt in E.
    rewrite slice_forward by lia. rewrite Promise_all_pingHost. cbn [bind].
    rewrite IH by lia. f_equal. rewrite <- app_assoc, <- map_app. do 2 f_equal.
    set (m := (Z.to_nat (Z.min (i + b) (Z.of_nat (List.length ips))) - Z.to_nat i)%nat).
    rewrite <- (firstn_skipn m (skipn (Z.to_nat i) ips)) at 2. f_equal.
    rewrite skipn_skipn.
    destruct (Z_lt_le_dec (i + b) (Z.of_nat (List.length ips))) as [Hin|Hout].
    + f_equal. lia.
    + rewrite !skipn_all2; [reflexivity | lia | lia].
  - apply Z.ltb_ge in E. rewrite skipn_all2 by lia. simpl. now rewrite app_nil_r.
Qed.

End JsonLoop.
End ScanFacts.
(** *** The shape of a sequential trace *)

Module TraceFacts.
Import JS PingServer Spec ScanFacts.

Section Trace.
Variable env : Environment.
Variable total : Z.
Variable timeout : option Z.

Lemma events_app (t1 t2 : list action) : events (t1 ++ t2) = events t1 ++ events t2.
Proof.
  induction t1 as [|a t1 IH]; simpl; [reflexivity|].
  destruct a; simpl; now rewrite IH.
Qed.

Lemma result_events_app (e1 e2 : list ScanEvent) :
  result_events (e1 ++ e2) = result_events e1 ++ result_events e2.
Proof.
  induction e1 as [|e e1 IH]; simpl; [reflexivity|].
  destruct e; simpl; now rewrite IH.
Qed.

Lemma complete_events_app (e1 e2 : list ScanEvent) :
  complete_events (e1 ++ e2) = complete_events e1 ++ complete_events e2.
Proof.
  induction e1 as [|e e1 IH]; simpl; [reflexivity|].
  destruct e; simpl; now rewrite IH.
Qed.

Lemma outstanding_app (t1 t2 : list action) :
  outstanding (t1 ++ t2) = outstanding t1 + outstanding t2.
Proof.
  induction t1 as [|a t1 IH]; simpl; [reflexivity|].
  destruct a; rewrite IH; lia.
Qed.

Lemma sequential_results (l : list string) : forall k : nat,
  result_events (events (sequential env total timeout k l)) = map (probe env timeout) l.
Proof.
  induction l as [|x l IH]; intros k; simpl; [reflexivity|]. now rewrite IH.
Qed.

Lemma sequential_no_complete (l : list string) : forall k : nat,
  complete_events (events (sequential env total timeout k l)) = [].
Proof.
  induction l as [|x l IH]; intros k; simpl; [reflexivity|]. apply IH.
Qed.

Lemma sequential_outstanding (l : list string) : forall k : nat,
  outstanding (sequential env total timeout k l) = 0.
Proof.
  induction l as [|x l IH]; intros k; simpl; [reflexivity|]. rewrite IH. lia.
Qed.




End Trace.

(** *** Sorting by a key of the address *)

Lemma insert_sorted_map (f : string -> PingResult) :
  (forall x, ip (f x) = x) ->
  forall (x : string) (l : list string),
  insert_sorted compareFn (f x) (map f l) = map f (insert_sorted compareIp x l).
Proof.
  intros Hf x l. induction l as [|y l IH]; simpl; [reflexivity|].
  unfold keeps_order, compareFn, lastOctet. rewrite !Hf.
  fold (compareIp x y). fold (keeps_order compareIp x y).
  destruct (keeps_order compareIp x y); simpl; [reflexivity|].
  f_equal. apply IH.
Qed.

(** The sort of the results moves them as the comparison of their
    addresses says. *)
Lemma sort_map (f : string -> PingResult) :
  (forall x, ip (f x) = x) ->
  forall l : list string,
  sort compareFn (map f l) = map f (sort compareIp l).
Proof.
  intros Hf l. induction l as [|x l IH]; simpl; [reflexivity|].
  now rewrite IH, insert_sorted_map.
Qed.

End TraceFacts.
(* ================================================================= *)
(** ** The properties of the specification *)
(* ================================================================= *)

Import JS PingServer Spec.
Import JSFacts Int32Facts ExpandFacts ScanFacts TraceFacts.

(** *** The probe *)

(** C7. The probe never raises: whatever the address, the timeout and the
    way the [ping] command ends (spawn failure, failure of its status, a
    failing exit status), [pingHost] returns a result for the address it
    was given. The status is [active] exactly when the command exits
    successfully, and the response time is present exactly when the
    status is [active]. *)
Theorem pingHost_never_raises :
  forall (env : Environment) (ip : string) (timeout : option Z),
  exists r : PingResult,
    pingHost env ip timeout = Normal r /\
    PingServer.ip r = ip /\
    method r = icmp /\
    (status r = active <->
       exists elapsed,
         ping env ["-c"; "1"; "-W"; String_of timeout; ip]%string = Exits true elapsed) /\
    (status r = inactive <-> responseTime r = None) /\
    (status r = active <-> exists ms, responseTime r = Some ms).
Proof.
  intros env ip timeout. exists (probe env timeout ip).
  split; [apply pingHost_spec|].
  unfold probe.
  destruct (ping env _) as [| |[] elapsed]; simpl;
    repeat split; try reflexivity; try discriminate;
    try (intros [x Hx]; discriminate); try (intros _; eauto).
Qed.

(** *** Address expansion *)

Lemma wrap32_addr (a b c d : Z) :
  octet a -> octet b -> octet c -> octet d ->
  wrap32 (addr a b c d)
  = if a <? 128 then addr a b c d else addr a b c d - 2 ^ 32.
Proof.
  unfold octet, addr. intros Ha Hb Hc Hd.
  destruct (a <? 128) eqn:E; reflect_comparisons.
  - apply wrap32_small. lia.
  - rewrite <- (wrap32_small (a * 2 ^ 24 + b * 2 ^ 16 + c * 2 ^ 8 + d - 2 ^ 32)) by lia.
    apply wrap32_congr.
    replace (a * 2 ^ 24 + b * 2 ^ 16 + c * 2 ^ 8 + d - 2 ^ 32)
      with (a * 2 ^ 24 + b * 2 ^ 16 + c * 2 ^ 8 + d + (-1) * 2 ^ 32) by ring.
    now rewrite Z.mod_add by lia.
Qed.

Lemma zrange_NoDup (n : nat) : forall i, NoDup (zrange i n).
Proof.
  induction n as [|n IH]; intros i; simpl; constructor.
  - rewrite zrange_In. lia.
  - apply IH.
Qed.

(** The addresses written for consecutive numbers have consecutive
    values, as long as the values stay below [2^32]. *)
Lemma values_of_range (n : nat) : forall x y : Z,
  x mod 2 ^ 32 = y -> y + Z.of_nat n <= 2 ^ 32 ->
  map ipValue (map numToIp (zrange x n)) = zrange y n.
Proof.
  induction n as [|n IH]; intros x y Hxy Hn; simpl; [reflexivity|].
  assert (Hx : 0 <= x mod 2 ^ 32 < 2 ^ 32) by (apply Z.mod_pos_bound; lia).
  rewrite ipValue_numToIp, Hxy. f_equal.
  destruct n as [|n]; [reflexivity|]. apply IH; [|lia].
  rewrite <- Zplus_mod_idemp_l, Hxy. apply Z.mod_small. lia.
Qed.

(** A well-formed range whose endpoints lie in the same half of the
    address space (both below 128.0.0.0, or both from it on) expands to
    the [end - start + 1] addresses from start to end, in ascending
    order of value. *)
Theorem range_within_half (a b c d e f g h : Z) :
  octet a -> octet b -> octet c -> octet d ->
  octet e -> octet f -> octet g -> octet h ->
  (a < 128 <-> e < 128) ->
  addr a b c d <= addr e f g h ->
  exists ips,
    parseIPRange (dotted a b c d ++ "-" ++ dotted e f g h) = Normal ips /\
    Z.of_nat (List.length ips) = addr e f g h - addr a b c d + 1 /\
    map ipValue ips
    = zrange (addr a b c d) (Z.to_nat (addr e f g h - addr a b c d + 1)) /\
    ascending (map ipValue ips) /\
    NoDup ips.
Proof.
  intros Ha Hb Hc Hd He Hf Hg Hh [Hhalf1 Hhalf2] Hle.
  pose proof (addr_range a b c d Ha Hb Hc Hd) as Rs.
  pose proof (addr_range e f g h He Hf Hg Hh) as Re.
  rewrite parseIPRange_dotted_range by assumption. cbv zeta.
  rewrite !wrap32_addr by assumption.
  assert (Hs : (a < 128 -> addr a b c d < 2 ^ 31) /\ (128 <= a -> 2 ^ 31 <= addr a b c d))
    by (unfold addr, octet in *; lia).
  assert (Ht : (e < 128 -> addr e f g h < 2 ^ 31) /\ (128 <= e -> 2 ^ 31 <= addr e f g h))
    by (unfold addr, octet in *; lia).
  set (s := addr a b c d) in *. set (t := addr e f g h) in *.
  assert (Hdiff : (if e <? 128 then t else t - 2 ^ 32)
                  - (if a <? 128 then s else s - 2 ^ 32) + 1 = t - s + 1).
  { destruct (a <? 128) eqn:A, (e <? 128) eqn:E; reflect_comparisons; lia. }
  rewrite Hdiff.
  destruct (t - s + 1 <? 2 ^ 32) eqn:L; [|apply Z.ltb_ge in L; lia].
  eexists. split; [reflexivity|].
  assert (Hvals : map ipValue
                    (map numToIp (zrange (if a <? 128 then s else s - 2 ^ 32)
                                         (Z.to_nat (t - s + 1))))
                  = zrange s (Z.to_nat (t - s + 1))).
  { apply values_of_range; [|lia].
    destruct (a <? 128); [apply Z.mod_small; lia|].
    replace (s - 2 ^ 32) with (s + (-1) * 2 ^ 32) by ring.
    rewrite Z.mod_add by lia. apply Z.mod_small. lia. }
  split; [rewrite length_map, zrange_length; lia|].
  split; [exact Hvals|].
  split; [rewrite Hvals; apply zrange_ascending|].
  apply (NoDup_map_inv ipValue). rewrite Hvals. apply zrange_NoDup.
Qed.

(** A well-formed range that crosses 128.0.0.0 expands to nothing: the
    packed start is positive and the packed end negative, so the loop
    does not run. *)
Theorem range_across_half (a b c d e f g h : Z) :
  octet a -> octet b -> octet c -> octet d ->
  octet e -> octet f -> octet g -> octet h ->
  a < 128 <= e ->
  parseIPRange (dotted a b c d ++ "-" ++ dotted e f g h) = Normal [].
Proof.
  intros Ha Hb Hc Hd He Hf Hg Hh Hcross.
  pose proof (addr_range a b c d Ha Hb Hc Hd) as Rs.
  pose proof (addr_range e f g h He Hf Hg Hh) as Re.
  rewrite parseIPRange_dotted_range by assumption. cbv zeta.
  rewrite !wrap32_addr by assumption.
  destruct (a <? 128) eqn:A; [|apply Z.ltb_ge in A; lia].
  destruct (e <? 128) eqn:E; [apply Z.ltb_lt in E; lia|].
  assert (Hneg : addr e f g h - 2 ^ 32 - addr a b c d + 1 <= 0) by lia.
  destruct (_ <? 2 ^ 32) eqn:L; [|apply Z.ltb_ge in L; lia].
  replace (Z.to_nat (addr e f g h - 2 ^ 32 - addr a b c d + 1)) with O by lia.
  reflexivity.
Qed.

(** C4. At the range 127.255.255.254-128.0.0.1, which is well formed and
    has four addresses, the expansion returns no address at all. *)
Theorem range_across_128_is_empty :
  parseIPRange "127.255.255.254-128.0.0.1" = Normal [].
Proof. vm_compute. reflexivity. Qed.

(** C3. At the prefix 10.1.10.5/32 the expansion returns no address,
    where one address is expected. *)
Theorem prefix_32_is_empty :
  parseIPRange "10.1.10.5/32" = Normal [].
Proof. vm_compute. reflexivity. Qed.

(** Every input is expanded to some list, but for the one kind of range
    that asks for [2^32] addresses: there the array cannot hold them. *)
Lemma parseIPRange_outcome (input : string) :
  (exists ips, parseIPRange input = Normal ips) \/
  (parseIPRange input = Throw RangeError /\
   includes "-" input = true /\
   exists startIp endIp rest,
     map trim (split "-" input) = startIp :: endIp :: rest /\
     packOctets (map Number (split "." startIp)) = - 2 ^ 31 /\
     packOctets (map Number (split "." endIp)) = 2 ^ 31 - 1).
Proof.
  destruct (includes "-" input) eqn:Hdash.
  - destruct (split_trimmed "-" input Hdash) as (startIp & endIp & rest & Hsplit).
    rewrite (parseIPRange_dash input startIp endIp rest Hdash Hsplit). cbv zeta.
    pose proof (packOctets_range (map Number (split "." startIp))) as Hs.
    pose proof (packOctets_range (map Number (split "." endIp))) as He.
    destruct (_ <? 2 ^ 32) eqn:L; [left; eauto|].
    apply Z.ltb_ge in L. right. split; [reflexivity|]. split; [reflexivity|].
    exists startIp, endIp, rest. repeat split; [assumption|lia|lia].
  - left. destruct (includes "/" input) eqn:Hslash.
    + destruct (split_includes "/" input Hslash) as (baseIp & cidrBits & rest & Hsplit).
      rewrite (parseIPRange_slash input baseIp cidrBits rest Hdash Hslash Hsplit).
      destruct (parseInt cidrBits 0) as [bits|]; [|eauto].
      destruct ((24 <=? bits) && (bits <=? 32)); eauto.
    + rewrite parseIPRange_plain by assumption. eauto.
Qed.

(** A range written backwards, both endpoints in the same half of the
    address space, expands to nothing. *)
Lemma range_reversed (a b c d e f g h : Z) :
  octet a -> octet b -> octet c -> octet d ->
  octet e -> octet f -> octet g -> octet h ->
  (a < 128 <-> e < 128) ->
  addr e f g h < addr a b c d ->
  parseIPRange (dotted a b c d ++ "-" ++ dotted e f g h) = Normal [].
Proof.
  intros Ha Hb Hc Hd He Hf Hg Hh [Hhalf1 Hhalf2] Hlt.
  pose proof (addr_range a b c d Ha Hb Hc Hd) as Rs.
  pose proof (addr_range e f g h He Hf Hg Hh) as Re.
  rewrite parseIPRange_dotted_range by assumption. cbv zeta.
  rewrite !wrap32_addr by assumption.
  assert (Hneg : (if e <? 128 then addr e f g h else addr e f g h - 2 ^ 32)
                 - (if a <? 128 then addr a b c d else addr a b c d - 2 ^ 32) + 1 <= 0).
  { destruct (a <? 128) eqn:A, (e <? 128) eqn:E; reflect_comparisons; lia. }
  destruct (_ <? 2 ^ 32) eqn:L; [|apply Z.ltb_ge in L; lia].
  now replace (Z.to_nat _) with O by lia.
Qed.


(** *** Address expansion in a bounded number of rounds *)

Import Further Runtime.























(** *** How far the streaming loop has come *)



Section Stalled.
Variable env : Environment.
Variable ips : list string.
Variable b : Z.
Hypothesis some_address : ips <> [].
Hypothesis not_positive : b <= 0.

Lemma some_length : 0 < Z.of_nat (List.length ips).
Proof. destruct ips; [congruence | simpl; lia]. Qed.

Lemma slice_idle (i : Z) :
  i <= 0 -> i < 0 \/ b = 0 -> slice ips (Some i) (Some (i + b)) = [].
Proof.
  intros Hi Hcase. pose proof some_length as Hlen.
  unfold slice, relative_index.
  destruct (i <? 0) eqn:E1, (i + b <? 0) eqn:E2; reflect_comparisons; try lia.
  - replace (Z.to_nat (Z.max (Z.of_nat (List.length ips) + (i + b)) 0
                       - Z.max (Z.of_nat (List.length ips) + i) 0)) with O by lia.
    reflexivity.
  - replace (Z.to_nat (Z.min (i + b) (Z.of_nat (List.length ips))
                       - Z.min i (Z.of_nat (List.length ips)))) with O by lia.
    reflexivity.
Qed.

Lemma slice_first : slice ips (Some 0) (Some b) = firstn (first_window ips b) ips.
Proof.
  pose proof some_length as Hlen.
  unfold slice, relative_index, first_window.
  change (0 <? 0) with false. cbv iota.
  rewrite (Z.min_l 0 (Z.of_nat (List.length ips))) by lia.
  change (Z.to_nat 0) with O. rewrite skipn_0.
  destruct (b <? 0) eqn:E; reflect_comparisons.
  - f_equal. lia.
  - replace (Z.to_nat (Z.min b (Z.of_nat (List.length ips)) - 0)) with O by lia.
    reflexivity.
Qed.

Lemma stream_loop_stalled (timeout : option Z) :
  forall (fuel : nat) (i : Z) (st : scan_state),
  i <= 0 -> i < 0 \/ b = 0 ->
  stream_loop fuel env ips timeout (Some b) (Some i) st = Normal (false, st).
Proof.
  pose proof some_length as Hlen.
  induction fuel as [|fuel IH]; intros i st Hi Hcase; [reflexivity|].
  simpl stream_loop. unfold lt.
  destruct (i <? Z.of_nat (List.length ips)) eqn:E; reflect_comparisons; [|lia].
  cbn [add]. rewrite slice_idle by assumption. cbn [for_of bind].
  apply IH; lia.
Qed.

Lemma stream_loop_first (timeout : option Z) (fuel : nat) (st : scan_state) :
  stream_loop (S fuel) env ips timeout (Some b) (Some 0) st
  = Normal (false, extend env (Z.of_nat (List.length ips)) timeout st
                     (firstn (first_window ips b) ips)).
Proof.
  pose proof some_length as Hlen.
  simpl stream_loop. unfold lt.
  destruct (0 <? Z.of_nat (List.length ips)) eqn:E; reflect_comparisons; [|lia].
  change (add (Some 0) (Some b)) with (Some b).
  rewrite slice_first, for_of_stream. cbn [bind].
  apply stream_loop_stalled; lia.
Qed.

Lemma json_loop_stalled (timeout : Z) :
  forall (fuel : nat) (i : Z) (results : list PingResult),
  i <= 0 ->
  json_loop fuel env ips timeout b i results = OutOfFuel.
Proof.
  pose proof some_length as Hlen.
  induction fuel as [|fuel IH]; intros i results Hi; [reflexivity|].
  simpl json_loop.
  destruct (i <? Z.of_nat (List.length ips)) eqn:E; reflect_comparisons; [|lia].
  rewrite Promise_all_pingHost. cbn [bind]. apply IH. lia.
Qed.

End Stalled.

Section Windows.
Variable env : Environment.
Variable timeout : option Z.
Variable ips : list string.



End Windows.




(** *** The streaming scan *)

(** The run of the streaming handler on a target that expands to [ips]:
    the addresses of a prefix of [ips], one at a time, then the summary
    if the loop is over. *)
Lemma handleStreamingScan_run (fuel : nat) (env : Environment)
  (request : StreamRequest) (target : string) (ips : list string) :
  q_target request = Some target -> target <> ""%string ->
  parseIPRange target = Normal ips ->
  let timeout := parseInt (or_else (q_timeout request) "2") 0 in
  let batchSize := parseInt (or_else (q_batchSize request) "10") 0 in
  exists (fin : bool) (k : nat),
    (k <= List.length ips)%nat /\
    handleStreamingScan fuel env request
    = Normal (EventStream
        {| actions :=
             sequential env (Z.of_nat (List.length ips)) timeout 0 (firstn k ips)
             ++ (if fin
                 then [Enqueue (complete
                         (summary_of env target (map (probe env timeout) (firstn k ips))));
                       Close]
                 else []);
           closed := fin |}) /\
    (forall b, batchSize = Some b -> 0 < b ->
       (fin = true -> k = List.length ips) /\
       ((List.length ips < fuel)%nat -> fin = true)).
Proof.
  intros Htarget Hne Hips timeout batchSize.
  destruct (stream_loop_shape env timeout ips batchSize fuel
              {| st_results := []; st_trace := [] |})
    as (fin & k & Hk & Hrun & Hfin).
  exists fin, k. split; [assumption|]. split; [|assumption].
  unfold handleStreamingScan. rewrite Htarget.
  destruct target as [|c target]; [congruence|].
  rewrite Hips. cbn [bind]. unfold start.
  fold timeout. fold batchSize. rewrite Hrun. cbn [bind].
  unfold extend. cbn [st_results st_trace app List.length].
  destruct fin; [|now rewrite app_nil_r].
  reflexivity.
Qed.






(** *** A consumer that leaves *)

Section Consumer.
Variable env : Environment.
Variable size : Z.
Variable timeout : option Z.

Lemma calls_app (t1 t2 : list action) : calls (t1 ++ t2) = (calls t1 + calls t2)%nat.
Proof.
  induction t1 as [|a t1 IH]; simpl; [reflexivity|].
  destruct a; simpl; now rewrite IH.
Qed.

Lemma calls_extend (st : scan_state) (l : list string) :
  calls (st_trace (extend env size timeout st l))
  = (calls (st_trace st) + 2 * List.length l)%nat.
Proof.
  unfold extend. cbn [st_trace]. rewrite calls_app. f_equal.
  generalize (List.length (st_results st)).
  induction l as [|x l IH]; intros k; simpl; [reflexivity|].
  rewrite IH. lia.
Qed.

Lemma extend_one (st : scan_state) (ip : string) :
  extend env size timeout st [ip]
  = {| st_results := st_results st ++ [probe env timeout ip];
       st_trace := st_trace st
                   ++ [ Enqueue (progress {| current := Z.of_nat (List.length (st_results st)) + 1;
                                             total := size; currentIp := ip;
                                             progress_results := [] |});
                        ProbeStart ip timeout;
                        ProbeEnd ip;
                        Enqueue (result (probe env timeout ip)) ] |}.
Proof. reflexivity. Qed.

(** One address, for a consumer that takes two more calls, one more
    call, or none. *)
Lemma stream_probe_to_through (c : consumer) (st : scan_state) (ip : string) :
  match c with
  | None => True
  | Some m => (calls (st_trace st) + 2 <= m)%nat
  end ->
  stream_probe_to c env size timeout ip st
  = (extend env size timeout st [ip], Normal tt).
Proof.
  intros Hc. rewrite extend_one.
  unfold stream_probe_to, and_then, results_length, enqueue, log, await, results_push.
  assert (H1 : listening c st = true).
  { destruct c as [m|]; [|reflexivity]. simpl. apply Nat.ltb_lt. lia. }
  rewrite H1. cbn [st_results st_trace]. rewrite pingHost_spec.
  set (st2 := {| st_results := _; st_trace := _ |}).
  assert (H2 : listening c st2 = true).
  { destruct c as [m|]; [|reflexivity]. simpl.
    rewrite !calls_app. simpl. apply Nat.ltb_lt. lia. }
  rewrite H2. unfold st2. cbn [st_results st_trace].
  rewrite <- !app_assoc. reflexivity.
Qed.

Lemma stream_probe_to_refused (m : nat) (st : scan_state) (ip : string) :
  calls (st_trace st) = m ->
  stream_probe_to (Some m) env size timeout ip st = (st, Throw TypeError).
Proof.
  intros Hm.
  unfold stream_probe_to, and_then, results_length, enqueue.
  assert (H1 : listening (Some m) st = false) by (simpl; apply Nat.ltb_ge; lia).
  now rewrite H1.
Qed.

Lemma stream_probe_to_interrupted (m : nat) (st : scan_state) (ip : string) :
  (calls (st_trace st) + 1)%nat = m ->
  stream_probe_to (Some m) env size timeout ip st
  = (interrupted env size timeout st ip, Throw TypeError).
Proof.
  intros Hm.
  unfold stream_probe_to, and_then, results_length, enqueue, log, await, results_push.
  assert (H1 : listening (Some m) st = true) by (simpl; apply Nat.ltb_lt; lia).
  rewrite H1. cbn [st_results st_trace]. rewrite pingHost_spec.
  set (st2 := {| st_results := _; st_trace := _ |}).
  assert (H2 : listening (Some m) st2 = false).
  { simpl. rewrite !calls_app. simpl. apply Nat.ltb_ge. lia. }
  rewrite H2. unfold st2, interrupted. rewrite <- !app_assoc. reflexivity.
Qed.

(** A window that the consumer takes whole. *)
Lemma for_each_through (c : consumer) (l : list string) : forall st : scan_state,
  match c with
  | None => True
  | Some m => (calls (st_trace st) + 2 * List.length l <= m)%nat
  end ->
  for_each l (stream_probe_to c env size timeout) st
  = (extend env size timeout st l, Normal tt).
Proof.
  induction l as [|x l IH]; intros st Hc.
  - simpl. unfold ret. now rewrite extend_nil.
  - cbn [for_each]. unfold and_then.
    rewrite stream_probe_to_through
      by (destruct c as [m|]; [simpl in Hc; lia | exact I]).
    rewrite IH.
    + now rewrite extend_app.
    + destruct c as [m|]; [|exact I]. rewrite calls_extend. simpl in *. lia.
Qed.

(** A window during which the consumer leaves: after the results of its
    first [j] addresses. *)
Lemma for_each_cut (mid : bool) (l : list string) :
  forall (j : nat) (st : scan_state),
  (j < List.length l)%nat ->
  for_each l
    (stream_probe_to (Some (calls (st_trace st) + 2 * j + (if mid then 1 else 0))%nat)
       env size timeout) st
  = (halted env size timeout st l j mid, Throw TypeError).
Proof.
  induction l as [|x l IH]; intros j st Hj; [simpl in Hj; lia|].
  cbn [for_each]. unfold and_then. destruct j as [|j].
  - unfold halted. cbn [firstn nth_error]. rewrite extend_nil. destruct mid.
    + rewrite stream_probe_to_interrupted by lia. reflexivity.
    + rewrite stream_probe_to_refused by lia. reflexivity.
  - rewrite stream_probe_to_through by (simpl; lia).
    specialize (IH j (extend env size timeout st [x])).
    rewrite calls_extend in IH. cbn [List.length] in IH.
    replace (calls (st_trace st) + 2 * 1 + 2 * j + (if mid then 1 else 0))%nat
      with (calls (st_trace st) + 2 * S j + (if mid then 1 else 0))%nat in IH by lia.
    rewrite IH by (simpl in Hj; lia).
    unfold halted. cbn [firstn nth_error]. rewrite !extend_app. reflexivity.
Qed.

End Consumer.

Section ConsumerLoop.
Variable env : Environment.
Variable timeout : option Z.
Variable ips : list string.

(** With a consumer that stays, the loop is the loop of the handler. *)
Lemma stream_loop_to_stays (batchSize : option Z) :
  forall (fuel : nat) (i : option Z) (st : scan_state),
  exists (fin : bool) (st' : scan_state),
    stream_loop fuel env ips timeout batchSize i st = Normal (fin, st') /\
    stream_loop_to None fuel env ips timeout batchSize i st = (st', Normal fin).
Proof.
  induction fuel as [|fuel IH]; intros i st.
  - exists false, st. split; reflexivity.
  - cbn [stream_loop stream_loop_to].
    destruct (lt i (Some (Z.of_nat (List.length ips)))).
    + rewrite for_of_stream. cbn [bind]. unfold and_then.
      rewrite for_each_through by exact I.
      apply IH.
    + exists true, st. split; reflexivity.
Qed.

(** With a positive batch size, a consumer that leaves after the results
    of [k] addresses, and rounds enough, the loop ends at the call that
    fails. *)
Lemma stream_loop_to_cut (b : Z) (st0 : scan_state) (k : nat) (mid : bool) :
  0 < b -> (k < List.length ips)%nat ->
  forall (fuel : nat) (i : Z),
  0 <= i <= Z.of_nat k ->
  (Z.to_nat (Z.of_nat k - i) < fuel)%nat ->
  stream_loop_to (Some (calls (st_trace st0) + 2 * k + (if mid then 1 else 0))%nat)
    fuel env ips timeout (Some b) (Some i)
    (extend env (Z.of_nat (List.length ips)) timeout st0 (firstn (Z.to_nat i) ips))
  = (halted env (Z.of_nat (List.length ips)) timeout st0 ips k mid, Throw TypeError).
Proof.
  intros Hb Hk. induction fuel as [|fuel IH]; intros i Hi Hfuel; [lia|].
  cbn [stream_loop_to]. unfold lt.
  destruct (i <? Z.of_nat (List.length ips)) eqn:E; reflect_comparisons; [|lia].
  cbn [add]. rewrite slice_forward by lia. unfold and_then.
  set (st := extend env (Z.of_nat (List.length ips)) timeout st0 (firstn (Z.to_nat i) ips)).
  set (w := (Z.to_nat (Z.min (i + b) (Z.of_nat (List.length ips))) - Z.to_nat i)%nat).
  assert (Hcalls : calls (st_trace st) = (calls (st_trace st0) + 2 * Z.to_nat i)%nat).
  { unfold st. rewrite calls_extend, length_firstn. lia. }
  assert (Hw : List.length (firstn w (skipn (Z.to_nat i) ips)) = w).
  { rewrite length_firstn, length_skipn. unfold w. lia. }
  destruct (Z_lt_le_dec (Z.of_nat k) (i + b)) as [Hin|Hout].
  - pose proof (for_each_cut env (Z.of_nat (List.length ips)) timeout mid
                  (firstn w (skipn (Z.to_nat i) ips)) (k - Z.to_nat i) st) as Hcut.
    rewrite Hcalls in Hcut.
    replace (calls (st_trace st0) + 2 * Z.to_nat i + 2 * (k - Z.to_nat i)
             + (if mid then 1 else 0))%nat
      with (calls (st_trace st0) + 2 * k + (if mid then 1 else 0))%nat in Hcut by lia.
    rewrite Hcut by (rewrite Hw; unfold w; lia).
    f_equal. unfold halted, st.
    rewrite extend_app, firstn_firstn.
    replace (Nat.min (k - Z.to_nat i) w) with (k - Z.to_nat i)%nat by (unfold w; lia).
    rewrite firstn_extend.
    replace (Z.to_nat i + (k - Z.to_nat i))%nat with k by lia.
    rewrite nth_error_firstn.
    replace (k - Z.to_nat i <? w)%nat with true
      by (symmetry; apply Nat.ltb_lt; unfold w; lia).
    rewrite nth_error_skipn.
    replace (Z.to_nat i + (k - Z.to_nat i))%nat with k by lia.
    reflexivity.
  - rewrite for_each_through by (rewrite Hcalls, Hw; unfold w; lia).
    unfold st. rewrite extend_app, firstn_extend.
    replace (Z.to_nat i + w)%nat with (Z.to_nat (i + b)) by (unfold w; lia).
    apply IH; lia.
Qed.

End ConsumerLoop.

(** With a consumer that stays to the end, [handleStreamingScan_to] is
    [handleStreamingScan], and the promise of [start] is fulfilled. *)
Lemma handleStreamingScan_to_stays (fuel : nat) (env : Environment)
  (request : StreamRequest) :
  handleStreamingScan_to None fuel env request
  = (r <- handleStreamingScan fuel env request ;; Normal (r, None)).
Proof.
  unfold handleStreamingScan_to, handleStreamingScan.
  destruct (q_target request) as [[|c target]|]; try reflexivity.
  destruct (parseIPRange (String c target)) as [ips| |]; try reflexivity.
  cbn [bind]. unfold start_to, start, and_then.
  destruct (stream_loop_to_stays env (parseInt (or_else (q_timeout request) "2") 0) ips
              (parseInt (or_else (q_batchSize request) "10") 0) fuel (Some 0)
              {| st_results := []; st_trace := [] |}) as (fin & st' & H1 & H2).
  rewrite H1, H2. cbn [bind]. destruct fin; [|reflexivity].
  unfold the_results, enqueue, close, log, ret. cbn [listening st_results st_trace rejection].
  rewrite <- app_assoc. reflexivity.
Qed.

(** The run of the streaming handler for a consumer that leaves after
    the results of [k] addresses, with a positive batch size and rounds
    enough. *)
Lemma handleStreamingScan_to_leaves (fuel : nat) (env : Environment)
  (request : StreamRequest) (target : string) (ips : list string) (b : Z)
  (k : nat) (mid : bool) :
  q_target request = Some target -> target <> ""%string ->
  parseIPRange target = Normal ips ->
  parseInt (or_else (q_batchSize request) "10") 0 = Some b -> 0 < b ->
  (k < List.length ips)%nat -> (List.length ips < fuel)%nat ->
  handleStreamingScan_to (Some (2 * k + (if mid then 1 else 0))%nat) fuel env request
  = Normal (EventStream
      {| actions :=
           st_trace (halted env (Z.of_nat (List.length ips))
                       (parseInt (or_else (q_timeout request) "2") 0)
                       {| st_results := []; st_trace := [] |} ips k mid);
         closed := false |},
      Some TypeError).
Proof.
  intros Htarget Hne Hips Hbatch Hb Hk Hfuel.
  unfold handleStreamingScan_to. rewrite Htarget.
  destruct target as [|c target]; [congruence|].
  rewrite Hips, Hbatch. cbn [bind]. unfold start_to, and_then.
  pose proof (stream_loop_to_cut env (parseInt (or_else (q_timeout request) "2") 0) ips b
                {| st_results := []; st_trace := [] |} k mid Hb Hk fuel 0) as Hcut.
  cbn [st_trace calls Nat.add] in Hcut. change (Z.to_nat 0) with O in Hcut.
  cbn [firstn] in Hcut. rewrite extend_nil in Hcut.
  rewrite Hcut by lia. reflexivity.
Qed.

Lemma sequential_no_close (env : Environment) (n : Z) (timeout : option Z)
  (l : list string) : forall k : nat, ~ In Close (sequential env n timeout k l).
Proof.
  induction l as [|x l IH]; intros k Hin; [contradiction|].
  simpl in Hin. destruct Hin as [Hin|[Hin|[Hin|[Hin|Hin]]]]; try discriminate.
  now apply (IH (S k)).
Qed.

Lemma sequential_probes (env : Environment) (n : Z) (timeout : option Z)
  (l : list string) : forall (k : nat) (x : string) (t : option Z),
  In (ProbeStart x t) (sequential env n timeout k l) -> In x l.
Proof.
  induction l as [|y l IH]; intros k x t Hin; [contradiction|].
  simpl in Hin. destruct Hin as [Hin|[Hin|[Hin|[Hin|Hin]]]]; try discriminate.
  - left. congruence.
  - right. exact (IH (S k) x t Hin).
Qed.

(** C6, as the code has it. The handler has no cancel handler, no abort
    signal and no ScanAborted. When the consumer leaves after the
    results of [k] of the addresses, before the next address is
    announced or while it is probed, the scan stops at the first call on
    the controller that fails: the stream holds the events of the first
    [k] addresses, no further [result] and no [complete] event, and is
    not closed; an address that was being probed has been probed to the
    end, and no probe was started after it. Nothing is raised to the
    caller: the handler has returned its response, and the promise of
    [start] is rejected with the TypeError of the call that failed. With
    a consumer that stays, the handler is [handleStreamingScan]. *)
Theorem disconnect_stops_the_scan :
  forall (fuel : nat) (env : Environment) (request : StreamRequest)
         (target : string) (ips : list string) (b : Z) (k : nat) (mid : bool),
  q_target request = Some target -> target <> ""%string ->
  parseIPRange target = Normal ips ->
  parseInt (or_else (q_batchSize request) "10") 0 = Some b -> 0 < b ->
  (k < List.length ips)%nat -> (List.length ips < fuel)%nat ->
  let timeout := parseInt (or_else (q_timeout request) "2") 0 in
  let n := Z.of_nat (List.length ips) in
  exists (run : StreamRun) (ip : string),
    nth_error ips k = Some ip /\
    handleStreamingScan_to (Some (2 * k + (if mid then 1 else 0))%nat) fuel env request
    = Normal (EventStream run, Some TypeError) /\
    closed run = false /\
    actions run
    = sequential env n timeout 0 (firstn k ips)
      ++ (if mid
          then [ Enqueue (progress {| current := Z.of_nat k + 1; total := n;
                                      currentIp := ip; progress_results := [] |});
                 ProbeStart ip timeout;
                 ProbeEnd ip ]
          else []) /\
    result_events (events (actions run)) = map (probe env timeout) (firstn k ips) /\
    complete_events (events (actions run)) = [] /\
    ~ In Close (actions run) /\
    (forall (x : string) (t : option Z),
       In (ProbeStart x t) (actions run) ->
       In x (firstn (if mid then S k else k) ips)) /\
    outstanding (actions run) = 0 /\
    handleStreamingScan_to None fuel env request
    = (r <- handleStreamingScan fuel env request ;; Normal (r, None)).
Proof.
  intros fuel env request target ips b k mid Htarget Hne Hips Hbatch Hb Hk Hfuel timeout n.
  destruct (nth_error ips k) as [ip|] eqn:Hip;
    [|apply nth_error_None in Hip; lia].
  assert (Hnext : firstn (S k) ips = firstn k ips ++ [ip]).
  { clear - Hip. revert k Hip. induction ips as [|y l IH]; intros k Hip.
    - destruct k; discriminate.
    - destruct k as [|k]; simpl in *; [congruence|]. f_equal. now apply IH. }
  eexists. exists ip. split; [reflexivity|].
  split; [now apply (handleStreamingScan_to_leaves fuel env request target ips b k mid)|].
  cbn [actions closed]. fold timeout. fold n.
  split; [reflexivity|].
  assert (Hactions :
    st_trace (halted env n timeout {| st_results := []; st_trace := [] |} ips k mid)
    = sequential env n timeout 0 (firstn k ips)
      ++ (if mid
          then [ Enqueue (progress {| current := Z.of_nat k + 1; total := n;
                                      currentIp := ip; progress_results := [] |});
                 ProbeStart ip timeout;
                 ProbeEnd ip ]
          else [])).
  { unfold halted. rewrite Hip. destruct mid.
    - unfold interrupted, extend. cbn [st_results st_trace app List.length].
      rewrite length_map, length_firstn.
      replace (Nat.min k (List.length ips)) with k by lia. reflexivity.
    - unfold extend. cbn [st_results st_trace app List.length].
      now rewrite app_nil_r. }
  rewrite Hactions. split; [reflexivity|].
  rewrite events_app, result_events_app, complete_events_app, outstanding_app.
  rewrite sequential_results, sequential_no_complete, sequential_outstanding.
  split; [destruct mid; simpl; now rewrite app_nil_r|].
  split; [now destruct mid|]. split; [|split; [|split]].
  - intros Hin. apply in_app_iff in Hin as [Hin|Hin].
    + now apply sequential_no_close in Hin.
    + destruct mid; simpl in Hin; [|contradiction].
      destruct Hin as [Hin|[Hin|[Hin|[]]]]; discriminate.
  - intros x t Hin. apply in_app_iff in Hin as [Hin|Hin].
    + apply sequential_probes in Hin. destruct mid; [|assumption].
      rewrite Hnext. apply in_app_iff. now left.
    + destruct mid; simpl in Hin; [|contradiction].
      destruct Hin as [Hin|[Hin|[Hin|[]]]]; try discriminate.
      rewrite Hnext. apply in_app_iff. right. left. congruence.
  - now destruct mid.
  - apply handleStreamingScan_to_stays.
Qed.

Lemma disconnect_stops_the_scan_witness :
  exists (run : StreamRun) (ip : string),
    nth_error ["10.1.10.1"; "10.1.10.2"; "10.1.10.3"]%string 1 = Some ip /\
    handleStreamingScan_to (Some 3%nat) 4 quiet
      {| q_target := Some "10.1.10.1-10.1.10.3"%string; q_timeout := None;
         q_batchSize := Some "2"%string |}
    = Normal (EventStream run, Some TypeError) /\
    closed run = false /\
    actions run
    = sequential quiet 3 (Some 2) 0 ["10.1.10.1"]%string
      ++ [ Enqueue (progress {| current := 2; total := 3;
                                currentIp := ip; progress_results := [] |});
           ProbeStart ip (Some 2);
           ProbeEnd ip ] /\
    result_events (events (actions run)) = map (probe quiet (Some 2)) ["10.1.10.1"]%string /\
    complete_events (events (actions run)) = [] /\
    ~ In Close (actions run) /\
    (forall (x : string) (t : option Z),
       In (ProbeStart x t) (actions run) -> In x ["10.1.10.1"; "10.1.10.2"]%string) /\
    outstanding (actions run) = 0 /\
    handleStreamingScan_to None 4 quiet
      {| q_target := Some "10.1.10.1-10.1.10.3"%string; q_timeout := None;
         q_batchSize := Some "2"%string |}
    = (r <- handleStreamingScan 4 quiet
              {| q_target := Some "10.1.10.1-10.1.10.3"%string; q_timeout := None;
                 q_batchSize := Some "2"%string |} ;;
       Normal (r, None)).
Proof.
  apply (disconnect_stops_the_scan 4 quiet
           {| q_target := Some "10.1.10.1-10.1.10.3"%string; q_timeout := None;
              q_batchSize := Some "2"%string |}
           "10.1.10.1-10.1.10.3" ["10.1.10.1"; "10.1.10.2"; "10.1.10.3"]%string
           2 1%nat true).
  - reflexivity.
  - discriminate.
  - vm_compute. reflexivity.
  - vm_compute. reflexivity.
  - lia.
  - simpl. lia.
  - simpl. lia.
Defined.

(** C6, as the specification has it, fails. The consumer of a scan of
    three addresses leaves while the second is probed: the third call on
    the controller (the announcement of the second address) is the last
    that it takes. The probe of the second address goes to its end, its
    result is not sent, the third address is not probed, and nothing is
    raised to the caller, who has the response: the promise of [start]
    is rejected with a TypeError, not with a ScanAborted. *)
Lemma disconnect_raises_nothing :
  handleStreamingScan_to (Some 3%nat) 4 quiet
    {| q_target := Some "10.1.10.1-10.1.10.3"%string; q_timeout := None;
       q_batchSize := None |}
  = Normal (EventStream
      {| actions :=
           [ Enqueue (progress {| current := 1; total := 3; currentIp := "10.1.10.1";
                                  progress_results := [] |});
             ProbeStart "10.1.10.1" (Some 2);
             ProbeEnd "10.1.10.1";
             Enqueue (result (probe quiet (Some 2) "10.1.10.1"));
             Enqueue (progress {| current := 2; total := 3; currentIp := "10.1.10.2";
                                  progress_results := [] |});
             ProbeStart "10.1.10.2" (Some 2);
             ProbeEnd "10.1.10.2" ];
         closed := false |},
      Some TypeError) /\
  ~ throws (handleStreamingScan_to (Some 3%nat) 4 quiet
              {| q_target := Some "10.1.10.1-10.1.10.3"%string; q_timeout := None;
                 q_batchSize := None |}).
Proof.
  assert (H : handleStreamingScan_to (Some 3%nat) 4 quiet
                {| q_target := Some "10.1.10.1-10.1.10.3"%string; q_timeout := None;
                   q_batchSize := None |}
              = Normal (EventStream
                  {| actions :=
                       [ Enqueue (progress {| current := 1; total := 3;
                                              currentIp := "10.1.10.1";
                                              progress_results := [] |});
                         ProbeStart "10.1.10.1" (Some 2);
                         ProbeEnd "10.1.10.1";
                         Enqueue (result (probe quiet (Some 2) "10.1.10.1"));
                         Enqueue (progress {| current := 2; total := 3;
                                              currentIp := "10.1.10.2";
                                              progress_results := [] |});
                         ProbeStart "10.1.10.2" (Some 2);
                         ProbeEnd "10.1.10.2" ];
                     closed := false |},
                  Some TypeError)) by (vm_compute; reflexivity).
  split; [exact H|]. intros [e He].
  pose proof (eq_trans (eq_sym H) He) as E. discriminate E.
Qed.


(** *** The JSON scan *)

(** The answer of the JSON handler on a target that expands to [ips],
    with a positive batch size and the fuel to finish. *)
Lemma handleJsonScan_run (fuel : nat) (env : Environment) (body : JsonBody)
  (target : string) (ips : list string) :
  b_target body = Some target -> target <> ""%string ->
  parseIPRange target = Normal ips ->
  0 < default (b_batchSize body) 10 ->
  (List.length ips < fuel)%nat ->
  let rs := map (probe env (Some (default (b_timeout body) 2))) ips in
  handleJsonScan fuel env body
  = Normal (JsonResponse
      {| success := true; target := target; scan_method := icmp;
         totalHosts := Z.of_nat (List.length rs);
         activeHosts := activeCount rs;
         scanDuration := clock env (List.length rs) - clock env 0;
         results := sort compareFn rs |}).
Proof.
  intros Htarget Hne Hips Hb Hfuel rs.
  unfold handleJsonScan. rewrite Htarget.
  destruct target as [|c target]; [congruence|].
  rewrite Hips. cbn [bind].
  rewrite json_loop_spec by (assumption || lia).
  cbn [bind]. change (Z.to_nat 0) with O. rewrite skipn_0. reflexivity.
Qed.

(** C1. At the range 10.1.9.250-10.1.10.5, whatever the hosts answer,
    the JSON handler returns the results sorted by last octet alone:
    10.1.10.0 to 10.1.10.5 come before 10.1.9.250 to 10.1.9.255, which
    is not the ascending order of the addresses. *)
Theorem json_scan_sorted_by_last_octet :
  forall env : Environment,
  exists s : Summary,
    handleJsonScan 13 env
      {| b_target := Some "10.1.9.250-10.1.10.5"%string;
         b_timeout := None; b_batchSize := None |}
    = Normal (JsonResponse s) /\
    map ip (results s)
    = ["10.1.10.0"; "10.1.10.1"; "10.1.10.2"; "10.1.10.3"; "10.1.10.4"; "10.1.10.5";
       "10.1.9.250"; "10.1.9.251"; "10.1.9.252"; "10.1.9.253"; "10.1.9.254";
       "10.1.9.255"]%string /\
    ~ ascending (map ipValue (map ip (results s))).
Proof.
  intros env.
  assert (Hips : parseIPRange "10.1.9.250-10.1.10.5"
                 = Normal ["10.1.9.250"; "10.1.9.251"; "10.1.9.252"; "10.1.9.253";
                           "10.1.9.254"; "10.1.9.255"; "10.1.10.0"; "10.1.10.1";
                           "10.1.10.2"; "10.1.10.3"; "10.1.10.4"; "10.1.10.5"]%string)
    by (vm_compute; reflexivity).
  pose proof (handleJsonScan_run 13 env
                {| b_target := Some "10.1.9.250-10.1.10.5"%string;
                   b_timeout := None; b_batchSize := None |}
                "10.1.9.250-10.1.10.5"%string _ eq_refl
                ltac:(discriminate) Hips eq_refl ltac:(simpl; lia)) as Hrun.
  cbv zeta in Hrun.
  eexists. split; [exact Hrun|].
  cbn [results].
  { rewrite (sort_map _ (probe_ip env _)), map_probe_ip.
    assert (Hsort : sort compareIp
                      ["10.1.9.250"; "10.1.9.251"; "10.1.9.252"; "10.1.9.253";
                       "10.1.9.254"; "10.1.9.255"; "10.1.10.0"; "10.1.10.1";
                       "10.1.10.2"; "10.1.10.3"; "10.1.10.4"; "10.1.10.5"]%string
                    = ["10.1.10.0"; "10.1.10.1"; "10.1.10.2"; "10.1.10.3"; "10.1.10.4";
                       "10.1.10.5"; "10.1.9.250"; "10.1.9.251"; "10.1.9.252";
                       "10.1.9.253"; "10.1.9.254"; "10.1.9.255"]%string)
      by (vm_compute; reflexivity).
    rewrite Hsort. split; [reflexivity|].
    intros Hasc.
    assert (H : ipValue "10.1.10.5" < ipValue "10.1.9.250").
    { apply (Hasc 5%nat 6%nat); [lia | reflexivity | reflexivity]. }
    vm_compute in H. discriminate. }
Qed.

(** *** The options of a request *)






(** With the batch size 0 the index never moves: as long as there is an
    address to scan, the streaming loop emits nothing and does not end,
    and the JSON loop does not end either. *)
Lemma stream_loop_stuck (env : Environment) (ips : list string)
  (timeout : option Z) (st : scan_state) :
  ips <> [] ->
  forall fuel : nat,
    stream_loop fuel env ips timeout (Some 0) (Some 0) st = Normal (false, st).
Proof.
  intros Hne. induction fuel as [|fuel IH]; [reflexivity|].
  simpl stream_loop. unfold lt.
  destruct (0 <? Z.of_nat (List.length ips)) eqn:E.
  - change (add (Some 0) (Some 0)) with (Some 0).
    replace (slice ips (Some 0) (Some 0)) with (@nil string).
    + cbn [for_of bind]. exact IH.
    + unfold slice, relative_index. change (0 <? 0) with false. cbv iota.
      now rewrite Z.sub_diag.
  - apply Z.ltb_ge in E. destruct ips; [congruence | simpl in E; lia].
Qed.

Lemma json_loop_stuck (env : Environment) (ips : list string) (timeout : Z) :
  ips <> [] ->
  forall (fuel : nat) (results : list PingResult),
    json_loop fuel env ips timeout 0 0 results = OutOfFuel.
Proof.
  intros Hne. induction fuel as [|fuel IH]; intros results; [reflexivity|].
  simpl json_loop.
  destruct (0 <? Z.of_nat (List.length ips)) eqn:E.
  - replace (slice ips (Some 0) (Some 0)) with (@nil string).
    + cbn [map Promise_all bind]. apply IH.
    + unfold slice, relative_index. change (0 <? 0) with false. cbv iota.
      now rewrite Z.sub_diag.
  - apply Z.ltb_ge in E. destruct ips; [congruence | simpl in E; lia].
Qed.

(** *** Prefixes *)

Lemma zrange_shift (f : Z -> string) (base : Z) (n : nat) : forall s : Z,
  map (fun i => f (base + i)) (zrange s n) = map f (zrange (base + s) n).
Proof.
  induction n as [|n IH]; intros s; simpl; [reflexivity|].
  rewrite IH. now replace (base + (s + 1)) with (base + s + 1) by ring.
Qed.

(** The network address that the server computes, modulo [2^32]: the
    base with its host bits cleared. *)
Lemma network_address (x hostBits : Z) :
  0 <= hostBits <= 8 ->
  band x (shl (bnot 0) hostBits) mod 2 ^ 32
  = (x mod 2 ^ 32) - (x mod 2 ^ 32) mod 2 ^ hostBits.
Proof.
  intros Hh.
  assert (Hmask : shl (bnot 0) hostBits = Z.lnot (Z.ones hostBits)).
  { assert (C : hostBits = 0 \/ hostBits = 1 \/ hostBits = 2 \/ hostBits = 3 \/
                hostBits = 4 \/ hostBits = 5 \/ hostBits = 6 \/ hostBits = 7 \/
                hostBits = 8) by lia.
    repeat (destruct C as [-> | C]; [reflexivity|]). now subst. }
  unfold band. rewrite wrap32_mod, Hmask.
  rewrite (wrap32_small (Z.lnot (Z.ones hostBits))).
  - rewrite <- Z.ldiff_land, Z.ldiff_ones_r by lia.
    rewrite Z.shiftr_div_pow2, Z.shiftl_mul_pow2 by lia.
    assert (Hp : 0 < 2 ^ hostBits) by (apply Z.pow_pos_nonneg; lia).
    assert (Hd : 2 ^ 32 = 2 ^ hostBits * 2 ^ (32 - hostBits)).
    { rewrite <- Z.pow_add_r by lia. f_equal. lia. }
    set (w := wrap32 x).
    assert (Hw : w mod 2 ^ 32 = x mod 2 ^ 32) by apply wrap32_mod.
    assert (Hlow : w mod 2 ^ hostBits = (x mod 2 ^ 32) mod 2 ^ hostBits).
    { rewrite <- Hw. symmetry. apply Z.mod_mod_divide.
      exists (2 ^ (32 - hostBits)). rewrite Hd. ring. }
    replace (w / 2 ^ hostBits * 2 ^ hostBits) with (w - w mod 2 ^ hostBits)
      by (pose proof (Z.div_mod w (2 ^ hostBits)); lia).
    rewrite Hlow, <- Zminus_mod_idemp_l, Hw.
    apply Z.mod_small.
    assert (Hx : 0 <= x mod 2 ^ 32 < 2 ^ 32) by (apply Z.mod_pos_bound; lia).
    pose proof (Z.mod_pos_bound (x mod 2 ^ 32) (2 ^ hostBits) Hp).
    pose proof (Z.mod_le (x mod 2 ^ 32) (2 ^ hostBits) (proj1 Hx) Hp). lia.
  - unfold Z.lnot, Z.ones. rewrite Z.shiftl_1_l.
    assert (2 ^ hostBits <= 2 ^ 8) by (apply Z.pow_le_mono_r; lia).
    assert (0 < 2 ^ hostBits) by (apply Z.pow_pos_nonneg; lia). simpl in *. lia.
Qed.

(** A well-formed prefix of length 24 to 32 expands to the addresses
    strictly between the network address and the broadcast address:
    [hostCount - 2] of them, none for the lengths 31 and 32. *)
Theorem prefix_hosts (a b c d len : Z) :
  octet a -> octet b -> octet c -> octet d ->
  24 <= len <= 32 ->
  let hostCount := 2 ^ (32 - len) in
  let network := addr a b c d - addr a b c d mod hostCount in
  exists ips,
    parseIPRange (dotted a b c d ++ "/" ++ decimal len) = Normal ips /\
    map ipValue ips = zrange (network + 1) (Z.to_nat (hostCount - 2)).
Proof.
  intros Ha Hb Hc Hd Hlen hostCount network.
  pose proof (addr_range a b c d Ha Hb Hc Hd) as Ra.
  rewrite (parseIPRange_slash _ (dotted a b c d) (decimal len) []).
  - rewrite parseInt_decimal by lia.
    destruct ((24 <=? len) && (len <=? 32)) eqn:E.
    2:{ apply andb_false_iff in E as [E|E]; apply Z.leb_gt in E; lia. }
    cbv zeta. eexists. split; [reflexivity|].
    rewrite zrange_shift. fold hostCount.
    destruct (Z.to_nat (hostCount - 2)) as [|n] eqn:Hn; [reflexivity|].
    rewrite <- Hn. apply values_of_range.
    + rewrite <- Zplus_mod_idemp_l, network_address by lia.
      rewrite pack_dotted, wrap32_mod, (Z.mod_small (addr a b c d)) by assumption.
      fold hostCount. fold network. apply Z.mod_small.
      assert (C : len = 24 \/ len = 25 \/ len = 26 \/ len = 27 \/ len = 28 \/
                  len = 29 \/ len = 30 \/ len = 31 \/ len = 32) by lia.
      unfold network, hostCount in *.
      repeat (destruct C as [-> | C];
              [simpl in *; Z.div_mod_to_equations; lia|]).
      subst. simpl in *. Z.div_mod_to_equations. lia.
    + assert (C : len = 24 \/ len = 25 \/ len = 26 \/ len = 27 \/ len = 28 \/
                  len = 29 \/ len = 30 \/ len = 31 \/ len = 32) by lia.
      unfold network, hostCount in *.
      repeat (destruct C as [-> | C];
              [simpl in *; Z.div_mod_to_equations; lia|]).
      subst. simpl in *. Z.div_mod_to_equations. lia.
  - rewrite includes_app, dotted_no_sep by (assumption || reflexivity). simpl.
    apply decimal_no_sep; [lia | reflexivity].
  - rewrite includes_app. simpl. apply orb_true_r.
  - simpl append. rewrite split_app by now apply dotted_no_sep.
    rewrite split_absent by (apply decimal_no_sep; [lia | reflexivity]). reflexivity.
Qed.

Lemma prefix_hosts_witness :
  exists ips,
    parseIPRange "10.1.10.0/30" = Normal ips /\
    map ipValue ips = [addr 10 1 10 1; addr 10 1 10 2].
Proof.
  apply (prefix_hosts 10 1 10 0 30); unfold octet; lia.
Defined.

(* ================================================================= *)
(** ** Further properties *)
(* ================================================================= *)

Import Further.

Lemma range_within_half_witness :
  exists ips,
    parseIPRange (dotted 192 168 0 254 ++ "-" ++ dotted 192 168 1 1) = Normal ips /\
    Z.of_nat (List.length ips) = addr 192 168 1 1 - addr 192 168 0 254 + 1 /\
    map ipValue ips
    = zrange (addr 192 168 0 254) (Z.to_nat (addr 192 168 1 1 - addr 192 168 0 254 + 1)) /\
    ascending (map ipValue ips) /\
    NoDup ips.
Proof.
  apply (range_within_half 192 168 0 254 192 168 1 1); unfold octet, addr; lia.
Defined.

Lemma range_across_half_witness :
  parseIPRange (dotted 127 255 255 254 ++ "-" ++ dotted 128 0 0 1) = Normal [].
Proof.
  apply (range_across_half 127 255 255 254 128 0 0 1); unfold octet; lia.
Defined.

(** *** The expansion *)

(** The addresses pushed by the two loops are well formed. *)
Lemma expansion_elements (input : string) (ips : list string) :
  includes "-" input = true \/ includes "/" input = true ->
  parseIPRange input = Normal ips ->
  Forall well_formed ips.
Proof.
  intros Hsep Hrun. apply Forall_forall. intros ip Hin.
  assert (Hnum : exists i, ip = numToIp i).
  { destruct (includes "-" input) eqn:Hdash.
    - destruct (split_trimmed "-" input Hdash) as (startIp & endIp & rest & Hsplit).
      rewrite (parseIPRange_dash input startIp endIp rest Hdash Hsplit) in Hrun.
      cbv zeta in Hrun. destruct (_ <? 2 ^ 32); [|discriminate].
      assert (E : ips = map numToIp
                (zrange (packOctets (map Number (split "." startIp)))
                   (Z.to_nat (packOctets (map Number (split "." endIp))
                              - packOctets (map Number (split "." startIp)) + 1))))
        by congruence.
      rewrite E in Hin. apply in_map_iff in Hin as (i & <- & _). now exists i.
    - destruct Hsep as [Hsep|Hslash]; [discriminate|].
      destruct (split_includes "/" input Hslash) as (baseIp & cidrBits & rest & Hsplit).
      rewrite (parseIPRange_slash input baseIp cidrBits rest Hdash Hslash Hsplit) in Hrun.
      destruct (parseInt cidrBits 0) as [bits|].
      + destruct ((24 <=? bits) && (bits <=? 32)).
        * cbv zeta in Hrun.
          assert (E : ips = map (fun i => numToIp
                      (band (packOctets (map Number (split "." baseIp)))
                            (shl (bnot 0) (32 - bits)) + i))
                      (zrange 1 (Z.to_nat (2 ^ (32 - bits) - 2))))
            by congruence.
          rewrite E in Hin. apply in_map_iff in Hin as (i & <- & _). eauto.
        * assert (E : ips = []) by congruence. now rewrite E in Hin.
      + assert (E : ips = []) by congruence. now rewrite E in Hin. }
  destruct Hnum as (i & ->).
  assert (Hu : 0 <= i mod 2 ^ 32 < 2 ^ 32) by (apply Z.mod_pos_bound; lia).
  destruct (octets_of_value (i mod 2 ^ 32) Hu) as (H1 & H2 & H3 & H4 & _).
  rewrite numToIp_dotted. cbv zeta. unfold well_formed. eauto 10.
Qed.


(** Whatever the input, an expansion that went through the range branch
    or the prefix branch holds well-formed addresses only: four octets,
    written in decimal and joined by dots. *)
Theorem expansion_is_well_formed :
  forall (input : string) (ips : list string),
  includes "-" input = true \/ includes "/" input = true ->
  parseIPRange input = Normal ips ->
  forall ip, In ip ips ->
  exists a b c d,
    octet a /\ octet b /\ octet c /\ octet d /\ ip = dotted a b c d.
Proof.
  intros input ips Hsep Hrun ip Hin.
  pose proof (expansion_elements input ips Hsep Hrun) as H.
  rewrite Forall_forall in H. exact (H ip Hin).
Qed.

Lemma expansion_is_well_formed_witness :
  exists a b c d,
    octet a /\ octet b /\ octet c /\ octet d /\ "10.0.0.1"%string = dotted a b c d.
Proof.
  apply (expansion_is_well_formed "10.0.0.x-10.0.0.2"
           ["10.0.0.0"; "10.0.0.1"; "10.0.0.2"]%string).
  - left. reflexivity.
  - vm_compute. reflexivity.
  - simpl. tauto.
Defined.

(** An input with a slash and no dash never throws and never expands to
    more than 254 addresses, whatever stands around the slash. *)
Theorem prefix_expansion_bounded :
  forall input : string,
  includes "-" input = false -> includes "/" input = true ->
  exists ips,
    parseIPRange input = Normal ips /\ (List.length ips <= 254)%nat.
Proof.
  intros input Hdash Hslash.
  destruct (split_includes "/" input Hslash) as (baseIp & cidrBits & rest & Hsplit).
  rewrite (parseIPRange_slash input baseIp cidrBits rest Hdash Hslash Hsplit).
  destruct (parseInt cidrBits 0) as [bits|]; [|exists []; split; [reflexivity|simpl; lia]].
  destruct ((24 <=? bits) && (bits <=? 32)) eqn:Hb;
    [|exists []; split; [reflexivity|simpl; lia]].
  apply andb_true_iff in Hb as [H1 H2]. reflect_comparisons.
  cbv zeta. eexists. split; [reflexivity|].
  rewrite length_map, zrange_length.
  assert (2 ^ (32 - bits) <= 2 ^ 8) by (apply Z.pow_le_mono_r; lia).
  simpl in *. lia.
Qed.

Lemma prefix_expansion_bounded_witness :
  exists ips,
    parseIPRange "garbage/24" = Normal ips /\ (List.length ips <= 254)%nat.
Proof.
  apply prefix_expansion_bounded; reflexivity.
Defined.

(** The host bits of the base of a prefix do not matter: two well-formed
    bases in the same network expand to the same addresses. *)
Theorem prefix_host_bits_ignored (a b c d a' b' c' d' len : Z) :
  octet a -> octet b -> octet c -> octet d ->
  octet a' -> octet b' -> octet c' -> octet d' ->
  24 <= len <= 32 ->
  addr a b c d - addr a b c d mod 2 ^ (32 - len)
  = addr a' b' c' d' - addr a' b' c' d' mod 2 ^ (32 - len) ->
  parseIPRange (dotted a b c d ++ "/" ++ decimal len)
  = parseIPRange (dotted a' b' c' d' ++ "/" ++ decimal len).
Proof.
  intros Ha Hb Hc Hd Ha' Hb' Hc' Hd' Hlen Hnet.
  assert (Hshape : forall p q r s : Z, octet p -> octet q -> octet r -> octet s ->
            parseIPRange (dotted p q r s ++ "/" ++ decimal len)
            = Normal (map (fun i =>
                             numToIp (band (wrap32 (addr p q r s))
                                           (shl (bnot 0) (32 - len)) + i))
                          (zrange 1 (Z.to_nat (2 ^ (32 - len) - 2))))).
  { intros p q r s Hp Hq Hr Hs.
    rewrite (parseIPRange_slash _ (dotted p q r s) (decimal len) []).
    - rewrite parseInt_decimal by lia.
      destruct ((24 <=? len) && (len <=? 32)) eqn:E.
      2:{ apply andb_false_iff in E as [E|E]; reflect_comparisons; lia. }
      cbv zeta. now rewrite pack_dotted.
    - rewrite includes_app, dotted_no_sep by (assumption || reflexivity). simpl.
      apply decimal_no_sep; [lia | reflexivity].
    - rewrite includes_app. simpl. apply orb_true_r.
    - simpl append. rewrite split_app by now apply dotted_no_sep.
      rewrite split_absent by (apply decimal_no_sep; [lia | reflexivity]). reflexivity. }
  assert (HN : band (wrap32 (addr a b c d)) (shl (bnot 0) (32 - len))
               = band (wrap32 (addr a' b' c' d')) (shl (bnot 0) (32 - len))).
  { assert (Hmod : band (wrap32 (addr a b c d)) (shl (bnot 0) (32 - len)) mod 2 ^ 32
                   = band (wrap32 (addr a' b' c' d')) (shl (bnot 0) (32 - len)) mod 2 ^ 32).
    { rewrite !network_address, !wrap32_mod by lia.
      rewrite (Z.mod_small (addr a b c d)), (Z.mod_small (addr a' b' c' d'))
        by now apply addr_range.
      exact Hnet. }
    unfold band in *. rewrite !wrap32_mod in Hmod. now apply wrap32_congr. }
  rewrite !Hshape by assumption. now rewrite HN.
Qed.

Lemma prefix_host_bits_ignored_witness :
  parseIPRange "10.1.10.77/28" = parseIPRange "10.1.10.64/28".
Proof.
  apply (prefix_host_bits_ignored 10 1 10 77 10 1 10 64 28);
    unfold octet, addr; try lia; reflexivity.
Defined.

(** *** White space around the endpoints of a range *)

Lemma trimStart_app (s t : string) :
  trimStart (s ++ t)
  = if forall_chars StrWhiteSpaceChar s then trimStart t
    else (trimStart s ++ t)%string.
Proof.
  induction s as [|c s IH]; simpl; [reflexivity|].
  destruct (StrWhiteSpaceChar c); simpl; [exact IH | reflexivity].
Qed.

Lemma trimEnd_space (w : string) :
  forall_chars StrWhiteSpaceChar w = true -> trimEnd w = EmptyString.
Proof.
  induction w as [|c w IH]; simpl; [reflexivity|].
  intros H. apply andb_true_iff in H as [Hc Hw]. now rewrite (IH Hw), Hc.
Qed.

Lemma trimEnd_app_space (s w : string) :
  forall_chars StrWhiteSpaceChar w = true -> trimEnd (s ++ w) = trimEnd s.
Proof.
  intros Hw. induction s as [|c s IH]; simpl.
  - now apply trimEnd_space.
  - now rewrite IH.
Qed.

Lemma trimStart_space (w : string) :
  forall_chars StrWhiteSpaceChar w = true -> trimStart w = EmptyString.
Proof.
  induction w as [|c w IH]; simpl; [reflexivity|].
  intros H. apply andb_true_iff in H as [Hc Hw]. now rewrite Hc, IH.
Qed.

(** [trim] does not see the white space put around a string. *)
Lemma trim_padding (w1 s w2 : string) :
  forall_chars StrWhiteSpaceChar w1 = true ->
  forall_chars StrWhiteSpaceChar w2 = true ->
  trim (w1 ++ s ++ w2) = trim s.
Proof.
  intros H1 H2. unfold trim. rewrite trimStart_app, H1, trimStart_app.
  destruct (forall_chars StrWhiteSpaceChar s) eqn:Hs.
  - now rewrite (trimStart_space w2 H2), (trimStart_space s Hs).
  - now apply trimEnd_app_space.
Qed.

Lemma space_no_dash (w : string) :
  forall_chars StrWhiteSpaceChar w = true -> includes "-" w = false.
Proof. now apply includes_absent. Qed.

Lemma parseIPRange_two_endpoints (p q : string) :
  includes "-" p = false -> includes "-" q = false ->
  parseIPRange (p ++ "-" ++ q)
  = let startNum := packOctets (map Number (split "." (trim p))) in
    let endNum := packOctets (map Number (split "." (trim q))) in
    if endNum - startNum + 1 <? 2 ^ 32
    then Normal (map numToIp (zrange startNum (Z.to_nat (endNum - startNum + 1))))
    else Throw RangeError.
Proof.
  intros Hp Hq.
  apply (parseIPRange_dash _ (trim p) (trim q) []).
  - rewrite includes_app. simpl. apply orb_true_r.
  - simpl append. rewrite split_app by assumption.
    now rewrite split_absent by assumption.
Qed.

(** White space before and after the two endpoints of a range changes
    nothing, whatever the endpoints are. *)
Theorem range_padding_ignored (w1 w2 w3 w4 p q : string) :
  forall_chars StrWhiteSpaceChar w1 = true ->
  forall_chars StrWhiteSpaceChar w2 = true ->
  forall_chars StrWhiteSpaceChar w3 = true ->
  forall_chars StrWhiteSpaceChar w4 = true ->
  includes "-" p = false -> includes "-" q = false ->
  parseIPRange ((w1 ++ p ++ w2) ++ "-" ++ (w3 ++ q ++ w4))
  = parseIPRange (p ++ "-" ++ q).
Proof.
  intros H1 H2 H3 H4 Hp Hq.
  rewrite !parseIPRange_two_endpoints;
    rewrite ?includes_app, ?Hp, ?Hq, ?space_no_dash by assumption;
    try reflexivity.
  now rewrite !trim_padding by assumption.
Qed.

Lemma range_padding_ignored_witness :
  parseIPRange " 10.1.10.1 - 10.1.10.3 " = parseIPRange "10.1.10.1-10.1.10.3".
Proof.
  apply (range_padding_ignored " " " " " " " " "10.1.10.1" "10.1.10.3"); reflexivity.
Defined.


(** *** Sorting with a comparator that subtracts keys *)

Section KeyedSort.
Variable A : Type.
Variable compare : A -> A -> option Z.
Variable key : A -> Z.
Variable P : A -> Prop.
Hypothesis compare_keys :
  forall x y, P x -> P y -> compare x y = Some (key x - key y).

Lemma insert_sorted_perm (x : A) (l : list A) :
  Permutation (insert_sorted compare x l) (x :: l).
Proof.
  induction l as [|y l IH]; simpl; [reflexivity|].
  destruct (keeps_order compare x y); [reflexivity|].
  rewrite IH. apply perm_swap.
Qed.

Lemma sort_perm (l : list A) : Permutation (sort compare l) l.
Proof.
  induction l as [|x l IH]; simpl; [reflexivity|].
  now rewrite insert_sorted_perm, IH.
Qed.

Lemma keeps_order_keys (x y : A) :
  P x -> P y -> keeps_order compare x y = (key x <=? key y).
Proof.
  intros Hx Hy. unfold keeps_order. rewrite (compare_keys x y Hx Hy).
  destruct (key x - key y <=? 0) eqn:E1, (key x <=? key y) eqn:E2;
    try reflexivity; reflect_comparisons; lia.
Qed.

Lemma insert_sorted_sorted (x : A) (l : list A) :
  P x -> Forall P l -> Sorted (by_key key) l -> Sorted (by_key key) (insert_sorted compare x l).
Proof.
  intros Hx Hl Hs. induction l as [|y l IH]; simpl.
  - repeat constructor.
  - inversion Hl as [|y' l' Hy Hl']; subst. inversion Hs as [|y' l' Hs' Hhd]; subst.
    rewrite keeps_order_keys by assumption.
    destruct (key x <=? key y) eqn:E; reflect_comparisons.
    + constructor; [assumption|]. constructor. exact E.
    + constructor; [now apply IH|].
      destruct l as [|z l]; simpl.
      * constructor. unfold by_key. lia.
      * inversion Hl' as [|z' l'' Hz Hl'']; subst.
        rewrite keeps_order_keys by assumption.
        destruct (key x <=? key z); constructor.
        -- unfold by_key. lia.
        -- now inversion Hhd.
Qed.

Lemma sort_Forall (l : list A) : Forall P l -> Forall P (sort compare l).
Proof.
  intros H. apply Forall_forall. intros x Hx.
  rewrite Forall_forall in H. apply H.
  apply (Permutation_in x (sort_perm l)). exact Hx.
Qed.

(** The sorted array is in non-decreasing order of the keys. *)
Lemma sort_sorted (l : list A) : Forall P l -> Sorted (by_key key) (sort compare l).
Proof.
  induction l as [|x l IH]; intros H; simpl; [constructor|].
  inversion H as [|x' l' Hx Hl]; subst.
  apply insert_sorted_sorted; [assumption | now apply sort_Forall | now apply IH].
Qed.

(** An array already in order is left as it is. *)
Lemma sort_already (l : list A) : Forall P l -> Sorted (by_key key) l -> sort compare l = l.
Proof.
  induction l as [|x l IH]; intros H Hs; simpl; [reflexivity|].
  inversion H as [|x' l' Hx Hl]; subst. inversion Hs as [|x' l' Hs' Hhd]; subst.
  rewrite IH by assumption.
  destruct l as [|y l]; simpl; [reflexivity|].
  inversion Hl; subst. inversion Hhd; subst.
  rewrite keeps_order_keys by assumption.
  destruct (key x <=? key y) eqn:E; [reflexivity|].
  reflect_comparisons. unfold by_key in *. lia.
Qed.

Lemma sorted_keys (l : list A) :
  Sorted (by_key key) l -> StronglySorted Z.le (map key l).
Proof.
  intros H. apply Sorted_StronglySorted; [exact Z.le_trans|].
  induction H as [|x l Hs IH Hhd]; simpl; constructor; [assumption|].
  destruct Hhd; simpl; constructor. assumption.
Qed.

End KeyedSort.

(** *** The JSON scan *)

Lemma parseInt_decimal_10 (n : Z) : 0 <= n -> parseInt (decimal n) 10 = Some n.
Proof.
  intros H. pose proof (decimal_chars n H) as Hc.
  pose proof (decimal_nonempty n H) as Hne.
  unfold parseInt.
  rewrite (trimStart_id _ (digits_not_space _ Hc)), (strip_sign_digits _ Hc).
  change (wrap32 10) with 10. simpl ((10 =? 0) || _)%bool. cbv iota.
  simpl ((10 =? 0) || (10 =? 16))%bool. cbv iota. simpl andb. cbv iota.
  change (10 <=? 36) with true. change (10 =? 0) with false. cbv iota.
  rewrite (span_digits_all _ _ Hc). simpl fst.
  pose proof (decimal_value n H) as Hv.
  destruct (decimal n) as [|c s]; [congruence|].
  simpl in Hv. simpl. now rewrite Hv.
Qed.

Lemma lastOctetOf_dotted (a b c d : Z) :
  octet a -> octet b -> octet c -> octet d -> lastOctetOf (dotted a b c d) = d.
Proof.
  intros Ha Hb Hc Hd. unfold lastOctetOf. rewrite ipValue_dotted by assumption.
  unfold addr, octet in *.
  replace (a * 2 ^ 24 + b * 2 ^ 16 + c * 2 ^ 8 + d)
    with (d + (a * 2 ^ 16 + b * 2 ^ 8 + c) * 256) by ring.
  rewrite Z.mod_add by lia. apply Z.mod_small. lia.
Qed.

(** On well-formed addresses the comparison of the JSON handler is the
    difference of the last octets. *)
Lemma compareIp_well_formed (x y : string) :
  well_formed x -> well_formed y ->
  compareIp x y = Some (lastOctetOf x - lastOctetOf y).
Proof.
  intros (a & b & c & d & Ha & Hb & Hc & Hd & ->)
         (a' & b' & c' & d' & Ha' & Hb' & Hc' & Hd' & ->).
  unfold compareIp. rewrite !split_dotted by assumption.
  cbn [nth_error ToString].
  rewrite !parseInt_decimal_10 by (unfold octet in *; lia).
  now rewrite !lastOctetOf_dotted.
Qed.

Lemma filter_length_perm {A : Type} (f : A -> bool) (l l' : list A) :
  Permutation l l' -> List.length (filter f l) = List.length (filter f l').
Proof.
  induction 1 as [|x l l' _ IH|x y l|l l' l'' _ IH1 _ IH2]; simpl.
  - reflexivity.
  - destruct (f x); simpl; now rewrite IH.
  - destruct (f x), (f y); reflexivity.
  - now rewrite IH1.
Qed.

(** The summary of a JSON scan with a positive batch size: the results
    are the probes of the expanded addresses in some order, [totalHosts]
    counts the addresses, and [activeHosts] counts the active results of
    the list that is returned. *)
Theorem json_scan_summary :
  forall (fuel : nat) (env : Environment) (body : JsonBody)
         (target : string) (ips : list string),
  b_target body = Some target -> target <> ""%string ->
  parseIPRange target = Normal ips ->
  0 < default (b_batchSize body) 10 ->
  (List.length ips < fuel)%nat ->
  exists s,
    handleJsonScan fuel env body = Normal (JsonResponse s) /\
    Permutation (results s) (map (probe env (Some (default (b_timeout body) 2))) ips) /\
    Permutation (map ip (results s)) ips /\
    totalHosts s = Z.of_nat (List.length (results s)) /\
    totalHosts s = Z.of_nat (List.length ips) /\
    activeHosts s = Z.of_nat (List.length (filter is_active (results s))) /\
    0 <= activeHosts s <= totalHosts s.
Proof.
  intros fuel env body target ips Htarget Hne Hips Hb Hfuel.
  eexists. split; [now apply (handleJsonScan_run fuel env body target ips)|].
  cbn [results totalHosts activeHosts].
  set (rs := map (probe env (Some (default (b_timeout body) 2))) ips).
  pose proof (sort_perm _ compareFn rs) as Hperm.
  assert (Hlen : List.length (sort compareFn rs) = List.length rs)
    by now apply Permutation_length.
  repeat split.
  - exact Hperm.
  - rewrite (Permutation_map ip Hperm). unfold rs. now rewrite map_probe_ip.
  - now rewrite Hlen.
  - unfold rs. now rewrite length_map.
  - unfold activeCount. f_equal. symmetry. now apply filter_length_perm.
  - unfold activeCount. lia.
  - unfold activeCount. apply inj_le. apply filter_length_le.
Qed.

Lemma json_scan_summary_witness :
  exists s,
    handleJsonScan 4 quiet
      {| b_target := Some "10.1.10.1-10.1.10.3"%string; b_timeout := None;
         b_batchSize := Some 2 |}
    = Normal (JsonResponse s) /\
    Permutation (results s)
      (map (probe quiet (Some 2)) ["10.1.10.1"; "10.1.10.2"; "10.1.10.3"]%string) /\
    Permutation (map ip (results s)) ["10.1.10.1"; "10.1.10.2"; "10.1.10.3"]%string /\
    totalHosts s = Z.of_nat (List.length (results s)) /\
    totalHosts s = 3 /\
    activeHosts s = Z.of_nat (List.length (filter is_active (results s))) /\
    0 <= activeHosts s <= totalHosts s.
Proof.
  apply (json_scan_summary 4 quiet
           {| b_target := Some "10.1.10.1-10.1.10.3"%string; b_timeout := None;
              b_batchSize := Some 2 |}
           "10.1.10.1-10.1.10.3" ["10.1.10.1"; "10.1.10.2"; "10.1.10.3"]%string).
  - reflexivity.
  - discriminate.
  - vm_compute. reflexivity.
  - reflexivity.
  - simpl. lia.
Defined.

(** The batch size of a JSON scan, as long as it is positive, changes
    nothing in the hosts reported: same results in the same order, same
    counts. *)
Theorem json_batch_size_irrelevant :
  forall (fuel : nat) (env : Environment) (target : string) (ips : list string)
         (timeout : option Z) (b1 b2 : Z),
  target <> ""%string ->
  parseIPRange target = Normal ips ->
  0 < b1 -> 0 < b2 ->
  (List.length ips < fuel)%nat ->
  exists s1 s2,
    handleJsonScan fuel env
      {| b_target := Some target; b_timeout := timeout; b_batchSize := Some b1 |}
    = Normal (JsonResponse s1) /\
    handleJsonScan fuel env
      {| b_target := Some target; b_timeout := timeout; b_batchSize := Some b2 |}
    = Normal (JsonResponse s2) /\
    results s1 = results s2 /\
    totalHosts s1 = totalHosts s2 /\
    activeHosts s1 = activeHosts s2.
Proof.
  intros fuel env target ips timeout b1 b2 Hne Hips H1 H2 Hfuel.
  do 2 eexists.
  split; [apply (handleJsonScan_run fuel env _ target ips); try assumption; reflexivity|].
  split; [apply (handleJsonScan_run fuel env _ target ips); try assumption; reflexivity|].
  repeat split.
Qed.

Lemma json_batch_size_irrelevant_witness :
  exists s1 s2,
    handleJsonScan 4 quiet
      {| b_target := Some "10.1.10.1-10.1.10.3"%string; b_timeout := None;
         b_batchSize := Some 1 |}
    = Normal (JsonResponse s1) /\
    handleJsonScan 4 quiet
      {| b_target := Some "10.1.10.1-10.1.10.3"%string; b_timeout := None;
         b_batchSize := Some 50 |}
    = Normal (JsonResponse s2) /\
    results s1 = results s2 /\
    totalHosts s1 = totalHosts s2 /\
    activeHosts s1 = activeHosts s2.
Proof.
  apply (json_batch_size_irrelevant 4 quiet "10.1.10.1-10.1.10.3"
           ["10.1.10.1"; "10.1.10.2"; "10.1.10.3"]%string None 1 50).
  - discriminate.
  - vm_compute. reflexivity.
  - lia.
  - lia.
  - simpl. lia.
Defined.

(** What the sort of the JSON handler achieves: for a range or a prefix,
    the results come back in non-decreasing order of their last octet,
    and they are still the expanded addresses, each once. *)
Theorem json_sorted_by_last_octet :
  forall (fuel : nat) (env : Environment) (body : JsonBody)
         (target : string) (ips : list string),
  b_target body = Some target ->
  includes "-" target = true \/ includes "/" target = true ->
  parseIPRange target = Normal ips ->
  0 < default (b_batchSize body) 10 ->
  (List.length ips < fuel)%nat ->
  exists s,
    handleJsonScan fuel env body = Normal (JsonResponse s) /\
    StronglySorted Z.le (map (fun r => lastOctetOf (ip r)) (results s)) /\
    Permutation (map ip (results s)) ips.
Proof.
  intros fuel env body target ips Htarget Hsep Hips Hb Hfuel.
  assert (Hne : target <> ""%string).
  { intros ->. destruct Hsep; discriminate. }
  eexists. split; [now apply (handleJsonScan_run fuel env body target ips)|].
  cbn [results].
  rewrite (sort_map _ (probe_ip env _)).
  rewrite <- map_map, map_probe_ip.
  pose proof (expansion_elements target ips Hsep Hips) as Hwf.
  split.
  - apply (sorted_keys _ lastOctetOf).
    apply (sort_sorted _ compareIp lastOctetOf well_formed compareIp_well_formed).
    exact Hwf.
  - apply sort_perm.
Qed.

Lemma json_sorted_by_last_octet_witness :
  exists s,
    handleJsonScan 13 quiet
      {| b_target := Some "10.1.9.250-10.1.10.5"%string; b_timeout := None;
         b_batchSize := None |}
    = Normal (JsonResponse s) /\
    StronglySorted Z.le (map (fun r => lastOctetOf (ip r)) (results s)) /\
    Permutation (map ip (results s))
      ["10.1.9.250"; "10.1.9.251"; "10.1.9.252"; "10.1.9.253"; "10.1.9.254";
       "10.1.9.255"; "10.1.10.0"; "10.1.10.1"; "10.1.10.2"; "10.1.10.3";
       "10.1.10.4"; "10.1.10.5"]%string.
Proof.
  apply (json_sorted_by_last_octet 13 quiet
           {| b_target := Some "10.1.9.250-10.1.10.5"%string; b_timeout := None;
              b_batchSize := None |}
           "10.1.9.250-10.1.10.5").
  - reflexivity.
  - left. reflexivity.
  - vm_compute. reflexivity.
  - reflexivity.
  - simpl. lia.
Defined.

Lemma numToIp_addr (a b c d : Z) :
  octet a -> octet b -> octet c -> octet d ->
  numToIp (wrap32 (addr a b c d)) = dotted a b c d.
Proof.
  intros Ha Hb Hc Hd.
  pose proof (addr_range a b c d Ha Hb Hc Hd) as Hu.
  rewrite numToIp_dotted. cbv zeta.
  rewrite wrap32_mod, (Z.mod_small (addr a b c d)) by assumption.
  destruct (octets_of_value (addr a b c d) Hu) as (H1 & H2 & H3 & H4 & E).
  set (o1 := addr a b c d / 2 ^ 24) in *.
  set (o2 := addr a b c d / 2 ^ 16 mod 256) in *.
  set (o3 := addr a b c d / 2 ^ 8 mod 256) in *.
  set (o4 := addr a b c d mod 256) in *.
  unfold addr, octet in *.
  assert (o1 = a /\ o2 = b /\ o3 = c /\ o4 = d) as (-> & -> & -> & ->) by lia.
  reflexivity.
Qed.

(** A range that stays inside one /24 comes back from the JSON handler in
    ascending order of address: there the sort changes nothing. *)
Theorem json_order_within_24 :
  forall (fuel : nat) (env : Environment) (timeout batchSize : option Z)
         (a b c d h : Z),
  octet a -> octet b -> octet c -> octet d -> octet h -> d <= h ->
  0 < default batchSize 10 ->
  (Z.to_nat (h - d + 1) < fuel)%nat ->
  exists s,
    handleJsonScan fuel env
      {| b_target := Some (dotted a b c d ++ "-" ++ dotted a b c h)%string;
         b_timeout := timeout; b_batchSize := batchSize |}
    = Normal (JsonResponse s) /\
    map ip (results s) = map (dotted a b c) (zrange d (Z.to_nat (h - d + 1))).
Proof.
  intros fuel env timeout batchSize a b c d h Ha Hb Hc Hd Hh Hdh Hbatch Hfuel.
  set (ips := map (dotted a b c) (zrange d (Z.to_nat (h - d + 1)))).
  assert (Hips : parseIPRange (dotted a b c d ++ "-" ++ dotted a b c h) = Normal ips).
  { rewrite parseIPRange_dotted_range by assumption. cbv zeta.
    rewrite !wrap32_addr by assumption.
    assert (Hdiff : (if a <? 128 then addr a b c h else addr a b c h - 2 ^ 32)
                    - (if a <? 128 then addr a b c d else addr a b c d - 2 ^ 32) + 1
                    = h - d + 1)
      by (unfold addr; destruct (a <? 128); ring).
    rewrite Hdiff.
    destruct (h - d + 1 <? 2 ^ 32) eqn:L;
      [|reflect_comparisons; unfold octet in *; lia].
    f_equal. unfold ips.
    rewrite <- (wrap32_addr a b c d) by assumption.
    assert (G : forall (n : nat) (k : Z),
              d <= k -> k + Z.of_nat n <= 256 ->
              map numToIp (zrange (wrap32 (addr a b c d) + (k - d)) n)
              = map (dotted a b c) (zrange k n)).
    { induction n as [|n IH]; intros k Hk Hn; simpl; [reflexivity|].
      f_equal.
      - rewrite <- (numToIp_addr a b c k) by (unfold octet in *; lia).
        rewrite !numToIp_dotted. cbv zeta.
        replace ((wrap32 (addr a b c d) + (k - d)) mod 2 ^ 32)
          with (wrap32 (addr a b c k) mod 2 ^ 32); [reflexivity|].
        rewrite <- Zplus_mod_idemp_l, !wrap32_mod, Zplus_mod_idemp_l.
        f_equal. unfold addr. ring.
      - replace (wrap32 (addr a b c d) + (k - d) + 1)
          with (wrap32 (addr a b c d) + (k + 1 - d)) by ring.
        apply IH; lia. }
    specialize (G (Z.to_nat (h - d + 1)) d).
    rewrite Z.sub_diag, Z.add_0_r in G. apply G; unfold octet in *; lia. }
  assert (Hlen : List.length ips = Z.to_nat (h - d + 1))
    by (unfold ips; now rewrite length_map, zrange_length).
  eexists. split.
  - apply (handleJsonScan_run fuel env _ (dotted a b c d ++ "-" ++ dotted a b c h) ips);
      [reflexivity| |assumption|assumption|now rewrite Hlen].
    intros E. apply (f_equal (includes "-")) in E.
    rewrite includes_app in E. simpl in E. rewrite orb_true_r in E. discriminate.
  - cbn [results b_timeout].
    rewrite (sort_map _ (probe_ip env _)), map_probe_ip.
    apply (sort_already _ compareIp lastOctetOf well_formed compareIp_well_formed).
    + apply Forall_forall. intros x Hx. unfold ips in Hx.
      apply in_map_iff in Hx as (k & <- & Hk). apply zrange_In in Hk.
      exists a, b, c, k. unfold octet in *. repeat split; lia || reflexivity.
    + unfold ips. clear Hips Hlen ips Hfuel.
      assert (G : forall (n : nat) (k : Z),
                0 <= k -> k + Z.of_nat n <= 256 ->
                Sorted (fun x y => lastOctetOf x <= lastOctetOf y)
                       (map (dotted a b c) (zrange k n))).
      { induction n as [|n IH]; intros k Hk Hn; simpl; constructor.
        - apply IH; lia.
        - destruct n as [|n]; simpl; constructor.
          rewrite !lastOctetOf_dotted by (unfold octet in *; lia). lia. }
      apply G; unfold octet in *; lia.
Qed.

Lemma json_order_within_24_witness :
  exists s,
    handleJsonScan 4 quiet
      {| b_target := Some (dotted 10 1 10 7 ++ "-" ++ dotted 10 1 10 9)%string;
         b_timeout := None; b_batchSize := Some 2 |}
    = Normal (JsonResponse s) /\
    map ip (results s) = map (dotted 10 1 10) (zrange 7 (Z.to_nat (9 - 7 + 1))).
Proof.
  apply (json_order_within_24 4 quiet None (Some 2) 10 1 10 7 9);
    unfold octet; simpl; lia.
Defined.

(** *** The streaming scan *)

Lemma progress_events_app (e1 e2 : list ScanEvent) :
  progress_events (e1 ++ e2) = progress_events e1 ++ progress_events e2.
Proof.
  induction e1 as [|e e1 IH]; simpl; [reflexivity|].
  destruct e; simpl; now rewrite IH.
Qed.

Lemma sequential_progress (env : Environment) (n : Z) (timeout : option Z)
  (l : list string) : forall k : nat,
  progress_events (events (sequential env n timeout k l)) = announcements n k l.
Proof.
  induction l as [|x l IH]; intros k; simpl; [reflexivity|]. now rewrite IH.
Qed.

Lemma announcements_nth (n : Z) (l : list string) :
  forall (k j : nat) (p : ScanProgress),
  nth_error (announcements n k l) j = Some p ->
  current p = Z.of_nat (k + j) + 1 /\ total p = n /\ progress_results p = [] /\
  nth_error l j = Some (currentIp p).
Proof.
  induction l as [|x l IH]; intros k j p H; simpl in H.
  - destruct j; discriminate.
  - destruct j as [|j]; simpl in H.
    + assert (E : p = {| current := Z.of_nat k + 1; total := n; currentIp := x;
                         progress_results := [] |}) by congruence.
      subst p. simpl. rewrite Nat.add_0_r. auto.
    + apply IH in H as (H1 & H2 & H3 & H4).
      rewrite H1. simpl. repeat split; try assumption. lia.
Qed.

Lemma nth_error_firstn_Some {A : Type} (k : nat) (l : list A) :
  forall (j : nat) (x : A),
  nth_error (firstn k l) j = Some x -> (j < k)%nat /\ nth_error l j = Some x.
Proof.
  revert l. induction k as [|k IH]; intros l j x H; simpl in H.
  - destruct j; discriminate.
  - destruct l as [|y l]; [destruct j; discriminate|].
    destruct j as [|j]; simpl in *; [split; [lia | assumption]|].
    apply IH in H as [H1 H2]. split; [lia | assumption].
Qed.

(** The announcements of a streaming scan count the addresses: whatever
    the batch size and however far the scan has come, the [j]-th
    [progress] event names the [j]-th expanded address, carries
    [current = j + 1] and the number of expanded addresses as [total],
    and holds no results. So [current] never exceeds [total]. *)
Theorem streaming_progress_numbering :
  forall (fuel : nat) (env : Environment) (request : StreamRequest)
         (target : string) (ips : list string),
  q_target request = Some target -> target <> ""%string ->
  parseIPRange target = Normal ips ->
  exists run : StreamRun,
    handleStreamingScan fuel env request = Normal (EventStream run) /\
    forall (j : nat) (p : ScanProgress),
      nth_error (progress_events (events (actions run))) j = Some p ->
      nth_error ips j = Some (currentIp p) /\
      current p = Z.of_nat j + 1 /\
      total p = Z.of_nat (List.length ips) /\
      1 <= current p <= total p /\
      progress_results p = [].
Proof.
  intros fuel env request target ips Htarget Hne Hips.
  destruct (handleStreamingScan_run fuel env request target ips Htarget Hne Hips)
    as (fin & k & Hk & Hrun & _).
  eexists. split; [exact Hrun|]. cbn [actions].
  intros j p Hp.
  rewrite events_app, progress_events_app, sequential_progress in Hp.
  assert (Htail : progress_events
                    (events (if fin
                             then [Enqueue (complete (summary_of env target
                                     (map (probe env (parseInt (or_else (q_timeout request) "2") 0))
                                          (firstn k ips)))); Close]
                             else [])) = []) by now destruct fin.
  rewrite Htail, app_nil_r in Hp.
  apply announcements_nth in Hp as (H1 & H2 & H3 & H4).
  apply nth_error_firstn_Some in H4 as [Hj H4].
  simpl in H1. repeat split; try assumption; lia.
Qed.

Lemma streaming_progress_numbering_witness :
  exists run : StreamRun,
    handleStreamingScan 4 quiet
      {| q_target := Some "10.1.10.0/30"%string; q_timeout := None;
         q_batchSize := None |}
    = Normal (EventStream run) /\
    forall (j : nat) (p : ScanProgress),
      nth_error (progress_events (events (actions run))) j = Some p ->
      nth_error ["10.1.10.1"; "10.1.10.2"]%string j = Some (currentIp p) /\
      current p = Z.of_nat j + 1 /\
      total p = 2 /\
      1 <= current p <= total p /\
      progress_results p = [].
Proof.
  apply (streaming_progress_numbering 4 quiet
           {| q_target := Some "10.1.10.0/30"%string; q_timeout := None;
              q_batchSize := None |}
           "10.1.10.0/30" ["10.1.10.1"; "10.1.10.2"]%string).
  - reflexivity.
  - discriminate.
  - vm_compute. reflexivity.
Defined.

(** The summary that closes a stream agrees with the events sent before
    it: its results are the [result] events, in their order, and its
    counts are taken from them. This holds for every batch size, so a
    consumer may use the results it collected or those of the summary.
    A stream that is not closed holds no summary. *)
Theorem streaming_summary_matches_events :
  forall (fuel : nat) (env : Environment) (request : StreamRequest) (run : StreamRun),
  handleStreamingScan fuel env request = Normal (EventStream run) ->
  (closed run = true ->
   exists (pre : list action) (s : Summary),
     actions run = pre ++ [Enqueue (complete s); Close] /\
     ~ In Close pre /\
     complete_events (events pre) = [] /\
     results s = result_events (events pre) /\
     totalHosts s = Z.of_nat (List.length (results s)) /\
     activeHosts s = Z.of_nat (List.length (filter is_active (results s))) /\
     success s = true /\
     q_target request = Some (PingServer.target s)) /\
  (closed run = false ->
   ~ In Close (actions run) /\ complete_events (events (actions run)) = []).
Proof.
  intros fuel env request run H.
  destruct (q_target request) as [target|] eqn:Htarget.
  2:{ unfold handleStreamingScan in H. rewrite Htarget in H. discriminate. }
  assert (Hne : target <> ""%string).
  { intros ->. unfold handleStreamingScan in H. rewrite Htarget in H. discriminate. }
  destruct (parseIPRange_outcome target) as [(ips & Hips)|(Hthrow & _)].
  2:{ unfold handleStreamingScan in H. rewrite Htarget in H.
      destruct target; [congruence|]. rewrite Hthrow in H. discriminate. }
  destruct (handleStreamingScan_run fuel env request target ips Htarget Hne Hips)
    as (fin & k & Hk & Hrun & _).
  rewrite Hrun in H.
  set (timeout := parseInt (or_else (q_timeout request) "2") 0) in *.
  set (seq := sequential env (Z.of_nat (List.length ips)) timeout 0 (firstn k ips)) in *.
  set (s := summary_of env target (map (probe env timeout) (firstn k ips))) in *.
  assert (E : run = {| actions := seq ++ (if fin then [Enqueue (complete s); Close] else []);
                       closed := fin |}) by congruence.
  clear H Hrun. subst run. cbn [actions closed].
  assert (Hclose : ~ In Close seq).
  { unfold seq. generalize 0%nat. generalize (firstn k ips).
    induction l as [|x l IH]; intros n Hin; [contradiction|].
    simpl in Hin. destruct Hin as [Hin|[Hin|[Hin|[Hin|Hin]]]]; try discriminate.
    now apply (IH (S n)). }
  split; intros Hfin; subst fin.
  - exists seq, s. split; [reflexivity|]. split; [assumption|].
    unfold seq. rewrite sequential_no_complete, sequential_results.
    unfold s, summary_of. cbn. unfold activeCount.
    repeat split; reflexivity.
  - rewrite app_nil_r. split; [assumption|].
    unfold seq. apply sequential_no_complete.
Qed.

Lemma streaming_summary_matches_events_witness :
  exists (pre : list action) (s : Summary),
    sequential quiet 2 (Some 2) 0 ["10.1.10.1"; "10.1.10.2"]%string
      ++ [Enqueue (complete (summary_of quiet "10.1.10.0/30"
                     (map (probe quiet (Some 2)) ["10.1.10.1"; "10.1.10.2"]%string)));
          Close]
    = pre ++ [Enqueue (complete s); Close] /\
    ~ In Close pre /\
    complete_events (events pre) = [] /\
    results s = result_events (events pre) /\
    totalHosts s = Z.of_nat (List.length (results s)) /\
    activeHosts s = Z.of_nat (List.length (filter is_active (results s))) /\
    success s = true /\
    Some "10.1.10.0/30"%string = Some (PingServer.target s).
Proof.
  refine (proj1 (streaming_summary_matches_events 4 quiet
           {| q_target := Some "10.1.10.0/30"%string; q_timeout := None;
              q_batchSize := None |}
           {| actions :=
                sequential quiet 2 (Some 2) 0 ["10.1.10.1"; "10.1.10.2"]%string
                ++ [Enqueue (complete (summary_of quiet "10.1.10.0/30"
                       (map (probe quiet (Some 2)) ["10.1.10.1"; "10.1.10.2"]%string)));
                    Close];
              closed := true |} _) _).
  - vm_compute. reflexivity.
  - reflexivity.
Defined.

(** *** The two scans side by side *)



(** *** A batch size that is not positive *)

(** A streaming scan with a batch size of zero or below never completes.
    Its first window holds all the expanded addresses but the last
    [- batchSize] (none for the batch size 0); they are taken one at a
    time; after that every window is empty and the index never reaches
    the end: however long the scan runs, the stream is the same, with no
    summary, and it is not closed. *)
Theorem streaming_nonpositive_batch_never_completes :
  forall (fuel : nat) (env : Environment) (request : StreamRequest)
         (target : string) (ips : list string) (b : Z),
  q_target request = Some target -> target <> ""%string ->
  parseIPRange target = Normal ips -> ips <> [] ->
  parseInt (or_else (q_batchSize request) "10") 0 = Some b -> b <= 0 ->
  let timeout := parseInt (or_else (q_timeout request) "2") 0 in
  let probed := firstn (first_window ips b) ips in
  handleStreamingScan (S fuel) env request
  = Normal (EventStream
      {| actions := sequential env (Z.of_nat (List.length ips)) timeout 0 probed;
         closed := false |}) /\
  (b = 0 -> probed = []) /\
  (List.length probed < List.length ips)%nat.
Proof.
  intros fuel env request target ips b Htarget Hne Hips Hsome Hbatch Hb timeout probed.
  pose proof (some_length ips Hsome) as Hlen.
  split; [|split].
  - unfold handleStreamingScan. rewrite Htarget.
    destruct target as [|c target]; [congruence|].
    rewrite Hips. cbn [bind]. unfold start.
    rewrite Hbatch. fold timeout.
    rewrite (stream_loop_first env ips b Hsome Hb timeout fuel). cbn [bind].
    unfold extend. cbn [st_results st_trace app List.length]. reflexivity.
  - intros ->. reflexivity.
  - unfold probed, first_window. rewrite length_firstn.
    destruct (b <? 0) eqn:E; reflect_comparisons; lia.
Qed.

Lemma streaming_nonpositive_batch_never_completes_witness :
  handleStreamingScan 7 quiet
    {| q_target := Some "10.1.10.1-10.1.10.3"%string; q_timeout := None;
       q_batchSize := Some "-1"%string |}
  = Normal (EventStream
      {| actions := sequential quiet 3 (Some 2) 0 ["10.1.10.1"; "10.1.10.2"]%string;
         closed := false |}) /\
  (-1 = 0 -> ["10.1.10.1"; "10.1.10.2"]%string = []) /\
  (2 < 3)%nat.
Proof.
  apply (streaming_nonpositive_batch_never_completes 6 quiet
           {| q_target := Some "10.1.10.1-10.1.10.3"%string; q_timeout := None;
              q_batchSize := Some "-1"%string |}
           "10.1.10.1-10.1.10.3" ["10.1.10.1"; "10.1.10.2"; "10.1.10.3"]%string (-1)).
  - reflexivity.
  - discriminate.
  - vm_compute. reflexivity.
  - discriminate.
  - vm_compute. reflexivity.
  - lia.
Defined.

(** A JSON scan with a batch size of zero or below never answers: the
    loop over the windows does not end, however long it runs. *)
Theorem json_nonpositive_batch_never_answers :
  forall (fuel : nat) (env : Environment) (body : JsonBody)
         (target : string) (ips : list string),
  b_target body = Some target -> target <> ""%string ->
  parseIPRange target = Normal ips -> ips <> [] ->
  default (b_batchSize body) 10 <= 0 ->
  handleJsonScan fuel env body = OutOfFuel.
Proof.
  intros fuel env body target ips Htarget Hne Hips Hsome Hb.
  unfold handleJsonScan. rewrite Htarget.
  destruct target as [|c target]; [congruence|].
  rewrite Hips. cbn [bind].
  rewrite (json_loop_stalled env ips _ Hsome Hb) by lia. reflexivity.
Qed.

Lemma json_nonpositive_batch_never_answers_witness :
  handleJsonScan 1000 quiet
    {| b_target := Some "10.1.10.1-10.1.10.3"%string; b_timeout := None;
       b_batchSize := Some 0 |}
  = OutOfFuel.
Proof.
  apply (json_nonpositive_batch_never_answers 1000 quiet
           {| b_target := Some "10.1.10.1-10.1.10.3"%string; b_timeout := None;
              b_batchSize := Some 0 |}
           "10.1.10.1-10.1.10.3" ["10.1.10.1"; "10.1.10.2"; "10.1.10.3"]%string).
  - reflexivity.
  - discriminate.
  - vm_compute. reflexivity.
  - discriminate.
  - simpl. lia.
Defined.

(** *** A target that is neither a range nor a prefix *)



(* ================================================================= *)
(** ** The checks of the scanner page *)
(* ================================================================= *)

Import Scanner.

Lemma split_decimals (a b c d : Z) :
  0 <= a -> 0 <= b -> 0 <= c -> 0 <= d ->
  split "." (dotted a b c d) = [decimal a; decimal b; decimal c; decimal d].
Proof.
  intros Ha Hb Hc Hd. rewrite dotted_app.
  rewrite !split_app by (apply decimal_no_sep; [lia | reflexivity]).
  rewrite split_absent by (apply decimal_no_sep; [lia | reflexivity]).
  reflexivity.
Qed.

Lemma valid_part_decimal (n : Z) : 0 <= n -> valid_part (decimal n) = (n <=? 255).
Proof.
  intros Hn. unfold valid_part. rewrite parseInt_decimal by assumption.
  destruct (0 <=? n) eqn:E; reflect_comparisons; [reflexivity | lia].
Qed.

Lemma validateIP_dotted (a b c d : Z) :
  0 <= a -> 0 <= b -> 0 <= c -> 0 <= d ->
  validateIP (dotted a b c d) = (a <=? 255) && (b <=? 255) && (c <=? 255) && (d <=? 255).
Proof.
  intros Ha Hb Hc Hd. unfold validateIP.
  rewrite split_decimals by assumption. cbn [List.length Nat.eqb negb forallb].
  rewrite !valid_part_decimal by assumption.
  now rewrite andb_true_r, !andb_assoc.
Qed.

(** On four decimal numerals joined by dots [validateIP] is exact: it
    accepts them when each is at most 255, and only then. *)
Theorem validateIP_decimal (a b c d : Z) :
  0 <= a -> 0 <= b -> 0 <= c -> 0 <= d ->
  validateIP (dotted a b c d) = true <-> octet a /\ octet b /\ octet c /\ octet d.
Proof.
  intros Ha Hb Hc Hd. rewrite validateIP_dotted by assumption.
  rewrite !andb_true_iff, !Z.leb_le. unfold octet. intuition lia.
Qed.

Lemma validateIP_decimal_witness :
  validateIP (dotted 10 1 10 256) = true
  <-> octet 10 /\ octet 1 /\ octet 10 /\ octet 256.
Proof.
  apply (validateIP_decimal 10 1 10 256); lia.
Defined.

Lemma validateIP_well_formed (s : string) : well_formed s -> validateIP s = true.
Proof.
  intros (a & b & c & d & Ha & Hb & Hc & Hd & ->).
  unfold octet in *. rewrite validateIP_dotted by lia.
  rewrite !andb_true_iff, !Z.leb_le. lia.
Qed.

(** Every address that the server reports for a range or a prefix
    passes the page's own [validateIP]. *)
Theorem expanded_addresses_pass_validateIP :
  forall (input : string) (ips : list string),
  includes "-" input = true \/ includes "/" input = true ->
  parseIPRange input = Normal ips ->
  forallb validateIP ips = true.
Proof.
  intros input ips Hsep Hrun. apply forallb_forall. intros x Hx.
  pose proof (expansion_elements input ips Hsep Hrun) as H.
  rewrite Forall_forall in H. apply validateIP_well_formed. now apply H.
Qed.

Lemma expanded_addresses_pass_validateIP_witness :
  forallb validateIP ["10.0.0.0"; "10.0.0.1"; "10.0.0.2"]%string = true.
Proof.
  apply (expanded_addresses_pass_validateIP "10.0.0.x-10.0.0.2").
  - left. reflexivity.
  - vm_compute. reflexivity.
Defined.

Lemma dotted_nonempty (a b c d : Z) : 0 <= a -> dotted a b c d <> ""%string.
Proof.
  intros Ha. rewrite dotted_app.
  pose proof (decimal_nonempty a Ha) as H.
  destruct (decimal a); [congruence | discriminate].
Qed.

Lemma split_prefix (a b c d len : Z) :
  octet a -> octet b -> octet c -> octet d -> 0 <= len ->
  split "/" (dotted a b c d ++ "/" ++ decimal len) = [dotted a b c d; decimal len].
Proof.
  intros Ha Hb Hc Hd Hlen. simpl append.
  rewrite split_app by now apply dotted_no_sep.
  rewrite split_absent by (apply decimal_no_sep; [lia | reflexivity]). reflexivity.
Qed.

Lemma validateCIDR_dotted (a b c d len : Z) :
  octet a -> octet b -> octet c -> octet d -> 0 <= len ->
  validateCIDR (dotted a b c d ++ "/" ++ decimal len) = (24 <=? len) && (len <=? 32).
Proof.
  intros Ha Hb Hc Hd Hlen. unfold validateCIDR.
  rewrite split_prefix by assumption. cbn [nth_error ToString].
  pose proof (dotted_nonempty a b c d (proj1 Ha)) as Hip.
  pose proof (decimal_nonempty len Hlen) as Hbits.
  unfold falsy.
  destruct (dotted a b c d) as [|x ip] eqn:Eip; [congruence|].
  destruct (decimal len) as [|y bits] eqn:Ebits; [congruence|].
  cbn [orb]. rewrite <- Eip, <- Ebits.
  rewrite parseInt_decimal by assumption.
  rewrite validateIP_well_formed; [reflexivity|].
  now exists a, b, c, d.
Qed.

(** On a well-formed address, a slash and a decimal numeral
    [validateCIDR] is exact: it accepts the lengths 24 to 32 and no
    other. *)
Theorem validateCIDR_decimal (a b c d len : Z) :
  octet a -> octet b -> octet c -> octet d -> 0 <= len ->
  validateCIDR (dotted a b c d ++ "/" ++ decimal len) = true <-> 24 <= len <= 32.
Proof.
  intros Ha Hb Hc Hd Hlen. rewrite validateCIDR_dotted by assumption.
  rewrite andb_true_iff, !Z.leb_le. tauto.
Qed.

Lemma validateCIDR_decimal_witness :
  validateCIDR (dotted 10 1 10 0 ++ "/" ++ decimal 23) = true <-> 24 <= 23 <= 32.
Proof.
  apply (validateCIDR_decimal 10 1 10 0 23); unfold octet; lia.
Defined.

(** *** The check for an empty target *)

Lemma includes_trimStart (c : ascii) (s : string) :
  StrWhiteSpaceChar c = false -> includes c s = true -> includes c (trimStart s) = true.
Proof.
  intros Hc. induction s as [|x s IH]; simpl; [discriminate|].
  intros H. destruct (StrWhiteSpaceChar x) eqn:Hx; [|exact H].
  apply IH. destruct (Ascii.eqb x c) eqn:E; [|exact H].
  apply Ascii.eqb_eq in E. congruence.
Qed.

Lemma trimEnd_nonblank (c : ascii) (s : string) :
  StrWhiteSpaceChar c = false -> includes c s = true -> trimEnd s <> ""%string.
Proof.
  intros Hc. induction s as [|x s IH]; simpl; [discriminate|].
  intros H. destruct (trimEnd s) as [|y t] eqn:Ht; [|discriminate].
  destruct (Ascii.eqb x c) eqn:E.
  - apply Ascii.eqb_eq in E. subst x. rewrite Hc. discriminate.
  - simpl in H. now destruct (IH H).
Qed.

Lemma trim_nonblank (c : ascii) (s : string) :
  StrWhiteSpaceChar c = false -> includes c s = true -> trim s <> ""%string.
Proof.
  intros Hc H. unfold trim.
  apply (trimEnd_nonblank c); [assumption | now apply includes_trimStart].
Qed.

(** The third check of [startScan], for a target that is blank, never
    fires: a target that has passed the checks before it holds a dash or
    a slash. *)
Theorem startScan_blank_check_unreachable :
  forall (inputMode : InputMode) (cidr startIp endIp : string),
  startScan inputMode cidr startIp endIp <> EmptyTarget.
Proof.
  intros inputMode cidr startIp endIp. unfold startScan.
  destruct inputMode.
  - destruct (validateCIDR cidr) eqn:Hv; cbn [negb]; [|discriminate].
    assert (Hslash : includes "/" cidr = true).
    { destruct (includes "/" cidr) eqn:E; [reflexivity|].
      unfold validateCIDR in Hv. rewrite (split_absent _ _ E) in Hv.
      cbn [nth_error falsy] in Hv. rewrite orb_true_r in Hv. discriminate. }
    pose proof (trim_nonblank "/" cidr eq_refl Hslash) as Hne.
    destruct (trim cidr); [congruence | discriminate].
  - destruct (negb (validateIP startIp) || negb (validateIP endIp)); [discriminate|].
    assert (Hdash : includes "-" (startIp ++ "-" ++ endIp) = true).
    { rewrite includes_app. simpl. apply orb_true_r. }
    pose proof (trim_nonblank "-" _ eq_refl Hdash) as Hne.
    destruct (trim (startIp ++ "-" ++ endIp)); [congruence | discriminate].
Qed.

(** *** What the page lets through *)

Lemma scan_of_nothing (fuel : nat) (env : Environment) (target : string) :
  target <> ""%string -> parseIPRange target = Normal [] -> (0 < fuel)%nat ->
  handleStreamingScan fuel env (scan_request target)
  = Normal (EventStream
      {| actions := [Enqueue (complete (summary_of env target [])); Close];
         closed := true |}).
Proof.
  intros Hne Hips Hfuel.
  destruct (handleStreamingScan_run fuel env (scan_request target) target []
              eq_refl Hne Hips) as (fin & k & Hk & Hrun & Hfin).
  destruct (Hfin 10 eq_refl ltac:(lia)) as [Hall Hdone].
  specialize (Hdone Hfuel). subst fin. specialize (Hall eq_refl). subst k.
  rewrite Hrun. reflexivity.
Qed.

Lemma prefix_without_hosts (a b c d len : Z) :
  octet a -> octet b -> octet c -> octet d -> len = 31 \/ len = 32 ->
  parseIPRange (dotted a b c d ++ "/" ++ decimal len) = Normal [].
Proof.
  intros Ha Hb Hc Hd Hlen.
  rewrite (parseIPRange_slash _ (dotted a b c d) (decimal len) []).
  - rewrite parseInt_decimal by lia.
    destruct Hlen as [-> | ->]; reflexivity.
  - rewrite includes_app, dotted_no_sep by (assumption || reflexivity). simpl.
    apply decimal_no_sep; [lia | reflexivity].
  - rewrite includes_app. simpl. apply orb_true_r.
  - apply split_prefix; (assumption || lia).
Qed.

(** The page accepts the prefix lengths 31 and 32, and the server scans
    no host for them: the scan that the page starts ends at once, with a
    summary of zero hosts. *)
Theorem accepted_prefix_scans_nothing :
  forall (fuel : nat) (env : Environment) (a b c d len : Z) (startIp endIp : string),
  octet a -> octet b -> octet c -> octet d -> len = 31 \/ len = 32 ->
  (0 < fuel)%nat ->
  let cidr := (dotted a b c d ++ "/" ++ decimal len)%string in
  startScan cidr_mode cidr startIp endIp = Scan cidr /\
  handleStreamingScan fuel env (scan_request cidr)
  = Normal (EventStream
      {| actions := [Enqueue (complete (summary_of env cidr [])); Close];
         closed := true |}).
Proof.
  intros fuel env a b c d len startIp endIp Ha Hb Hc Hd Hlen Hfuel cidr.
  assert (Hslash : includes "/" cidr = true).
  { unfold cidr. rewrite includes_app. simpl. apply orb_true_r. }
  pose proof (trim_nonblank "/" cidr eq_refl Hslash) as Hne.
  split.
  - unfold startScan. fold cidr.
    assert (Hv : validateCIDR cidr = true).
    { unfold cidr. apply validateCIDR_decimal; (assumption || lia). }
    rewrite Hv. cbn [negb].
    destruct (trim cidr); [congruence | reflexivity].
  - apply scan_of_nothing; [|now apply prefix_without_hosts | assumption].
    intros E. rewrite E in Hslash. discriminate.
Qed.

Lemma accepted_prefix_scans_nothing_witness :
  startScan cidr_mode (dotted 10 1 10 5 ++ "/" ++ decimal 32) "" "" 
  = Scan (dotted 10 1 10 5 ++ "/" ++ decimal 32) /\
  handleStreamingScan 1 quiet (scan_request (dotted 10 1 10 5 ++ "/" ++ decimal 32))
  = Normal (EventStream
      {| actions := [Enqueue (complete
                       (summary_of quiet (dotted 10 1 10 5 ++ "/" ++ decimal 32) []));
                     Close];
         closed := true |}).
Proof.
  apply (accepted_prefix_scans_nothing 1 quiet 10 1 10 5 32 "" "");
    unfold octet; lia.
Defined.

(** The page does not compare the two ends of a range: it accepts a
    range written backwards, and the server scans no host for it. *)
Theorem accepted_range_scans_nothing :
  forall (fuel : nat) (env : Environment) (a b c d e f g h : Z) (cidr : string),
  octet a -> octet b -> octet c -> octet d ->
  octet e -> octet f -> octet g -> octet h ->
  (a < 128 <-> e < 128) ->
  addr e f g h < addr a b c d ->
  (0 < fuel)%nat ->
  let target := (dotted a b c d ++ "-" ++ dotted e f g h)%string in
  startScan range_mode cidr (dotted a b c d) (dotted e f g h) = Scan target /\
  handleStreamingScan fuel env (scan_request target)
  = Normal (EventStream
      {| actions := [Enqueue (complete (summary_of env target [])); Close];
         closed := true |}).
Proof.
  intros fuel env a b c d e f g h cidr Ha Hb Hc Hd He Hf Hg Hh Hhalf Hlt Hfuel target.
  assert (Hdash : includes "-" target = true).
  { unfold target. rewrite includes_app. simpl. apply orb_true_r. }
  pose proof (trim_nonblank "-" target eq_refl Hdash) as Hne.
  split.
  - unfold startScan. fold target.
    rewrite !validateIP_well_formed by (eexists _, _, _, _; eauto 10).
    cbn [negb orb].
    destruct (trim target); [congruence | reflexivity].
  - apply scan_of_nothing; [|now apply range_reversed | assumption].
    intros E. rewrite E in Hdash. discriminate.
Qed.

Lemma accepted_range_scans_nothing_witness :
  startScan range_mode "" (dotted 10 1 10 9) (dotted 10 1 10 1)
  = Scan (dotted 10 1 10 9 ++ "-" ++ dotted 10 1 10 1) /\
  handleStreamingScan 1 quiet (scan_request (dotted 10 1 10 9 ++ "-" ++ dotted 10 1 10 1))
  = Normal (EventStream
      {| actions := [Enqueue (complete
                       (summary_of quiet (dotted 10 1 10 9 ++ "-" ++ dotted 10 1 10 1) []));
                     Close];
         closed := true |}).
Proof.
  apply (accepted_range_scans_nothing 1 quiet 10 1 10 9 10 1 10 1 "");
    unfold octet, addr; lia.
Defined.

(** *** What the page and the server make of the same string *)

Lemma append_assoc (s t u : string) : ((s ++ t) ++ u = s ++ (t ++ u))%string.
Proof. induction s as [|c s IH]; simpl; [reflexivity | now rewrite IH]. Qed.

Lemma trailing_letter_check (ch : ascii) :
  letter ch = true -> ch <> "x"%char -> ch <> "X"%char ->
  forallb (fun d => valid_part (decimal d ++ String ch "")
                    && (ToInt32 (Some (Number (decimal d ++ String ch ""))) =? 0))
          (map Z.of_nat (seq 0 256)) = true.
Proof.
  destruct ch as [[] [] [] [] [] [] [] []]; intros H Hx HX;
    try (vm_compute in H; discriminate H);
    try (now destruct Hx); try (now destruct HX);
    vm_compute; reflexivity.
Qed.

Lemma letter_no_dot (ch : ascii) : letter ch = true -> Ascii.eqb ch "." = false.
Proof.
  destruct ch as [[] [] [] [] [] [] [] []]; intros H;
    try (vm_compute in H; discriminate H); reflexivity.
Qed.

(** A letter typed after the last octet goes unnoticed by the page and
    is not harmless: [validateIP] reads the leading digits of each part
    and accepts the address, while the server reads the whole part with
    [Number], gets NaN, and takes the last octet to be 0. *)
Theorem validateIP_trailing_letter (a b c d : Z) (ch : ascii) :
  octet a -> octet b -> octet c -> octet d ->
  letter ch = true -> ch <> "x"%char -> ch <> "X"%char ->
  validateIP (dotted a b c d ++ String ch "") = true /\
  ipValue (dotted a b c d ++ String ch "") = addr a b c 0.
Proof.
  intros Ha Hb Hc Hd Hch Hx HX.
  pose proof (octet_enum _ (trailing_letter_check ch Hch Hx HX) d Hd) as Hlast.
  apply andb_true_iff in Hlast as [Hvalid Hzero]. apply Z.eqb_eq in Hzero.
  assert (Hsplit : split "." (dotted a b c d ++ String ch "")
                   = [decimal a; decimal b; decimal c; (decimal d ++ String ch "")%string]).
  { rewrite dotted_app. unfold octet in *.
    rewrite append_assoc. simpl append.
    rewrite split_app by (apply decimal_no_sep; [lia | reflexivity]).
    rewrite append_assoc. simpl append.
    rewrite split_app by (apply decimal_no_sep; [lia | reflexivity]).
    rewrite append_assoc. simpl append.
    rewrite split_app by (apply decimal_no_sep; [lia | reflexivity]).
    rewrite split_absent; [reflexivity|].
    rewrite includes_app, decimal_no_sep by (lia || reflexivity).
    simpl. now rewrite letter_no_dot. }
  split.
  - unfold validateIP. rewrite Hsplit. cbn [List.length Nat.eqb negb forallb].
    unfold octet in *. rewrite !valid_part_decimal, Hvalid by lia.
    rewrite !andb_true_iff, !Z.leb_le. lia.
  - unfold ipValue, ToUint32. rewrite Hsplit.
    unfold packOctets. cbn [map nth_error].
    rewrite !Number_octet, Hzero by assumption.
    rewrite pack_octets by (assumption || (unfold octet; lia)).
    rewrite wrap32_mod. apply Z.mod_small. apply addr_range; (assumption || (unfold octet; lia)).
Qed.

Lemma validateIP_trailing_letter_witness :
  validateIP (dotted 10 1 10 5 ++ String "o" "") = true /\
  ipValue (dotted 10 1 10 5 ++ String "o" "") = addr 10 1 10 0.
Proof.
  apply (validateIP_trailing_letter 10 1 10 5 "o");
    (unfold octet; lia) || reflexivity || discriminate.
Defined.

(* ================================================================= *)
(** ** The stored hostnames *)
(* ================================================================= *)

Import HostnameSuggestions.

Lemma firstn_min {A : Type} (n : Z) (l : list A) :
  0 <= n ->
  firstn (Z.to_nat (Z.min n (Z.of_nat (List.length l)) - 0)) l = firstn (Z.to_nat n) l.
Proof.
  intros Hn. rewrite Z.sub_0_r.
  destruct (Z_le_gt_dec n (Z.of_nat (List.length l))) as [H|H].
  - now rewrite Z.min_l.
  - rewrite Z.min_r, Nat2Z.id, firstn_all by lia.
    symmetry. apply firstn_all2. lia.
Qed.

Lemma slice_from_start {A : Type} (n : Z) (l : list A) :
  0 <= n -> slice l (Some 0) (Some n) = firstn (Z.to_nat n) l.
Proof.
  intros Hn. unfold slice, relative_index.
  change (0 <? 0) with false. cbv iota.
  destruct (n <? 0) eqn:E; reflect_comparisons; [lia|].
  rewrite (Z.min_l 0) by lia. change (Z.to_nat 0) with O. rewrite skipn_0.
  now apply firstn_min.
Qed.

Lemma mostRecentFirst_keys (x y : HostnameSuggestion) :
  True -> True -> mostRecentFirst x y = Some (- lastUsed x - - lastUsed y).
Proof. intros _ _. unfold mostRecentFirst. f_equal. ring. Qed.

Lemma descending_of_keys (l : list HostnameSuggestion) :
  StronglySorted Z.le (map (fun h => - lastUsed h) l) ->
  StronglySorted Z.ge (map lastUsed l).
Proof.
  induction l as [|x l IH]; simpl; intros H; [constructor|].
  inversion H as [|x' l' Hs Hall]; subst. constructor; [now apply IH|].
  rewrite Forall_map in *. revert Hall. apply Forall_impl. intros y Hy. lia.
Qed.

Lemma firstn_StronglySorted {A : Type} (R : A -> A -> Prop) (l : list A) :
  StronglySorted R l -> forall n : nat, StronglySorted R (firstn n l).
Proof.
  induction 1 as [|x l Hs IH Hall]; intros n; [now rewrite firstn_nil; constructor|].
  destruct n as [|n]; simpl; constructor; [apply IH|].
  apply Forall_forall. intros y Hy. rewrite Forall_forall in Hall.
  apply Hall. revert Hy. clear. revert n. induction l as [|z l IH]; intros n Hy.
  - now rewrite firstn_nil in Hy.
  - destruct n as [|n]; simpl in Hy; [contradiction|].
    destruct Hy as [->|Hy]; [now left | right; now apply (IH n)].
Qed.

Lemma In_firstn {A : Type} (n : nat) (l : list A) (x : A) :
  In x (firstn n l) -> In x l.
Proof.
  revert n. induction l as [|z l IH]; intros n Hx.
  - now rewrite firstn_nil in Hx.
  - destruct n as [|n]; simpl in Hx; [contradiction|].
    destruct Hx as [->|Hx]; [now left | right; now apply (IH n)].
Qed.

Lemma In_assign {A : Type} (f : A -> A) (l : list A) :
  forall (i : nat) (y : A),
  In y (assign i f l) -> In y l \/ exists x, In x l /\ y = f x.
Proof.
  induction l as [|x l IH]; intros i y Hy; [destruct i; contradiction|].
  destruct i as [|i]; simpl in Hy.
  - destruct Hy as [<-|Hy]; [right; exists x; split; [now left | reflexivity]|].
    left. now right.
  - destruct Hy as [<-|Hy]; [left; now left|].
    destruct (IH i y Hy) as [H|(z & Hz & ->)]; [left; now right|].
    right. exists z. split; [now right | reflexivity].
Qed.

(** Whatever the storage held, after a name that is not blank has been
    saved it holds at most 100 suggestions, the most recently used
    first, and no name that was not there before but the one saved,
    trimmed. *)
Theorem saveHostname_bounded_sorted :
  forall (now : Z) (st : stored) (name : string) (given : option string),
  trim name <> ""%string ->
  exists l : list HostnameSuggestion,
    saveHostname now st name given = Item l /\
    (List.length l <= 100)%nat /\
    StronglySorted Z.ge (map lastUsed l) /\
    forall h, In h l ->
      hostname h = trim name \/ In (hostname h) (map hostname (getStoredHostnames st)).
Proof.
  intros now st name given Hname. unfold saveHostname.
  destruct (trim name) as [|c t] eqn:Htrim; [congruence|]. rewrite <- Htrim.
  set (hostnames := getStoredHostnames st).
  set (hostnames' := match findIndex _ hostnames with
                     | Some i => assign i _ hostnames
                     | None => (hostnames ++ _)%list
                     end).
  eexists. split; [reflexivity|].
  rewrite slice_from_start by lia. change (Z.to_nat 100) with 100%nat.
  split; [apply firstn_le_length|]. split.
  - rewrite <- firstn_map. apply firstn_StronglySorted.
    apply descending_of_keys.
    apply (sorted_keys _ (fun h => - lastUsed h)).
    apply (sort_sorted _ mostRecentFirst (fun h => - lastUsed h) (fun _ => True)
             mostRecentFirst_keys).
    apply Forall_forall. auto.
  - intros h Hh. apply In_firstn in Hh.
    apply (Permutation_in h (sort_perm _ mostRecentFirst hostnames')) in Hh.
    unfold hostnames' in Hh.
    destruct (findIndex _ hostnames) as [i|].
    + apply In_assign in Hh as [Hh|(x & Hx & ->)]; right.
      * now apply in_map.
      * simpl. now apply in_map.
    + apply in_app_iff in Hh as [Hh|[<-|[]]].
      * right. now apply in_map.
      * left. reflexivity.
Qed.

Lemma saveHostname_bounded_sorted_witness :
  exists l : list HostnameSuggestion,
    saveHostname 50 (Item [{| hostname := "nas"; ip := None; lastUsed := 70 |};
                           {| hostname := "printer"; ip := None; lastUsed := 20 |}])
                 " Printer " (Some "10.1.10.9"%string)
    = Item l /\
    (List.length l <= 100)%nat /\
    StronglySorted Z.ge (map lastUsed l) /\
    forall h, In h l ->
      hostname h = trim " Printer "
      \/ In (hostname h)
            (map hostname
               (getStoredHostnames
                  (Item [{| hostname := "nas"; ip := None; lastUsed := 70 |};
                         {| hostname := "printer"; ip := None; lastUsed := 20 |}]))).
Proof.
  apply (saveHostname_bounded_sorted 50 _ " Printer " (Some "10.1.10.9"%string)).
  vm_compute. discriminate.
Defined.

(** *** The entry just saved comes first *)

Lemma sort_newest_first (e : HostnameSuggestion) (l1 l2 : list HostnameSuggestion) :
  (forall h, In h (l1 ++ l2) -> lastUsed h < lastUsed e) ->
  sort mostRecentFirst (l1 ++ e :: l2) = e :: sort mostRecentFirst (l1 ++ l2).
Proof.
  induction l1 as [|x l1 IH]; intros Hall.
  - simpl app. simpl sort at 1.
    destruct (sort mostRecentFirst l2) as [|y l] eqn:Hs; [reflexivity|].
    simpl. unfold keeps_order, mostRecentFirst.
    assert (Hy : lastUsed y < lastUsed e).
    { apply Hall. simpl. apply (Permutation_in y (sort_perm _ mostRecentFirst l2)).
      rewrite Hs. now left. }
    destruct (lastUsed y - lastUsed e <=? 0) eqn:E; reflect_comparisons; [reflexivity | lia].
  - simpl app. simpl sort at 1. rewrite IH by (intros h Hh; apply Hall; now right).
    simpl. unfold keeps_order at 1, mostRecentFirst at 1.
    assert (Hx : lastUsed x < lastUsed e) by (apply Hall; now left).
    destruct (lastUsed e - lastUsed x <=? 0) eqn:E; reflect_comparisons; [lia | reflexivity].
Qed.

Lemma findIndex_Some {A : Type} (p : A -> bool) (l : list A) :
  forall i : nat, findIndex p l = Some i ->
  exists l1 x l2, l = l1 ++ x :: l2 /\ List.length l1 = i /\ p x = true.
Proof.
  induction l as [|x l IH]; intros i H; [discriminate|].
  simpl in H. destruct (p x) eqn:Hp.
  - assert (i = O) by congruence. subst. now exists [], x, l.
  - destruct (findIndex p l) as [j|]; [|discriminate].
    assert (i = S j) by congruence. subst.
    destruct (IH j eq_refl) as (l1 & y & l2 & -> & Hlen & Hy).
    exists (x :: l1), y, l2. simpl. now rewrite Hlen.
Qed.

Lemma findIndex_None {A : Type} (p : A -> bool) (l : list A) :
  findIndex p l = None <-> forall x, In x l -> p x = false.
Proof.
  induction l as [|x l IH]; simpl; [tauto|].
  destruct (p x) eqn:Hp.
  - split; [discriminate|]. intros H. rewrite (H x) in Hp by now left. discriminate.
  - destruct (findIndex p l) as [j|].
    + split; [discriminate|]. intros H.
      assert (E : Some j = None) by (apply IH; intros y Hy; apply H; now right).
      discriminate.
    + split; [|reflexivity]. intros _ y [<-|Hy]; [assumption|].
      now apply (proj1 IH).
Qed.

Lemma assign_middle {A : Type} (f : A -> A) (l1 : list A) (x : A) (l2 : list A) :
  assign (List.length l1) f (l1 ++ x :: l2) = l1 ++ f x :: l2.
Proof. induction l1 as [|y l1 IH]; simpl; [reflexivity | now rewrite IH]. Qed.

(** When the clock has moved on since the stored entries were used, the
    entry of the name just saved is the first of the list: with the
    time of the save, under the name given (trimmed) or under the stored
    name that matches it without regard to case, and with the address
    given, if one was given. *)
Theorem saveHostname_most_recent_first :
  forall (now : Z) (st : stored) (name : string) (given : option string),
  trim name <> ""%string ->
  (forall h, In h (getStoredHostnames st) -> lastUsed h < now) ->
  exists (e : HostnameSuggestion) (rest : list HostnameSuggestion),
    saveHostname now st name given = Item (e :: rest) /\
    lastUsed e = now /\
    (hostname e = trim name \/ toLowerCase (hostname e) = toLowerCase name) /\
    (truthy given = true -> ip e = given).
Proof.
  intros now st name given Hname Hold. unfold saveHostname.
  destruct (trim name) as [|c t] eqn:Htrim; [congruence|]. rewrite <- Htrim.
  set (hostnames := getStoredHostnames st) in *.
  rewrite slice_from_start by lia. change (Z.to_nat 100) with 100%nat.
  destruct (findIndex _ hostnames) as [i|] eqn:Hfind.
  - apply findIndex_Some in Hfind as (l1 & x & l2 & Hl & Hlen & Hx).
    rewrite Hl, <- Hlen, assign_middle.
    rewrite sort_newest_first.
    + do 2 eexists. split; [reflexivity|]. cbn [lastUsed hostname ip].
      split; [reflexivity|]. split.
      * right. now apply String.eqb_eq.
      * now intros ->.
    + cbn [lastUsed]. intros h Hh. apply Hold. rewrite Hl.
      apply in_app_iff in Hh as [Hh|Hh]; apply in_app_iff; [now left|].
      right. now right.
  - rewrite sort_newest_first.
    + do 2 eexists. split; [reflexivity|]. cbn [lastUsed hostname ip]. auto.
    + cbn [lastUsed]. rewrite app_nil_r. exact Hold.
Qed.

Lemma saveHostname_most_recent_first_witness :
  exists (e : HostnameSuggestion) (rest : list HostnameSuggestion),
    saveHostname 90 (Item [{| hostname := "nas"; ip := None; lastUsed := 70 |};
                           {| hostname := "printer"; ip := None; lastUsed := 20 |}])
                 "Printer" (Some "10.1.10.9"%string)
    = Item (e :: rest) /\
    lastUsed e = 90 /\
    (hostname e = trim "Printer" \/ toLowerCase (hostname e) = toLowerCase "Printer") /\
    (truthy (Some "10.1.10.9"%string) = true -> ip e = Some "10.1.10.9"%string).
Proof.
  apply (saveHostname_most_recent_first 90 _ "Printer" (Some "10.1.10.9"%string)).
  - vm_compute. discriminate.
  - simpl. intros h [<-|[<-|[]]]; simpl; lia.
Defined.

(** *** A name saved with white space around it *)

Lemma toLowerCase_length (s : string) :
  String.length (toLowerCase s) = String.length s.
Proof. induction s as [|c s IH]; simpl; [reflexivity | now rewrite IH]. Qed.

Lemma trimStart_length (s : string) :
  (String.length (trimStart s) <= String.length s)%nat /\
  (String.length (trimStart s) = String.length s -> trimStart s = s).
Proof.
  induction s as [|c s [IH1 IH2]]; simpl; [auto|].
  destruct (StrWhiteSpaceChar c); simpl; [|auto].
  split; [lia|]. intros H. lia.
Qed.

Lemma trimEnd_length (s : string) :
  (String.length (trimEnd s) <= String.length s)%nat /\
  (String.length (trimEnd s) = String.length s -> trimEnd s = s).
Proof.
  induction s as [|c s [IH1 IH2]]; simpl; [auto|].
  destruct (trimEnd s) as [|x t] eqn:Ht.
  - destruct (StrWhiteSpaceChar c); simpl in *.
    + split; [lia | intros H; lia].
    + split; [lia|]. intros H.
      destruct s; [reflexivity | simpl in H; lia].
  - simpl in *. split; [lia|]. intros H.
    f_equal. apply IH2. lia.
Qed.

Lemma trim_shorter (s : string) :
  trim s <> s -> String.length (trim s) <> String.length s.
Proof.
  intros Hne Hlen. apply Hne. unfold trim in *.
  destruct (trimStart_length s) as [S1 S2].
  destruct (trimEnd_length (trimStart s)) as [E1 E2].
  rewrite E2 by lia. apply S2. lia.
Qed.

Lemma saveHostname_not_blank (now : Z) (st : stored) (name : string)
  (given : option string) :
  trim name <> ""%string ->
  saveHostname now st name given
  = Item (firstn 100
      (sort mostRecentFirst
         match findIndex (fun h => String.eqb (toLowerCase (hostname h)) (toLowerCase name))
                         (getStoredHostnames st) with
         | Some i =>
             assign i (fun h => {| hostname := hostname h;
                                   ip := if truthy given then given else ip h;
                                   lastUsed := now |}) (getStoredHostnames st)
         | None =>
             getStoredHostnames st
             ++ [{| hostname := trim name; ip := given; lastUsed := now |}]
         end)).
Proof.
  intros Hname. unfold saveHostname.
  destruct (trim name) as [|c t] eqn:Htrim; [congruence|].
  rewrite slice_from_start by lia. reflexivity.
Qed.

(** The look-up of [saveHostname] compares the stored names with the
    name as it was typed, but stores the name trimmed. So a name typed
    with white space around it is never found again: saved twice, it is
    stored twice. *)
Theorem saveHostname_padded_name_twice :
  forall (now1 now2 : Z) (l : list HostnameSuggestion) (name : string)
         (given : option string),
  trim name <> ""%string -> trim name <> name ->
  (forall h, In h l -> lastUsed h < now1) -> now1 < now2 ->
  (forall h, In h l -> toLowerCase (hostname h) <> toLowerCase name) ->
  exists rest : list HostnameSuggestion,
    saveHostname now2 (saveHostname now1 (Item l) name given) name given
    = Item ({| hostname := trim name; ip := given; lastUsed := now2 |}
            :: {| hostname := trim name; ip := given; lastUsed := now1 |}
            :: rest).
Proof.
  intros now1 now2 l name given Hname Hpad Hold Hlater Hnew.
  set (p := fun h => String.eqb (toLowerCase (hostname h)) (toLowerCase name)).
  set (e1 := {| hostname := trim name; ip := given; lastUsed := now1 |}).
  set (e2 := {| hostname := trim name; ip := given; lastUsed := now2 |}).
  assert (Hp : forall h, In h l -> p h = false).
  { intros h Hh. apply String.eqb_neq. now apply Hnew. }
  assert (Hp1 : p e1 = false).
  { apply String.eqb_neq. unfold e1. cbn [hostname]. intros E.
    apply (trim_shorter name Hpad).
    now rewrite <- (toLowerCase_length (trim name)), E, toLowerCase_length. }
  assert (Hfirst : saveHostname now1 (Item l) name given
                   = Item (e1 :: firstn 99 (sort mostRecentFirst l))).
  { rewrite saveHostname_not_blank by assumption.
    cbn [getStoredHostnames]. fold p.
    rewrite (proj2 (findIndex_None p l) Hp).
    fold e1. rewrite sort_newest_first by (rewrite app_nil_r; exact Hold).
    rewrite app_nil_r. reflexivity. }
  rewrite Hfirst.
  set (kept := firstn 99 (sort mostRecentFirst l)).
  assert (Hkept : forall h, In h kept -> In h l).
  { intros h Hh. apply In_firstn in Hh.
    exact (Permutation_in h (sort_perm _ mostRecentFirst l) Hh). }
  exists (firstn 98 (sort mostRecentFirst kept)).
  rewrite saveHostname_not_blank by assumption.
  cbn [getStoredHostnames]. fold p.
  assert (Hnone : findIndex p (e1 :: kept) = None).
  { apply findIndex_None. intros h [<-|Hh]; [assumption | apply Hp; now apply Hkept]. }
  rewrite Hnone.
  fold e2.
  rewrite sort_newest_first.
  - rewrite app_nil_r.
    change (e1 :: kept) with ([] ++ e1 :: kept).
    rewrite (sort_newest_first e1 [] kept).
    + reflexivity.
    + intros h Hh. cbn [lastUsed e1]. apply Hold. now apply Hkept.
  - rewrite app_nil_r. cbn [lastUsed e2]. intros h [<-|Hh].
    + exact Hlater.
    + apply Hkept, Hold in Hh. lia.
Qed.

Lemma saveHostname_padded_name_twice_witness :
  exists rest : list HostnameSuggestion,
    saveHostname 200
      (saveHostname 100 (Item [{| hostname := "nas"; ip := None; lastUsed := 70 |}])
                    "printer " None)
      "printer " None
    = Item ({| hostname := trim "printer "; ip := None; lastUsed := 200 |}
            :: {| hostname := trim "printer "; ip := None; lastUsed := 100 |}
            :: rest).
Proof.
  apply (saveHostname_padded_name_twice 100 200
           [{| hostname := "nas"; ip := None; lastUsed := 70 |}] "printer " None).
  - vm_compute. discriminate.
  - vm_compute. discriminate.
  - simpl. intros h [<-|[]]. simpl. lia.
  - lia.
  - simpl. intros h [<-|[]]. vm_compute. discriminate.
Defined.

(** *** The keys of the hostname input *)

Lemma at_index_Some {A : Type} (l : list A) (i : Z) :
  0 <= i < Z.of_nat (List.length l) ->
  exists x, at_index l i = Some x /\ In x l.
Proof.
  intros Hi. unfold at_index.
  destruct (i <? 0) eqn:E; reflect_comparisons; [lia|].
  destruct (nth_error l (Z.to_nat i)) as [x|] eqn:Hx.
  - exists x. split; [reflexivity|]. now apply nth_error_In in Hx.
  - apply nth_error_None in Hx. lia.
Qed.

(** While the selected index is [-1] or the index of a suggestion, no
    key makes the input fail: the index stays [-1] or the index of a
    suggestion, the suggestion read at it exists, and [onChange] is
    called with the name of a suggestion only. *)
Theorem handleKeyDown_safe :
  forall (suggestions : list HostnameSuggestion) (selectedIndex : Z) (key : Key),
  -1 <= selectedIndex < Z.of_nat (List.length suggestions) ->
  exists (calls : list call) (selectedIndex' : Z),
    handleKeyDown suggestions selectedIndex key = Normal (calls, selectedIndex') /\
    -1 <= selectedIndex' < Z.of_nat (List.length suggestions) /\
    forall value, In (onChange value) calls -> In value (map hostname suggestions).
Proof.
  intros suggestions selectedIndex key Hidx.
  assert (Hat : 0 <= selectedIndex ->
                exists x, at_index suggestions selectedIndex = Some x /\ In x suggestions)
    by (intros H; apply at_index_Some; lia).
  destruct key; unfold handleKeyDown.
  - destruct (0 <=? selectedIndex) eqn:E; reflect_comparisons.
    + destruct (Hat E) as (x & Hx & Hin). rewrite Hx. cbn [defined bind].
      do 2 eexists. split; [reflexivity|]. split; [assumption|].
      intros value [H|[H|[]]]; [|discriminate].
      assert (value = hostname x) by congruence. subst. now apply in_map.
    + do 2 eexists. split; [reflexivity|]. split; [assumption|].
      intros value [H|[]]. discriminate.
  - do 2 eexists. split; [reflexivity|]. split; [assumption|].
    intros value [H|[H|[]]]; discriminate.
  - do 2 eexists. split; [reflexivity|]. split; [lia|].
    intros value [H|[]]. discriminate.
  - do 2 eexists. split; [reflexivity|]. split; [lia|].
    intros value [H|[]]. discriminate.
  - destruct (0 <? Z.of_nat (List.length suggestions)) eqn:L; reflect_comparisons.
    + destruct (0 <=? selectedIndex) eqn:E; reflect_comparisons.
      * destruct (Hat E) as (x & Hx & Hin). rewrite Hx. cbn [defined bind].
        do 2 eexists. split; [reflexivity|]. split; [assumption|].
        intros value [H|[H|[H|[]]]]; try discriminate.
        assert (value = hostname x) by congruence. subst. now apply in_map.
      * destruct (Z.of_nat (List.length suggestions) =? 1) eqn:O.
        -- destruct (at_index_Some suggestions 0) as (x & Hx & Hin); [lia|].
           rewrite Hx. cbn [defined bind].
           do 2 eexists. split; [reflexivity|]. split; [assumption|].
           intros value [H|[H|[H|[]]]]; try discriminate.
           assert (value = hostname x) by congruence. subst. now apply in_map.
        -- do 2 eexists. split; [reflexivity|]. split; [assumption|].
           intros value [H|[H|[]]]; discriminate.
    + do 2 eexists. split; [reflexivity|]. split; [assumption|].
      intros value [].
  - do 2 eexists. split; [reflexivity|]. split; [assumption|].
    intros value [].
Qed.

Lemma handleKeyDown_safe_witness :
  exists (calls : list call) (selectedIndex' : Z),
    handleKeyDown [{| hostname := "nas"; ip := None; lastUsed := 70 |};
                   {| hostname := "printer"; ip := None; lastUsed := 20 |}] 1 Tab
    = Normal (calls, selectedIndex') /\
    -1 <= selectedIndex' < 2 /\
    forall value, In (onChange value) calls -> In value ["nas"; "printer"]%string.
Proof.
  apply (handleKeyDown_safe [{| hostname := "nas"; ip := None; lastUsed := 70 |};
                             {| hostname := "printer"; ip := None; lastUsed := 20 |}] 1 Tab).
  simpl. lia.
Defined.
